(** * golang_match_order: the order book and its matcher

    A shallow embedding of [src/model/match.go], [src/model/order.go] and of
    the repaired copies [src/main/match.go], [src/main/order.go], over the
    types of [src/main/model.go].

    Conventions of the embedding.
    - A [*big.Float] is a precision and a finite binary value
      [mant * 2^expo]; infinities, the sign of zero and the int32 range of
      the exponent are left out, the rounding mode is the default
      [ToNearestEven], and every [*big.Float] field points to a number of
      its own.
    - [*Order] and [*PriceLevel] are addresses into two stores, so the id map,
      the price map, the trees and the FIFOs share the objects they share in
      the program.
    - Locks are left out: the operations are embedded as they run alone. *)

From Stdlib Require Import ZArith QArith Qpower Lia List Sorted.
From stdpp Require Import gmap strings pretty.
Import ListNotations.

Local Open Scope Z_scope.

(** ** math/big.Float *)

Record Float := mkFloat { prec : positive; mant : Z; expo : Z }.

(** An unrounded binary number [m * 2^e]. *)
Definition dyadic : Type := (Z * Z)%type.

Definition bitlen (m : Z) : Z :=
  if Z.abs m =? 0 then 0 else Z.log2 (Z.abs m) + 1.

(** Rounding of [m * 2^e] to [p] mantissa bits, ties to even. *)
Definition round (p : positive) (x : dyadic) : Float :=
  let '(m, e) := x in
  let n := bitlen m in
  if n <=? Z.pos p then mkFloat p m e
  else
    let s := n - Z.pos p in
    let q := Z.shiftr (Z.abs m) s in
    let r := Z.abs m mod 2 ^ s in
    let up := if 2 * r <? 2 ^ s then false
              else if 2 * r =? 2 ^ s then Z.odd q else true in
    mkFloat p (Z.sgn m * (if up then q + 1 else q)) (e + s).

Definition exact (x : Float) : dyadic := (mant x, expo x).

Definition dsub (x y : dyadic) : dyadic :=
  let e := Z.min (snd x) (snd y) in
  (fst x * 2 ^ (snd x - e) - fst y * 2 ^ (snd y - e), e).

Definition dadd (x y : dyadic) : dyadic :=
  let e := Z.min (snd x) (snd y) in
  (fst x * 2 ^ (snd x - e) + fst y * 2 ^ (snd y - e), e).

Definition dmul (x y : dyadic) : dyadic :=
  (fst x * fst y, snd x + snd y).

(** [x.Cmp(y)]: -1, 0 or +1, on the exact values. *)
Definition Cmp (x y : Float) : Z :=
  let e := Z.min (expo x) (expo y) in
  match mant x * 2 ^ (expo x - e) ?= mant y * 2 ^ (expo y - e) with
  | Lt => -1
  | Eq => 0
  | Gt => 1
  end.

(** [x.Sign()]. *)
Definition Sign (x : Float) : Z := Z.sgn (mant x).

(** [big.NewFloat(x)] for the float64 [m * 2^e]: precision 53. *)
Definition NewFloat (m e : Z) : Float := round 53 (m, e).

(** [z.Copy(x)]: value and precision of [x]. *)
Definition Copy (x : Float) : Float := x.

(** [z.Set(x)], [z.Add(x, y)], [z.Sub(x, y)], [z.Mul(x, y)] for a receiver
    of non-zero precision: the result is rounded to the precision of [z]. *)
Definition FSet (z x : Float) : Float := round (prec z) (exact x).
Definition Add (z x y : Float) : Float := round (prec z) (dadd (exact x) (exact y)).
Definition Sub (z x y : Float) : Float := round (prec z) (dsub (exact x) (exact y)).
Definition Mul (z x y : Float) : Float := round (prec z) (dmul (exact x) (exact y)).

(** The rational a [Float] stands for. *)
Definition F2Q (x : Float) : Q := (inject_Z (mant x) * 2 ^ expo x)%Q.

(** [calculateFee], match.go:166-171.  Both products are stored in a
    [big.NewFloat(0)], of precision 53; the rate is the float64 literal
    [0.001], that is 1152921504606847 * 2^-60. *)
Definition feeRate : Float := NewFloat 1152921504606847 (-60).

Definition calculateFee (quantity price : Float) : Float :=
  let amount := Mul (NewFloat 0 0) quantity price in
  Mul (NewFloat 0 0) amount feeRate.

(** ** The types of model.go *)

(** The side and status strings, as the constants the program uses. *)
Inductive side := SideBuy | SideSell.
Inductive status :=
  StatusPending | StatusPartiallyFilled | StatusFilled | StatusCancelled.

#[global] Instance side_eq_dec : EqDecision side.
Proof. solve_decision. Defined.
#[global] Instance status_eq_dec : EqDecision status.
Proof. solve_decision. Defined.

(** Addresses of [*Order], of [*PriceLevel] and of [*list.Element]. *)
Definition ptr := nat.
Definition lptr := nat.
Definition eptr := nat.

Module Order.
Record t := mk {
  OrderID : string;
  UserID : string;
  Symbol : string;
  Side : side;
  Price : Float;
  Quantity : Float;
  Remaining : Float;
  Status : status;
  CreateTime : Z;
  UpdateTime : Z;
  IsMarket : bool
}.
Definition setRemaining (r : Float) (o : t) : t :=
  mk (OrderID o) (UserID o) (Symbol o) (Side o) (Price o) (Quantity o) r
     (Status o) (CreateTime o) (UpdateTime o) (IsMarket o).
Definition setStatus (s : status) (o : t) : t :=
  mk (OrderID o) (UserID o) (Symbol o) (Side o) (Price o) (Quantity o)
     (Remaining o) s (CreateTime o) (UpdateTime o) (IsMarket o).
Definition setUpdateTime (u : Z) (o : t) : t :=
  mk (OrderID o) (UserID o) (Symbol o) (Side o) (Price o) (Quantity o)
     (Remaining o) (Status o) (CreateTime o) u (IsMarket o).
End Order.

Module Trade.
Record t := mk {
  TradeID : string;
  Symbol : string;
  Price : Float;
  Quantity : Float;
  MakerOrderID : string;
  TakerOrderID : string;
  MakerUserID : string;
  TakerUserID : string;
  TradeTime : Z;
  Fee : Float
}.
End Trade.

(** A node of [container/list]: its own address and the [*Order] it holds. *)
Module Element.
Record t := mk { addr : eptr; Value : ptr }.
End Element.

Module PriceLevel.
Record t := mk {
  Price : Float;
  TotalQty : Float;
  Orders : list Element.t;
  OrderMap : gmap string eptr
}.
End PriceLevel.

Module PriceLevelItem.
Record t := mk { Price : Float; Level : lptr }.
(** [Less], model.go:70-75: ascending by price, for both trees. *)
Definition Less (p other : t) : bool := Cmp (Price p) (Price other) <? 0.
End PriceLevelItem.

(** ** github.com/google/btree, as the ascending list of its items *)

Module btree.
Definition BTree := list PriceLevelItem.t.

Definition New : BTree := [].

Fixpoint ReplaceOrInsert (tr : BTree) (it : PriceLevelItem.t) : BTree :=
  match tr with
  | [] => [it]
  | x :: rest =>
      if PriceLevelItem.Less it x then it :: x :: rest
      else if PriceLevelItem.Less x it then x :: ReplaceOrInsert rest it
      else it :: rest
  end.

Fixpoint Delete (tr : BTree) (it : PriceLevelItem.t) : BTree :=
  match tr with
  | [] => []
  | x :: rest =>
      if PriceLevelItem.Less it x then x :: rest
      else if PriceLevelItem.Less x it then x :: Delete rest it
      else rest
  end.

(** The items in the order [Ascend] and [Descend] hand them to the
    iterator. *)
Definition Ascend (tr : BTree) : list PriceLevelItem.t := tr.
Definition Descend (tr : BTree) : list PriceLevelItem.t := rev tr.
End btree.

Module OrderBook.
Record t := mk {
  Symbol : string;
  Bids : btree.BTree;
  Asks : btree.BTree;
  PriceLevels : gmap string lptr;
  OrderMap : gmap string ptr;
  lastMatchTime : Z
}.
End OrderBook.

(** ** The state the operations run in *)

(** What the program takes from outside: [String] of [big.Float], the
    successive readings of [time.Now().UnixNano()] and the successive
    [uuid.New().String()]. *)
Record Runtime := {
  FloatString : Float -> string;
  UnixNano : nat -> Z;
  NewUUID : nat -> string
}.

Record State := mkState {
  orders : ptr -> Order.t;
  levels : lptr -> PriceLevel.t;
  nextLevel : lptr;
  nextElem : eptr;
  clock : nat;
  uuids : nat;
  ob : OrderBook.t
}.

Definition upd {A} (h : nat -> A) (p : nat) (a : A) : nat -> A :=
  fun q => if Nat.eqb q p then a else h q.

Definition setOrder (p : ptr) (o : Order.t) (st : State) : State :=
  mkState (upd (orders st) p o) (levels st) (nextLevel st) (nextElem st)
          (clock st) (uuids st) (ob st).
Definition setLevel (lp : lptr) (l : PriceLevel.t) (st : State) : State :=
  mkState (orders st) (upd (levels st) lp l) (nextLevel st) (nextElem st)
          (clock st) (uuids st) (ob st).
Definition setBook (b : OrderBook.t) (st : State) : State :=
  mkState (orders st) (levels st) (nextLevel st) (nextElem st)
          (clock st) (uuids st) b.

(** Errors of [AddOrder] and [CancelOrder], one per [fmt.Errorf]. *)
Inductive error :=
| ErrOrderExists (id : string)
| ErrOrderNotFound (id : string)
| ErrCannotCancel (id : string) (s : status)
| ErrLevelNotFound (priceStr : string)
| ErrNotInLevel (id : string).

Section Engine.
Variable rt : Runtime.

(** [time.Now().UnixNano()]. *)
Definition now (st : State) : Z * State :=
  (UnixNano rt (clock st),
   mkState (orders st) (levels st) (nextLevel st) (nextElem st)
           (S (clock st)) (uuids st) (ob st)).

(** [uuid.New().String()]. *)
Definition newUUID (st : State) : string * State :=
  (NewUUID rt (uuids st),
   mkState (orders st) (levels st) (nextLevel st) (nextElem st)
           (clock st) (S (uuids st)) (ob st)).

(** The tree of a side: [tree := ob.Asks; if side == SideBuy { tree = ob.Bids }]. *)
Definition withTree (s : side) (f : btree.BTree -> btree.BTree)
           (b : OrderBook.t) : OrderBook.t :=
  match s with
  | SideBuy =>
      OrderBook.mk (OrderBook.Symbol b) (f (OrderBook.Bids b)) (OrderBook.Asks b)
                   (OrderBook.PriceLevels b) (OrderBook.OrderMap b)
                   (OrderBook.lastMatchTime b)
  | SideSell =>
      OrderBook.mk (OrderBook.Symbol b) (OrderBook.Bids b) (f (OrderBook.Asks b))
                   (OrderBook.PriceLevels b) (OrderBook.OrderMap b)
                   (OrderBook.lastMatchTime b)
  end.

Definition withPriceLevels (f : gmap string lptr -> gmap string lptr)
           (b : OrderBook.t) : OrderBook.t :=
  OrderBook.mk (OrderBook.Symbol b) (OrderBook.Bids b) (OrderBook.Asks b)
               (f (OrderBook.PriceLevels b)) (OrderBook.OrderMap b)
               (OrderBook.lastMatchTime b).

Definition withOrderMap (f : gmap string ptr -> gmap string ptr)
           (b : OrderBook.t) : OrderBook.t :=
  OrderBook.mk (OrderBook.Symbol b) (OrderBook.Bids b) (OrderBook.Asks b)
               (OrderBook.PriceLevels b) (f (OrderBook.OrderMap b))
               (OrderBook.lastMatchTime b).

Definition withLastMatchTime (t : Z) (b : OrderBook.t) : OrderBook.t :=
  OrderBook.mk (OrderBook.Symbol b) (OrderBook.Bids b) (OrderBook.Asks b)
               (OrderBook.PriceLevels b) (OrderBook.OrderMap b) t.

(** *** order.go *)

(** [NewOrderBook]. *)
Definition NewOrderBook (symbol : string) (t : Z) : OrderBook.t :=
  OrderBook.mk symbol btree.New btree.New ∅ ∅ t.

(** [AddOrder], order.go:25-69. *)
Definition AddOrder (order : ptr) (st : State) : option error * State :=
  let o := orders st order in
  match OrderBook.OrderMap (ob st) !! Order.OrderID o with
  | Some _ => (Some (ErrOrderExists (Order.OrderID o)), st)
  | None =>
      let priceStr := FloatString rt (Order.Price o) in
      let '(level, st) :=
        match OrderBook.PriceLevels (ob st) !! priceStr with
        | Some level => (level, st)
        | None =>
            let level := nextLevel st in
            let fresh :=
              PriceLevel.mk (Order.Price o) (NewFloat 0 0) [] ∅ in
            let b :=
              withTree (Order.Side o)
                (fun tree =>
                   btree.ReplaceOrInsert tree
                     (PriceLevelItem.mk (Order.Price o) level))
                (withPriceLevels (insert priceStr level) (ob st)) in
            (level,
             mkState (orders st) (upd (levels st) level fresh)
                     (S (nextLevel st)) (nextElem st) (clock st) (uuids st) b)
        end in
      let l := levels st level in
      let elem := Element.mk (nextElem st) order in
      let l' :=
        PriceLevel.mk (PriceLevel.Price l)
          (Add (PriceLevel.TotalQty l) (PriceLevel.TotalQty l) (Order.Remaining o))
          (PriceLevel.Orders l ++ [elem])
          (<[Order.OrderID o := Element.addr elem]> (PriceLevel.OrderMap l)) in
      (None,
       mkState (orders st) (upd (levels st) level l')
               (nextLevel st) (S (nextElem st)) (clock st) (uuids st)
               (withOrderMap (insert (Order.OrderID o) order) (ob st)))
  end.

(** [l.Remove(e)] of container/list. *)
Definition Remove (l : list Element.t) (e : eptr) : list Element.t :=
  List.filter (fun x => negb (Nat.eqb (Element.addr x) e)) l.

(** [CancelOrder], order.go:72-128. *)
Definition CancelOrder (orderID : string) (st : State) : option error * State :=
  match OrderBook.OrderMap (ob st) !! orderID with
  | None => (Some (ErrOrderNotFound orderID), st)
  | Some order =>
      let o := orders st order in
      if bool_decide (Order.Status o <> StatusPending)
         && bool_decide (Order.Status o <> StatusPartiallyFilled)
      then (Some (ErrCannotCancel orderID (Order.Status o)), st)
      else
        let priceStr := FloatString rt (Order.Price o) in
        match OrderBook.PriceLevels (ob st) !! priceStr with
        | None => (Some (ErrLevelNotFound priceStr), st)
        | Some level =>
            let l := levels st level in
            match PriceLevel.OrderMap l !! orderID with
            | None => (Some (ErrNotInLevel orderID), st)
            | Some elem =>
                let l' :=
                  PriceLevel.mk (PriceLevel.Price l)
                    (Sub (PriceLevel.TotalQty l) (PriceLevel.TotalQty l)
                         (Order.Remaining o))
                    (Remove (PriceLevel.Orders l) elem)
                    (delete orderID (PriceLevel.OrderMap l)) in
                let st := setLevel level l' st in
                let st :=
                  if (length (PriceLevel.Orders l') =? 0)%nat then
                    setBook
                      (withTree (Order.Side o)
                         (fun tree =>
                            btree.Delete tree
                              (PriceLevelItem.mk (Order.Price o) level))
                         (withPriceLevels (delete priceStr) (ob st)))
                      st
                  else st in
                let '(t, st) := now st in
                let st :=
                  setOrder order
                    (Order.setUpdateTime t
                       (Order.setStatus StatusCancelled (orders st order)))
                    st in
                (None, setBook (withOrderMap (delete orderID) (ob st)) st)
            end
        end
  end.

(** *** match.go *)

(** The loop of [processCompletedOrders]: the elements kept, the two id
    maps after the deletions, and the last [restingOrder] seen. *)
Fixpoint reap (h : ptr -> Order.t) (es : list Element.t)
         (levelMap : gmap string eptr) (orderMap : gmap string ptr)
         (restingOrder : option ptr)
  : list Element.t * gmap string eptr * gmap string ptr * option ptr :=
  match es with
  | [] => ([], levelMap, orderMap, restingOrder)
  | orderElem :: nextElem =>
      let r := h (Element.Value orderElem) in
      if bool_decide (Order.Status r = StatusFilled)
         || bool_decide (Order.Status r = StatusCancelled)
      then
        reap h nextElem (delete (Order.OrderID r) levelMap)
             (delete (Order.OrderID r) orderMap)
             (Some (Element.Value orderElem))
      else
        let '(kept, lm, om, last) :=
          reap h nextElem levelMap orderMap (Some (Element.Value orderElem)) in
        (orderElem :: kept, lm, om, last)
  end.

(** [processCompletedOrders], match.go:131-164 (main copy: 125-168, where
    [restingOrder] is declared before the loop and tested for nil). *)
Definition processCompletedOrders (priceLevel : lptr) (st : State) : State :=
  let l := levels st priceLevel in
  let '(kept, lm, om, restingOrder) :=
    reap (orders st) (PriceLevel.Orders l) (PriceLevel.OrderMap l)
         (OrderBook.OrderMap (ob st)) None in
  let st :=
    setBook (withOrderMap (fun _ => om) (ob st))
      (setLevel priceLevel
         (PriceLevel.mk (PriceLevel.Price l) (PriceLevel.TotalQty l) kept lm) st) in
  if (length kept =? 0)%nat then
    let priceStr := FloatString rt (PriceLevel.Price l) in
    let tree :=
      match restingOrder with
      | Some r => Order.Side (orders st r)
      | None => SideSell
      end in
    setBook
      (withTree tree
         (fun tree =>
            btree.Delete tree (PriceLevelItem.mk (PriceLevel.Price l) priceLevel))
         (withPriceLevels (delete priceStr) (ob st)))
      st
  else st.

(** [isMatch], match.go:19-33. *)
Definition isMatch (newOrder : Order.t) (newPrice oppositePrice : Float) : bool :=
  match Order.Side newOrder with
  | SideBuy => Order.IsMarket newOrder || (Cmp newPrice oppositePrice >=? 0)
  | SideSell => Order.IsMarket newOrder || (Cmp newPrice oppositePrice <=? 0)
  end.

(** One emitted trade, with what the loop had read when it emitted it:
    the resting order, its level, and the two remaining quantities
    compared at match.go:62.  Only [fill_trade] leaves [MatchOrder]. *)
Record Fill := mkFill {
  fill_trade : Trade.t;
  fill_level : lptr;
  fill_maker : ptr;
  fill_makerBefore : Float;
  fill_takerBefore : Float
}.

(** One match against a pending resting order, match.go:60-97: the trade,
    then the three subtractions and the status of the resting order. *)
Definition matchOne (priceLevel : lptr) (newOrder restingOrder : ptr)
           (remaining : Float) (st : State) : Fill * Float * State :=
  let r := orders st restingOrder in
  let matchQty :=
    if Cmp remaining (Order.Remaining r) >? 0
    then Copy (Order.Remaining r)
    else Copy remaining in
  let l := levels st priceLevel in
  let n := orders st newOrder in
  let '(id, st) := newUUID st in
  let '(t, st) := now st in
  let trade :=
    Trade.mk id (Order.Symbol n) (PriceLevel.Price l) matchQty
             (Order.OrderID r) (Order.OrderID n)
             (Order.UserID r) (Order.UserID n) t
             (calculateFee matchQty (PriceLevel.Price l)) in
  let rest' := Sub (Order.Remaining r) (Order.Remaining r) matchQty in
  let st :=
    setLevel priceLevel
      (PriceLevel.mk (PriceLevel.Price l)
         (Sub (PriceLevel.TotalQty l) (PriceLevel.TotalQty l) matchQty)
         (PriceLevel.Orders l) (PriceLevel.OrderMap l))
      st in
  let st :=
    setOrder restingOrder
      (Order.setUpdateTime t
         (Order.setStatus
            (if Sign rest' =? 0 then StatusFilled else StatusPartiallyFilled)
            (Order.setRemaining rest' r)))
      st in
  (mkFill trade priceLevel restingOrder (Order.Remaining r) remaining,
   Sub remaining remaining matchQty, st).

(** The new order is filled, match.go:100-103. *)
Definition fillNewOrder (newOrder : ptr) (remaining : Float) (t : Z)
           (st : State) : State :=
  let n := orders st newOrder in
  setOrder newOrder
    (Order.setUpdateTime t
       (Order.setRemaining (FSet (Order.Remaining n) remaining)
          (Order.setStatus StatusFilled n)))
    st.

(** The walk of one level's FIFO, match.go:50-111.  The boolean tells
    whether the new order was filled ([goto matchDone]). *)
Fixpoint walkOrders (priceLevel : lptr) (newOrder : ptr)
         (es : list Element.t) (remaining : Float) (st : State)
         (fills : list Fill) : bool * Float * State * list Fill :=
  match es with
  | [] => (false, remaining, st, fills)
  | orderElem :: nextElem =>
      let restingOrder := Element.Value orderElem in
      if bool_decide (Order.Status (orders st restingOrder) <> StatusPending)
      then walkOrders priceLevel newOrder nextElem remaining st fills
      else
        let '(fill, remaining, st) :=
          matchOne priceLevel newOrder restingOrder remaining st in
        let fills := fills ++ [fill] in
        if Sign remaining =? 0 then
          (true, remaining,
           fillNewOrder newOrder remaining
                        (Trade.TradeTime (fill_trade fill)) st,
           fills)
        else walkOrders priceLevel newOrder nextElem remaining st fills
  end.

(** The body of the level loop, match.go:40-114; [traversePriceLevel] of
    the main copy.  Returns (continue, matchCompleted, ...). *)
Definition traversePriceLevel (item : PriceLevelItem.t) (newOrder : ptr)
           (remaining : Float) (st : State) (fills : list Fill)
  : bool * bool * Float * State * list Fill :=
  let priceLevel := PriceLevelItem.Level item in
  let n := orders st newOrder in
  if negb (isMatch n (Order.Price n) (PriceLevel.Price (levels st priceLevel)))
  then (false, false, remaining, st, fills)
  else
    let '(completed, remaining, st, fills) :=
      walkOrders priceLevel newOrder
                 (PriceLevel.Orders (levels st priceLevel)) remaining st fills in
    (negb completed, completed, remaining, processCompletedOrders priceLevel st, fills).

(** The loop over the opposite tree. *)
Fixpoint matchLevels (items : list PriceLevelItem.t) (newOrder : ptr)
         (remaining : Float) (st : State) (fills : list Fill)
  : bool * Float * State * list Fill :=
  match items with
  | [] => (false, remaining, st, fills)
  | item :: rest =>
      let '(continue, completed, remaining, st, fills) :=
        traversePriceLevel item newOrder remaining st fills in
      if continue then matchLevels rest newOrder remaining st fills
      else (completed, remaining, st, fills)
  end.

(** The two copies of [MatchOrder] differ in how they run through the
    bids: model/match.go:39 goes from [Min()] upwards on either tree,
    main/match.go:35 calls [Descend].  main/match.go:88 leaves the fields
    of the trade out, with a comment that the record is built as before;
    its trades are read here as those of model/match.go:69-80. *)
Inductive copy := ModelCopy | MainCopy.

Definition oppositeLevels (c : copy) (s : side) (b : OrderBook.t)
  : list PriceLevelItem.t :=
  match s, c with
  | SideBuy, _ => btree.Ascend (OrderBook.Asks b)
  | SideSell, ModelCopy => btree.Ascend (OrderBook.Bids b)
  | SideSell, MainCopy => btree.Descend (OrderBook.Bids b)
  end.

(** Everything up to match.go:116: the matching itself. *)
Definition matching (c : copy) (newOrder : ptr) (st : State)
  : bool * Float * State * list Fill :=
  let n := orders st newOrder in
  let remaining := Copy (Order.Remaining n) in
  matchLevels (oppositeLevels c (Order.Side n) (ob st)) newOrder remaining st [].

(** match.go:117-128: the remainder goes to the book. *)
Definition finish (newOrder : ptr) (completed : bool) (remaining : Float)
           (st : State) : State :=
  let st :=
    if negb completed && (Sign remaining >? 0) then
      let n := orders st newOrder in
      let '(t, st) := now st in
      let st :=
        setOrder newOrder
          (Order.setUpdateTime t
             (Order.setStatus StatusPartiallyFilled
                (Order.setRemaining (FSet (Order.Remaining n) remaining) n)))
          st in
      snd (AddOrder newOrder st)
    else st in
  let '(t, st) := now st in
  setBook (withLastMatchTime t (ob st)) st.

Definition MatchOrderFills (c : copy) (newOrder : ptr) (st : State)
  : list Fill * State :=
  let '(completed, remaining, st, fills) := matching c newOrder st in
  (fills, finish newOrder completed remaining st).

(** [MatchOrder], match.go:11-129. *)
Definition MatchOrder (c : copy) (newOrder : ptr) (st : State)
  : list Trade.t * State :=
  let '(fills, st) := MatchOrderFills c newOrder st in
  (map fill_trade fills, st).
End Engine.

(** ** A runtime and a few orders to run the program on *)

(** Decimal digits for a whole number, as [String] prints the whole numbers
    of at most ten digits; mantissa and exponent for the others. *)
Definition decimalString (x : Float) : string :=
  if expo x >=? 0 then pretty (mant x * 2 ^ expo x)
  else if mant x mod 2 ^ (- expo x) =? 0 then pretty (mant x / 2 ^ (- expo x))
  else pretty (mant x) +:+ "p" +:+ pretty (expo x).

Definition rt0 : Runtime :=
  {| FloatString := decimalString;
     UnixNano := fun n => 1000 + Z.of_nat n;
     NewUUID := fun n => "trade-" +:+ pretty n |}.

(** [&Order{...}] as the demos build it: [Remaining] starts as [Quantity],
    times are left at zero. *)
Definition mkOrder (id : string) (s : side) (price qty : Float)
           (status : status) (market : bool) : Order.t :=
  Order.mk id ("user-" +:+ id) "BTC/USDT" s price qty qty status 0 0 market.

Definition noOrder : Order.t :=
  mkOrder "" SideSell (NewFloat 0 0) (NewFloat 0 0) StatusCancelled false.

(** A new book and nothing allocated. *)
Definition emptyState : State :=
  mkState (fun _ => noOrder)
          (fun _ => PriceLevel.mk (NewFloat 0 0) (NewFloat 0 0) [] ∅)
          0%nat 0%nat 0%nat 0%nat (NewOrderBook "BTC/USDT" 0).

(** The caller allocates an order at [p]. *)
Definition alloc (p : ptr) (o : Order.t) (st : State) : State := setOrder p o st.

Definition int (z : Z) : Float := NewFloat z 0.

(** The order at [p] put into the book by [AddOrder], and submitted through
    [MatchOrder], on the runtime above. *)
Definition rest (p : ptr) (o : Order.t) (st : State) : State :=
  snd (AddOrder rt0 p (alloc p o st)).

Definition submit (c : copy) (p : ptr) (o : Order.t) (st : State)
  : list Trade.t * State :=
  MatchOrder rt0 c p (alloc p o st).

Definition limit (id : string) (s : side) (price qty : Float) : Order.t :=
  mkOrder id s price qty StatusPending false.

Definition market (id : string) (s : side) (qty : Float) : Order.t :=
  mkOrder id s (int 0) qty StatusPending true.

(** The float64 numbers 0.1, 0.2 and 0.8. *)
Definition f01 : Float := NewFloat 3602879701896397 (-55).
Definition f02 : Float := NewFloat 3602879701896397 (-54).
Definition f08 : Float := NewFloat 3602879701896397 (-52).

(** A market buy of quantity 1 about to be submitted to the empty book. *)
Definition marketOnEmptyBook : State :=
  alloc 1%nat (market "m1" SideBuy (int 1)) emptyState.

(** Scenario 1 of the specification, sent through [MatchOrder] as the engine
    does: SELL s1 at 100 for 2 has been submitted to the empty book, BUY b1
    at 100 for 2 is about to be. *)
Definition afterSell : State :=
  snd (submit ModelCopy 1%nat (limit "s1" SideSell (int 100) (int 2)) emptyState).

Definition buyAgainstSell : State :=
  alloc 2%nat (limit "b1" SideBuy (int 100) (int 2)) afterSell.

(** Two pending bids, at 101 and at 102, and a SELL at 100 for 2 about to be
    submitted. *)
Definition sellAgainstTwoBids : State :=
  alloc 3%nat (limit "s1" SideSell (int 100) (int 2))
    (rest 2%nat (limit "b2" SideBuy (int 102) (int 1))
       (rest 1%nat (limit "b1" SideBuy (int 101) (int 1)) emptyState)).

(** A sell order s1 at 100 for 2 is put into the book pending; a BUY at 100
    for 1 then trades with it, which leaves s1 partially_filled with 1
    remaining at the head of the ask level; a second BUY b1 at 100 for 1 is
    about to be submitted. *)
Definition afterPartialFill : State :=
  snd (submit ModelCopy 2%nat (limit "b0" SideBuy (int 100) (int 1))
         (rest 1%nat (limit "s1" SideSell (int 100) (int 2)) emptyState)).

Definition buyAgainstPartiallyFilled : State :=
  alloc 3%nat (limit "b1" SideBuy (int 100) (int 1)) afterPartialFill.

(** Scenario 1 of the specification with s1 put into the book pending:
    SELL s1 at 100 for 2 rests, BUY b1 at 100 for 2 is about to be
    submitted. *)
Definition singleLimitHit : State :=
  alloc 2%nat (limit "b1" SideBuy (int 100) (int 2))
    (rest 1%nat (limit "s1" SideSell (int 100) (int 2)) emptyState).

(** A buy order with id a rests at 90 and a sell order s rests at 100 for 1;
    a second buy order with id a, at 100 for 2, is about to be submitted. *)
Definition duplicateBuy : State :=
  alloc 3%nat (limit "a" SideBuy (int 100) (int 2))
    (rest 2%nat (limit "s" SideSell (int 100) (int 1))
       (rest 1%nat (limit "a" SideBuy (int 90) (int 1)) emptyState)).

(** A sell order with id a rests at 100 for 1; a buy order with the same id,
    at 100 for 2, is about to be submitted. *)
Definition duplicateOfMaker : State :=
  alloc 2%nat (limit "a" SideBuy (int 100) (int 2))
    (rest 1%nat (limit "a" SideSell (int 100) (int 1)) emptyState).

(** The quantities of TestMarketOrderMatching2: a sell order of 0.2 rests
    pending at 45000, a market buy of 0.8 is about to be submitted. *)
Definition marketBuyOfEightTenths : State :=
  alloc 2%nat (market "market-buy-001" SideBuy f08)
    (rest 1%nat (limit "sell-001" SideSell (int 45000) f02) emptyState).

(** Scenario 2 of the specification, the makers put into the book pending:
    asks of 1 at 99 and of 2 at 100, a BUY at 100 for 2 about to be
    submitted. *)
Definition priceImprovement : State :=
  alloc 3%nat (limit "b1" SideBuy (int 100) (int 2))
    (rest 2%nat (limit "s2" SideSell (int 100) (int 2))
       (rest 1%nat (limit "s1" SideSell (int 99) (int 1)) emptyState)).

(** A sell order of 0.1 rests pending at 100; a second one, of 0.2 at 100,
    is about to be put into the book. *)
Definition secondAskAtSamePrice : State :=
  alloc 2%nat (limit "s2" SideSell (int 100) f02)
    (rest 1%nat (limit "s1" SideSell (int 100) f01) emptyState).

(** The book of scenario 5 of the specification, the makers put into the
    book pending: asks s1 and s2 of 1 each at 100; a BUY b1 at 100 for 1 has
    been allocated. *)
Definition twoAsksAtSamePrice : State :=
  alloc 3%nat (limit "b1" SideBuy (int 100) (int 1))
    (rest 2%nat (limit "s2" SideSell (int 100) (int 1))
       (rest 1%nat (limit "s1" SideSell (int 100) (int 1)) emptyState)).

(** ** Vocabulary of the properties *)

(** The orders of a level's FIFO, oldest first. *)
Definition fifo (st : State) (lp : lptr) : list ptr :=
  map Element.Value (PriceLevel.Orders (levels st lp)).

(** The order at [p] is in no part of the book. *)
Definition absentFromBook (p : ptr) (st : State) : Prop :=
  OrderBook.OrderMap (ob st) !! Order.OrderID (orders st p) = None
  /\ (forall lp, ~ In p (fifo st lp))
  /\ (forall item,
        In item (OrderBook.Bids (ob st) ++ OrderBook.Asks (ob st)) ->
        ~ In p (fifo st (PriceLevelItem.Level item))).

Definition sumQ (l : list Q) : Q := fold_right Qplus 0%Q l.

(** The quantity traded by a list of trades. *)
Definition tradedQty (ts : list Trade.t) : Q :=
  sumQ (map (fun t => F2Q (Trade.Quantity t)) ts).

(** The sum of the remaining quantities of a level's orders. *)
Definition sumRemaining (st : State) (lp : lptr) : Q :=
  sumQ (map (fun q => F2Q (Order.Remaining (orders st q))) (fifo st lp)).

(** P1 of the specification, for one level. *)
Definition aggregate_ok (st : State) (lp : lptr) : Prop :=
  (F2Q (PriceLevel.TotalQty (levels st lp)) == sumRemaining st lp)%Q.

(** The test of [processCompletedOrders], match.go:143. *)
Definition completed (h : ptr -> Order.t) (e : Element.t) : bool :=
  bool_decide (Order.Status (h (Element.Value e)) = StatusFilled)
  || bool_decide (Order.Status (h (Element.Value e)) = StatusCancelled).

(** What [MatchOrder] never writes in an order. *)
Definition ident (o : Order.t) :=
  (Order.OrderID o, Order.UserID o, Order.Symbol o, Order.Side o,
   Order.Price o, Order.Quantity o, Order.CreateTime o, Order.IsMarket o).

Definition live (s : status) : bool :=
  bool_decide (s = StatusPending) || bool_decide (s = StatusPartiallyFilled).

Definition prices (ts : list Trade.t) : list Float := map Trade.Price ts.

(** What matching may change between two states: an order keeps its
    identity, a level its price, nothing enters the id map or a FIFO, and an
    order still pending has not been touched. *)
Definition frame (st0 st : State) : Prop :=
  (forall q, ident (orders st q) = ident (orders st0 q))
  /\ (forall lp, PriceLevel.Price (levels st lp) = PriceLevel.Price (levels st0 lp))
  /\ (forall k : string,
        OrderBook.OrderMap (ob st0) !! k = None ->
        OrderBook.OrderMap (ob st) !! k = None)
  /\ (forall lp x, In x (fifo st lp) -> In x (fifo st0 lp))
  /\ (forall q, Order.Status (orders st q) = StatusPending ->
                orders st q = orders st0 q).

(** The tree of a side. *)
Definition treeOf (s : side) (b : OrderBook.t) : btree.BTree :=
  match s with
  | SideBuy => OrderBook.Bids b
  | SideSell => OrderBook.Asks b
  end.

(** The order at [p] rests: the id map leads to it, and it is the youngest
    order of the level the price map gives for its price. *)
Definition restsAtTail (rt : Runtime) (p : ptr) (st : State) : Prop :=
  OrderBook.OrderMap (ob st) !! Order.OrderID (orders st p) = Some p
  /\ exists lp older,
      OrderBook.PriceLevels (ob st) !! FloatString rt (Order.Price (orders st p))
      = Some lp
      /\ fifo st lp = older ++ [p].

(** The first sentence of section 4.4.3 on market orders, for the order at
    [p] submitted in [st]. *)
Definition market_residual_discarded (rt : Runtime) (c : copy) (p : ptr)
           (st : State) : Prop :=
  forall done rem st1 fills,
    matching rt c p st = (done, rem, st1, fills) ->
    Order.IsMarket (orders st p) = true ->
    Sign rem > 0 ->
    Order.Status (orders (snd (MatchOrder rt c p st)) p) = StatusPartiallyFilled
    /\ absentFromBook p (snd (MatchOrder rt c p st)).

(** The state [AddOrder] receives at match.go:123. *)
Definition residualState (rt : Runtime) (p : ptr) (rem : Float) (st : State) : State :=
  setOrder p
    (Order.setUpdateTime (UnixNano rt (clock st))
       (Order.setStatus StatusPartiallyFilled
          (Order.setRemaining (FSet (Order.Remaining (orders st p)) rem)
             (orders st p))))
    (snd (now rt st)).

(** The fee of section 4.4.4, in exact arithmetic. *)
Definition fee_exact (t : Trade.t) : Prop :=
  (F2Q (Trade.Fee t) == F2Q (Trade.Quantity t) * F2Q (Trade.Price t) * (1 # 1000))%Q.

(** The fee as [calculateFee] computes it. *)
Definition fee_rounded (t : Trade.t) : Prop :=
  Trade.Fee t
  = Mul (NewFloat 0 0) (Mul (NewFloat 0 0) (Trade.Quantity t) (Trade.Price t)) feeRate.

(** The book of [st'] holds what the book of [st] holds. *)
Definition sameBook (st st' : State) : Prop :=
  levels st' = levels st
  /\ OrderBook.OrderMap (ob st') = OrderBook.OrderMap (ob st)
  /\ OrderBook.PriceLevels (ob st') = OrderBook.PriceLevels (ob st)
  /\ OrderBook.Bids (ob st') = OrderBook.Bids (ob st)
  /\ OrderBook.Asks (ob st') = OrderBook.Asks (ob st).

(** The remainder of an order submitted under an id the id map already has
    is refused by [AddOrder] and left out of the book. *)
Definition duplicate_residual_dropped (rt : Runtime) (c : copy) (p : ptr)
           (st : State) : Prop :=
  forall done rem st1 fills,
    matching rt c p st = (done, rem, st1, fills) ->
    OrderBook.OrderMap (ob st) !! Order.OrderID (orders st p) <> None ->
    Sign rem > 0 ->
    fst (MatchOrder rt c p st) = map fill_trade fills
    /\ fst (AddOrder rt p (residualState rt p rem st1))
       = Some (ErrOrderExists (Order.OrderID (orders st p)))
    /\ sameBook st1 (snd (MatchOrder rt c p st)).

(** The quantity the new order has left after the fills [fs], starting from
    [rem]: match.go:84 for each of them. *)
Definition remainingAfter (rem : Float) (fs : list Fill) : Float :=
  fold_left (fun r f => Sub r r (Trade.Quantity (fill_trade f))) fs rem.

(** Each fill has read, as the remaining quantity of the new order, what the
    fills before it had left. *)
Fixpoint takerTrace (rem : Float) (fs : list Fill) : Prop :=
  match fs with
  | [] => True
  | f :: rest =>
      fill_takerBefore f = rem
      /\ takerTrace (Sub rem rem (Trade.Quantity (fill_trade f))) rest
  end.

(** P4 of the specification for one fill of the order at [p] submitted in
    [st]: the maker is an order resting, pending, in a level of the opposite
    tree; the price is the price of that level; the quantity is positive and
    is the smaller of what maker and taker had left. *)
Definition fill_ok (c : copy) (p : ptr) (st : State) (f : Fill) : Prop :=
  let t := fill_trade f in
  In (fill_level f)
     (map PriceLevelItem.Level (oppositeLevels c (Order.Side (orders st p)) (ob st)))
  /\ In (fill_maker f) (fifo st (fill_level f))
  /\ Order.Status (orders st (fill_maker f)) = StatusPending
  /\ fill_makerBefore f = Order.Remaining (orders st (fill_maker f))
  /\ Trade.MakerOrderID t = Order.OrderID (orders st (fill_maker f))
  /\ Trade.TakerOrderID t = Order.OrderID (orders st p)
  /\ Trade.Price t = PriceLevel.Price (levels st (fill_level f))
  /\ Sign (Trade.Quantity t) = 1
  /\ Cmp (Trade.Quantity t) (fill_makerBefore f) <= 0
  /\ Cmp (Trade.Quantity t) (fill_takerBefore f) <= 0
  /\ (Trade.Quantity t = fill_makerBefore f \/ Trade.Quantity t = fill_takerBefore f).

(** P7 of the specification for the order at [p] submitted in [st]. *)
Definition conserved (rt : Runtime) (c : copy) (p : ptr) (st : State) : Prop :=
  (tradedQty (fst (MatchOrder rt c p st))
   == F2Q (Order.Remaining (orders st p))
      - F2Q (Order.Remaining (orders (snd (MatchOrder rt c p st)) p)))%Q.

(** [AddOrder] keeps P1. *)
Definition AddOrder_keeps_aggregate (rt : Runtime) (p : ptr) (st : State) : Prop :=
  forall lp, aggregate_ok st lp -> aggregate_ok (snd (AddOrder rt p st)) lp.

(** The aggregate [AddOrder] adds to: that of the level the price map has
    for the price, or the zero of a new level. *)
Definition aggregateFor (rt : Runtime) (p : ptr) (st : State) : Float :=
  match OrderBook.PriceLevels (ob st) !! FloatString rt (Order.Price (orders st p)) with
  | Some lv => PriceLevel.TotalQty (levels st lv)
  | None => NewFloat 0 0
  end.

(** Successive elements are related by [R]. *)
Fixpoint chain {A} (R : A -> A -> Prop) (l : list A) : Prop :=
  match l with
  | [] => True
  | x :: rest =>
      match rest with
      | [] => True
      | y :: _ => R x y /\ chain R rest
      end
  end.

Definition nondecreasing (l : list Float) : Prop := chain (fun x y => Cmp x y <= 0) l.
Definition nonincreasing (l : list Float) : Prop := chain (fun x y => Cmp x y >= 0) l.

(** ** engine.go: the loop of [orderProcessor]

    The engine keeps one book per symbol; the book of the order's symbol is
    the [ob] of the state for the time of the call, and goes back under its
    symbol afterwards, as the pointer kept in [me.OrderBooks] shows the
    changes.  The orders arrive in the order they were sent on [OrderChan];
    a batch of trades is sent on [TradeChan] only if it is not empty. *)
Record Engine := mkEngine {
  store : State;
  OrderBooks : gmap string OrderBook.t
}.

(** The body of the loop, engine.go:61-77. *)
Definition processOrder (rt : Runtime) (order : ptr) (me : Engine)
  : option (list Trade.t) * Engine :=
  let st := store me in
  let symbol := Order.Symbol (orders st order) in
  let '(orderBook, st) :=
    match OrderBooks me !! symbol with
    | Some orderBook => (orderBook, st)
    | None => let '(t, st) := now rt st in (NewOrderBook symbol t, st)
    end in
  let '(trades, st) := MatchOrder rt ModelCopy order (setBook orderBook st) in
  (if (0 <? length trades)%nat then Some trades else None,
   mkEngine st (<[symbol := ob st]> (OrderBooks me))).

(** The loop on the orders received, with the batches it sends. *)
Fixpoint orderProcessor (rt : Runtime) (received : list ptr) (me : Engine)
  : list (list Trade.t) * Engine :=
  match received with
  | [] => ([], me)
  | order :: rest =>
      let '(sent, me) := processOrder rt order me in
      let '(batches, me) := orderProcessor rt rest me in
      (match sent with Some trades => trades :: batches | None => batches end, me)
  end.

(** No order resting in a FIFO is pending. *)
Definition noPendingResting (st : State) : Prop :=
  forall lp x, In x (fifo st lp) -> Order.Status (orders st x) <> StatusPending.

(** [NewMatchingEngine], engine.go:10-22, over a store of orders. *)
Definition NewMatchingEngine (st : State) : Engine := mkEngine st ∅.

(** The three orders of TestLimitOrderMatching1: buy-001 at 45000 for 1,
    sell-001 at 44900 for 0.5 and sell-002 at 45000 for 0.6, and a new
    engine. *)
Definition testLimitOrderMatching1 : Engine :=
  NewMatchingEngine
    (alloc 3%nat (mkOrder "sell-002" SideSell (int 45000)
                          (NewFloat 5404319552844595 (-53)) StatusPending false)
       (alloc 2%nat (mkOrder "sell-001" SideSell (int 44900)
                             (NewFloat 1 (-1)) StatusPending false)
          (alloc 1%nat (mkOrder "buy-001" SideBuy (int 45000) (int 1)
                                StatusPending false)
             emptyState))).

(** The status of an order agrees with what it has left: filled with nothing
    left, partially_filled with something left. *)
Definition settled (st : State) (q : ptr) : Prop :=
  (Order.Status (orders st q) = StatusFilled
   /\ Sign (Order.Remaining (orders st q)) = 0)
  \/ (Order.Status (orders st q) = StatusPartiallyFilled
      /\ Sign (Order.Remaining (orders st q)) <> 0).

(** Price-time priority of a list of fills against the levels [items], in
    the order the tree hands them over: the fills come in one run per level,
    the runs in the order of the levels, and the makers of a run in the
    order they have in the FIFO of its level. *)
Fixpoint priceTime (st : State) (items : list PriceLevelItem.t) (fs : list Fill)
  : Prop :=
  match items with
  | [] => fs = []
  | item :: rest =>
      exists here later,
        fs = here ++ later
        /\ Forall (fun f => fill_level f = PriceLevelItem.Level item) here
        /\ sublist (map fill_maker here) (fifo st (PriceLevelItem.Level item))
        /\ priceTime st rest later
  end.

(** Every FIFO of [s] is what is left of the FIFO it was in [st]. *)
Definition shrunk (st s : State) : Prop :=
  forall lp, sublist (fifo s lp) (fifo st lp).

(** The price of the level an item of a tree leads to. *)
Definition levelPrice (st : State) (item : PriceLevelItem.t) : Float :=
  PriceLevel.Price (levels st (PriceLevelItem.Level item)).

(** A tree as [btree] keeps it: ascending by [Less], each item carrying the
    price of its level. *)
Definition treeInOrder (st : State) (tree : btree.BTree) : Prop :=
  StronglySorted (fun a b => PriceLevelItem.Less a b = true) tree
  /\ forall item, In item tree -> levelPrice st item = PriceLevelItem.Price item.

(** Two pending bids, at 99 and at 101, and a SELL at 100 for 1 about to be
    submitted. *)
Definition sellBetweenTwoBids : State :=
  alloc 3%nat (limit "s1" SideSell (int 100) (int 1))
    (rest 2%nat (limit "b2" SideBuy (int 101) (int 1))
       (rest 1%nat (limit "b1" SideBuy (int 99) (int 1)) emptyState)).

(** A sell order s1 rests pending at 100 for 2; a BUY at 100 of quantity
    zero is about to be submitted. *)
Definition zeroQuantityBuy : State :=
  alloc 2%nat (limit "b0" SideBuy (int 100) (int 0))
    (rest 1%nat (limit "s1" SideSell (int 100) (int 2)) emptyState).

(** ** The demo of the tree, package main of the README

    Its [PriceLevelItem] carries a flag [IsBid], and [Less] turns the order
    round for the items that have it set. *)
Module Demo.
Record PriceLevelItem := mk { Price : Float; Level : lptr; IsBid : bool }.

Definition Less (p other : PriceLevelItem) : bool :=
  if IsBid p then Cmp (Price p) (Price other) >? 0
  else Cmp (Price p) (Price other) <? 0.

(** Two of the items [main] puts into [bidsTree]: the one at 10150 is built
    with [IsBid: true], the one at 9950 without the field. *)
Definition itemBid9950 : PriceLevelItem := mk (NewFloat 9950 0) 3%nat false.
Definition itemBid10150 : PriceLevelItem := mk (NewFloat 10150 0) 5%nat true.
End Demo.

(** Two pending bids, at 99 and at 101, and a third one at 100 about to be
    put into the book. *)
Definition bidBetweenTwoBids : State :=
  alloc 3%nat (limit "b3" SideBuy (int 100) (int 1))
    (rest 2%nat (limit "b2" SideBuy (int 101) (int 1))
       (rest 1%nat (limit "b1" SideBuy (int 99) (int 1)) emptyState)).

(** No item of the tree has the price, as [Cmp] sees it. *)
Definition noLevelAt (price : Float) (tree : btree.BTree) : Prop :=
  Forall (fun x => Cmp price (PriceLevelItem.Price x) <> 0) tree.

(** The maker of a fill, if it is filled, is no longer in the FIFO of the
    level it traded in. *)
Definition sweptOut (s : State) (f : Fill) : Prop :=
  Order.Status (orders s (fill_maker f)) = StatusFilled ->
  ~ In (fill_maker f) (fifo s (fill_level f)).

(** The prices of the levels the fills were made in, fill by fill. *)
Definition levelPrices (st : State) (fs : list Fill) : list Float :=
  map (fun f => PriceLevel.Price (levels st (fill_level f))) fs.

(** The test of match.go:19-33 for a limit order. *)
Definition withinLimit (o : Order.t) (price : Float) : Prop :=
  match Order.Side o with
  | SideBuy => Cmp (Order.Price o) price >= 0
  | SideSell => Cmp (Order.Price o) price <= 0
  end.

(** [z.Add(x, y)] and [z.Sub(x, y)] that are not rounded: the number kept
    is the sum, the difference. *)
Definition exactAdd (z x y : Float) : Prop := (F2Q (Add z x y) == F2Q x + F2Q y)%Q.
Definition exactSub (z x y : Float) : Prop := (F2Q (Sub z x y) == F2Q x - F2Q y)%Q.

(** A number that [Set] at its own precision leaves as it is, as every
    [big.Float] is: the record of this file does not tie the mantissa to the
    precision. *)
Definition representable (x : Float) : Prop := (F2Q (FSet x x) == F2Q x)%Q.

(** No [remaining.Sub(remaining, matchQty)] of these fills was rounded
    (match.go:84). *)
Definition unrounded (fs : list Fill) : Prop :=
  Forall (fun f => exactSub (fill_takerBefore f) (fill_takerBefore f)
                            (Trade.Quantity (fill_trade f))) fs.

(** Scenario 5 of the specification, the makers put into the book pending:
    asks s1 and s2 of 1 each at 100, a BUY b1 at 100 for 1.5 about to be
    submitted. *)
Definition buyOneAndAHalf : State :=
  alloc 3%nat (limit "b1" SideBuy (int 100) (NewFloat 3 (-1)))
    (rest 2%nat (limit "s2" SideSell (int 100) (int 1))
       (rest 1%nat (limit "s1" SideSell (int 100) (int 1)) emptyState)).

(** An ask of 0.5 and an ask of 0.25 rest pending at 100; a third ask, of
    0.25 at 100, has been allocated. *)
Definition fractionalAsks : State :=
  alloc 3%nat (limit "s3" SideSell (int 100) (NewFloat 1 (-2)))
    (rest 2%nat (limit "s2" SideSell (int 100) (NewFloat 1 (-2)))
       (rest 1%nat (limit "s1" SideSell (int 100) (NewFloat 1 (-1))) emptyState)).

(** The quantity of one match, match.go:61-66. *)
Definition matchQty (remaining resting : Float) : Float :=
  if Cmp remaining resting >? 0 then resting else remaining.

(** A buy order a rests at 100 for 3 and a sell order s at 99 for 1, both
    put into the book pending; the resting object a itself is about to be
    submitted again. *)
Definition restingBuyAndSell : State :=
  rest 2%nat (limit "s" SideSell (int 99) (int 1))
    (rest 1%nat (limit "a" SideBuy (int 100) (int 3)) emptyState).

(** A SELL s1 and then a BUY b1, both at 100 for 1, have been submitted to
    the empty book through [MatchOrder]: s1 rests partially_filled, b1 does
    not trade with it and comes to rest in the level the price map has for
    100, the one of s1. *)
Definition crossedLevel (c : copy) : State :=
  snd (submit c 2%nat (limit "b1" SideBuy (int 100) (int 1))
         (snd (submit c 1%nat (limit "s1" SideSell (int 100) (int 1)) emptyState))).

(** A sell order s1 of quantity zero rests pending at 100; a BUY at 100 for
    1 is about to be submitted. *)
Definition buyAgainstEmptyAsk : State :=
  alloc 2%nat (limit "b1" SideBuy (int 100) (int 1))
    (rest 1%nat (limit "s1" SideSell (int 100) (int 0)) emptyState).

(** * Properties *)

(** ** Rounding *)

Lemma bitlen_nonneg (m : Z) : 0 <= bitlen m.
Proof.
  unfold bitlen. destruct (Z.abs m =? 0); [lia|].
  pose proof (Z.log2_nonneg (Z.abs m)). lia.
Qed.

Lemma bitlen_lt_pow2 (m p : Z) : 0 < p -> Z.abs m < 2 ^ p -> bitlen m <= p.
Proof.
  intros Hp Hm. unfold bitlen.
  destruct (Z.abs m =? 0) eqn:E; [lia|].
  apply Z.eqb_neq in E.
  assert (Z.log2 (Z.abs m) < p); [|lia].
  apply Z.log2_lt_pow2; lia.
Qed.

Lemma round_small (p : positive) (m e : Z) :
  bitlen m <= Z.pos p -> round p (m, e) = mkFloat p m e.
Proof.
  intros H. unfold round.
  destruct (bitlen m <=? Z.pos p) eqn:E; [reflexivity|].
  apply Z.leb_gt in E. lia.
Qed.

Lemma prec_round (p : positive) (x : dyadic) : prec (round p x) = p.
Proof.
  destruct x as [m e]. unfold round.
  destruct (bitlen m <=? Z.pos p); reflexivity.
Qed.

(** Rounding a positive number never gives zero or less. *)
Lemma round_pos (p : positive) (m e : Z) : 0 < m -> 0 < mant (round p (m, e)).
Proof.
  intros Hm. unfold round.
  destruct (bitlen m <=? Z.pos p) eqn:E; [exact Hm|].
  apply Z.leb_gt in E. cbn [mant].
  unfold bitlen in *.
  rewrite Z.abs_eq in * by lia.
  destruct (m =? 0) eqn:E0; [apply Z.eqb_eq in E0; lia|].
  set (s := Z.log2 m + 1 - Z.pos p) in *.
  assert (Hs : 0 <= s <= Z.log2 m) by (unfold s; lia).
  assert (Hq : 1 <= Z.shiftr m s).
  { rewrite Z.shiftr_div_pow2 by lia.
    apply Z.div_le_lower_bound; [apply Z.pow_pos_nonneg; lia|].
    rewrite Z.mul_1_r.
    transitivity (2 ^ Z.log2 m).
    - apply Z.pow_le_mono_r; lia.
    - apply Z.log2_spec; lia. }
  rewrite Z.sgn_pos by lia.
  destruct (if 2 * (m mod 2 ^ s) <? 2 ^ s then false
            else if 2 * (m mod 2 ^ s) =? 2 ^ s then Z.odd (Z.shiftr m s) else true);
    lia.
Qed.

Lemma Cmp_gt_dsub (x y : Float) :
  Cmp x y > 0 -> 0 < fst (dsub (exact x) (exact y)).
Proof.
  unfold Cmp, dsub, exact. cbn [fst snd].
  generalize (mant x * 2 ^ (expo x - Z.min (expo x) (expo y))).
  generalize (mant y * 2 ^ (expo y - Z.min (expo x) (expo y))).
  intros b a. destruct (Z.compare_spec a b); lia.
Qed.

Lemma Sub_pos (z x y : Float) : Cmp x y > 0 -> Sign (Sub z x y) = 1.
Proof.
  intros H. apply Cmp_gt_dsub in H.
  unfold Sign, Sub.
  destruct (dsub (exact x) (exact y)) as [m e] eqn:E. cbn [fst] in H.
  apply Z.sgn_pos, round_pos, H.
Qed.

Lemma Sub_self (z x : Float) : Sign (Sub z x x) = 0.
Proof.
  unfold Sign, Sub, dsub, exact. cbn [fst snd].
  rewrite Z.sub_diag. rewrite round_small by (change (bitlen 0) with 0; lia).
  reflexivity.
Qed.

Lemma Cmp_refl (x : Float) : Cmp x x = 0.
Proof. unfold Cmp. rewrite Z.compare_refl. reflexivity. Qed.

Lemma Cmp_range (x y : Float) : Cmp x y = -1 \/ Cmp x y = 0 \/ Cmp x y = 1.
Proof. unfold Cmp. destruct (_ ?= _); auto. Qed.

(** [Cmp] against the sign, for a positive right-hand side. *)
Lemma Cmp_gt_pos (x y : Float) : Cmp x y > 0 -> Sign y = 1 -> Sign x = 1.
Proof.
  unfold Cmp, Sign. intros H Hy.
  set (e := Z.min (expo x) (expo y)) in *.
  assert (0 < 2 ^ (expo x - e)) by (apply Z.pow_pos_nonneg; lia).
  assert (0 < 2 ^ (expo y - e)) by (apply Z.pow_pos_nonneg; lia).
  assert (0 < mant y) by (destruct (mant y); cbn in Hy; lia).
  destruct (Z.compare_spec (mant x * 2 ^ (expo x - e)) (mant y * 2 ^ (expo y - e)));
    lia.
Qed.

(** ** The stores *)

Lemma upd_eq {A} (h : nat -> A) (p : nat) (a : A) : upd h p a p = a.
Proof. unfold upd. rewrite Nat.eqb_refl. reflexivity. Qed.

Lemma upd_neq {A} (h : nat -> A) (p q : nat) (a : A) : q <> p -> upd h p a q = h q.
Proof. intros H. unfold upd. apply Nat.eqb_neq in H. rewrite H. reflexivity. Qed.

Lemma upd_cases {A} (h : nat -> A) (p q : nat) (a : A) :
  (q = p /\ upd h p a q = a) \/ (q <> p /\ upd h p a q = h q).
Proof.
  destruct (Nat.eq_dec q p) as [->|H].
  - left. split; [reflexivity|apply upd_eq].
  - right. split; [assumption|apply upd_neq; assumption].
Qed.

(** ** One match *)

Section MatchOne.
Variable rt : Runtime.
Variables (lv : lptr) (p r : ptr) (rem : Float) (st : State).

Let q : Float :=
  if Cmp rem (Order.Remaining (orders st r)) >? 0
  then Order.Remaining (orders st r) else rem.

Lemma matchOne_remaining : snd (fst (matchOne rt lv p r rem st)) = Sub rem rem q.
Proof. reflexivity. Qed.

Lemma matchOne_fill :
  fst (fst (matchOne rt lv p r rem st))
  = mkFill
      (Trade.mk (NewUUID rt (uuids st)) (Order.Symbol (orders st p))
         (PriceLevel.Price (levels st lv)) q
         (Order.OrderID (orders st r)) (Order.OrderID (orders st p))
         (Order.UserID (orders st r)) (Order.UserID (orders st p))
         (UnixNano rt (clock st))
         (calculateFee q (PriceLevel.Price (levels st lv))))
      lv r (Order.Remaining (orders st r)) rem.
Proof. reflexivity. Qed.

Lemma matchOne_ob : ob (snd (matchOne rt lv p r rem st)) = ob st.
Proof. reflexivity. Qed.

Lemma matchOne_orders :
  orders (snd (matchOne rt lv p r rem st))
  = upd (orders st) r
      (Order.setUpdateTime (UnixNano rt (clock st))
         (Order.setStatus
            (if Sign (Sub (Order.Remaining (orders st r))
                          (Order.Remaining (orders st r)) q) =? 0
             then StatusFilled else StatusPartiallyFilled)
            (Order.setRemaining
               (Sub (Order.Remaining (orders st r))
                    (Order.Remaining (orders st r)) q)
               (orders st r)))).
Proof. reflexivity. Qed.

Lemma matchOne_levels :
  levels (snd (matchOne rt lv p r rem st))
  = upd (levels st) lv
      (PriceLevel.mk (PriceLevel.Price (levels st lv))
         (Sub (PriceLevel.TotalQty (levels st lv))
              (PriceLevel.TotalQty (levels st lv)) q)
         (PriceLevel.Orders (levels st lv))
         (PriceLevel.OrderMap (levels st lv))).
Proof. reflexivity. Qed.

Lemma matchOne_fifo (lp : lptr) :
  fifo (snd (matchOne rt lv p r rem st)) lp = fifo st lp.
Proof.
  unfold fifo. rewrite matchOne_levels.
  destruct (upd_cases (levels st) lv lp
              (PriceLevel.mk (PriceLevel.Price (levels st lv))
                 (Sub (PriceLevel.TotalQty (levels st lv))
                      (PriceLevel.TotalQty (levels st lv)) q)
                 (PriceLevel.Orders (levels st lv))
                 (PriceLevel.OrderMap (levels st lv))))
    as [[-> ->]|[_ ->]]; reflexivity.
Qed.
End MatchOne.

(** ** Reaping *)

Lemma reap_kept h es lm om last :
  fst (fst (fst (reap h es lm om last))) = List.filter (fun e => negb (completed h e)) es.
Proof.
  revert lm om last. induction es as [|e es IH]; intros lm om last; [reflexivity|].
  cbn [reap List.filter]. fold (completed h e).
  destruct (completed h e); cbn [negb].
  - apply IH.
  - specialize (IH lm om (Some (Element.Value e))).
    destruct (reap h es lm om (Some (Element.Value e))) as [[[kept lm'] om'] last'].
    cbn [fst] in *. rewrite IH. reflexivity.
Qed.

Lemma reap_orderMap_none h es lm om last (k : string) :
  om !! k = None -> snd (fst (reap h es lm om last)) !! k = None.
Proof.
  revert lm om last. induction es as [|e es IH]; intros lm om last Hk; [exact Hk|].
  cbn [reap]. fold (completed h e).
  destruct (completed h e).
  - apply IH. rewrite lookup_delete_None. auto.
  - specialize (IH lm om (Some (Element.Value e)) Hk).
    destruct (reap h es lm om (Some (Element.Value e))) as [[[kept lm'] om'] last'].
    exact IH.
Qed.

(** Reaping takes an id out of the id map only if an order of the level
    carries it. *)
Lemma reap_orderMap_keep h es lm om last (k : string) :
  (forall e, In e es -> Order.OrderID (h (Element.Value e)) <> k) ->
  snd (fst (reap h es lm om last)) !! k = om !! k.
Proof.
  revert lm om last. induction es as [|e es IH]; intros lm om last Hk; [reflexivity|].
  cbn [reap]. fold (completed h e).
  assert (Hes : forall e', In e' es -> Order.OrderID (h (Element.Value e')) <> k)
    by (intros e' He'; apply Hk; right; exact He').
  destruct (completed h e).
  - rewrite IH by exact Hes. apply lookup_delete_ne. apply Hk. left. reflexivity.
  - specialize (IH lm om (Some (Element.Value e)) Hes).
    destruct (reap h es lm om (Some (Element.Value e))) as [[[kept lm'] om'] last'].
    exact IH.
Qed.

Section Reap.
Variable rt : Runtime.
Variables (lv : lptr) (st : State).

Lemma processCompletedOrders_orders :
  orders (processCompletedOrders rt lv st) = orders st.
Proof.
  unfold processCompletedOrders.
  destruct (reap _ _ _ _ _) as [[[kept lm] om] last].
  destruct (length kept =? 0)%nat; reflexivity.
Qed.

Lemma processCompletedOrders_levels :
  levels (processCompletedOrders rt lv st)
  = upd (levels st) lv
      (PriceLevel.mk (PriceLevel.Price (levels st lv))
         (PriceLevel.TotalQty (levels st lv))
         (List.filter (fun e => negb (completed (orders st) e))
                 (PriceLevel.Orders (levels st lv)))
         (snd (fst (fst (reap (orders st) (PriceLevel.Orders (levels st lv))
                              (PriceLevel.OrderMap (levels st lv))
                              (OrderBook.OrderMap (ob st)) None))))).
Proof.
  unfold processCompletedOrders.
  rewrite <- reap_kept
    with (lm := PriceLevel.OrderMap (levels st lv))
         (om := OrderBook.OrderMap (ob st)) (last := None).
  destruct (reap _ _ _ _ _) as [[[kept lm] om] last].
  destruct (length kept =? 0)%nat; reflexivity.
Qed.

Lemma processCompletedOrders_orderMap :
  OrderBook.OrderMap (ob (processCompletedOrders rt lv st))
  = snd (fst (reap (orders st) (PriceLevel.Orders (levels st lv))
                   (PriceLevel.OrderMap (levels st lv))
                   (OrderBook.OrderMap (ob st)) None)).
Proof.
  unfold processCompletedOrders.
  destruct (reap _ _ _ _ _) as [[[kept lm] om] last].
  destruct (length kept =? 0)%nat; [|reflexivity].
  destruct last as [x|]; [destruct (Order.Side _)|]; reflexivity.
Qed.

Lemma processCompletedOrders_price (lp : lptr) :
  PriceLevel.Price (levels (processCompletedOrders rt lv st) lp)
  = PriceLevel.Price (levels st lp).
Proof.
  rewrite processCompletedOrders_levels.
  destruct (upd_cases (levels st) lv lp
    (PriceLevel.mk (PriceLevel.Price (levels st lv))
         (PriceLevel.TotalQty (levels st lv))
         (List.filter (fun e => negb (completed (orders st) e))
                 (PriceLevel.Orders (levels st lv)))
         (snd (fst (fst (reap (orders st) (PriceLevel.Orders (levels st lv))
                              (PriceLevel.OrderMap (levels st lv))
                              (OrderBook.OrderMap (ob st)) None))))))
    as [[-> ->]|[_ ->]]; reflexivity.
Qed.

Lemma processCompletedOrders_fifo (lp : lptr) (x : ptr) :
  In x (fifo (processCompletedOrders rt lv st) lp) -> In x (fifo st lp).
Proof.
  unfold fifo. rewrite processCompletedOrders_levels.
  destruct (upd_cases (levels st) lv lp
    (PriceLevel.mk (PriceLevel.Price (levels st lv))
         (PriceLevel.TotalQty (levels st lv))
         (List.filter (fun e => negb (completed (orders st) e))
                 (PriceLevel.Orders (levels st lv)))
         (snd (fst (fst (reap (orders st) (PriceLevel.Orders (levels st lv))
                              (PriceLevel.OrderMap (levels st lv))
                              (OrderBook.OrderMap (ob st)) None))))))
    as [[-> ->]|[_ ->]]; [|auto].
  cbn [PriceLevel.Orders]. rewrite !in_map_iff.
  intros (e & He & Hin). exists e. split; [exact He|].
  apply filter_In in Hin. tauto.
Qed.
End Reap.

(** ** An invariant rule for the matching loop

    [I] holds while the new order still has quantity to match, [J] once it
    has been filled. *)

Section Rule.
Variable rt : Runtime.
Variable p : ptr.
Variable V : lptr -> Prop.
Variables I J : list Fill -> Float -> State -> Prop.

Hypothesis Hstep :
  forall lv r rem st fills f rem' st',
    V lv ->
    I fills rem st ->
    In r (fifo st lv) ->
    Order.Status (orders st r) = StatusPending ->
    matchOne rt lv p r rem st = (f, rem', st') ->
    if Sign rem' =? 0
    then J (fills ++ [f]) rem'
           (fillNewOrder p rem' (Trade.TradeTime (fill_trade f)) st')
    else I (fills ++ [f]) rem' st'.

Hypothesis HreapI :
  forall lv fills rem st,
    V lv -> I fills rem st -> I fills rem (processCompletedOrders rt lv st).

Hypothesis HreapJ :
  forall lv fills rem st,
    V lv -> J fills rem st -> J fills rem (processCompletedOrders rt lv st).

Lemma walkOrders_rule lv es :
  V lv ->
  forall rem st fills c rem' st' fills',
    I fills rem st ->
    (forall e, In e es -> In (Element.Value e) (fifo st lv)) ->
    walkOrders rt lv p es rem st fills = (c, rem', st', fills') ->
    if c then J fills' rem' st' else I fills' rem' st'.
Proof.
  intros HV.
  induction es as [|e es IH]; intros rem st fills c rem' st' fills' HI Hes Hw.
  - cbn in Hw. inversion Hw; subst. exact HI.
  - cbn [walkOrders] in Hw.
    destruct (bool_decide _) eqn:Hs in Hw.
    + eapply IH; [exact HI| |exact Hw]. intros e' He'. apply Hes. right. exact He'.
    + apply bool_decide_eq_false in Hs.
      destruct (decide (Order.Status (orders st (Element.Value e)) = StatusPending))
        as [Hp|Hn]; [|exfalso; exact (Hs Hn)].
      destruct (matchOne rt lv p (Element.Value e) rem st) as [[f rem1] st1] eqn:E.
      pose proof (Hstep lv (Element.Value e) rem st fills f rem1 st1 HV HI
                        (Hes e (or_introl eq_refl)) Hp E) as H1.
      destruct (Sign rem1 =? 0).
      * inversion Hw; subst. exact H1.
      * eapply IH; [exact H1| |exact Hw].
        intros e' He'.
        replace st1 with (snd (matchOne rt lv p (Element.Value e) rem st))
          by (rewrite E; reflexivity).
        rewrite matchOne_fifo. apply Hes. right. exact He'.
Qed.

Lemma traversePriceLevel_rule item :
  V (PriceLevelItem.Level item) ->
  forall rem st fills cont c rem' st' fills',
    I fills rem st ->
    traversePriceLevel rt item p rem st fills = (cont, c, rem', st', fills') ->
    if c then J fills' rem' st' else I fills' rem' st'.
Proof.
  intros HV rem st fills cont c rem' st' fills' HI Ht.
  unfold traversePriceLevel in Ht.
  destruct (negb (isMatch _ _ _)).
  - inversion Ht; subst. exact HI.
  - destruct (walkOrders _ _ _ _ _ _ _) as [[[c1 rem1] st1] fills1] eqn:Hw.
    inversion Ht; subst.
    pose proof (walkOrders_rule _ _ HV _ _ _ _ _ _ _ HI
                  (fun e He => in_map _ _ _ He) Hw) as H1.
    destruct c; [apply HreapJ|apply HreapI]; assumption.
Qed.

Lemma traversePriceLevel_continue item rem st fills cont c rem' st' fills' :
  traversePriceLevel rt item p rem st fills = (cont, c, rem', st', fills') ->
  cont = true -> c = false.
Proof.
  unfold traversePriceLevel.
  destruct (negb (isMatch _ _ _)).
  - intros Ht. inversion Ht; subst. discriminate.
  - destruct (walkOrders _ _ _ _ _ _ _) as [[[c1 rem1] st1] fills1].
    intros Ht. inversion Ht; subst. destruct c; [discriminate|reflexivity].
Qed.

Lemma matchLevels_rule items :
  (forall item, In item items -> V (PriceLevelItem.Level item)) ->
  forall rem st fills c rem' st' fills',
    I fills rem st ->
    matchLevels rt items p rem st fills = (c, rem', st', fills') ->
    if c then J fills' rem' st' else I fills' rem' st'.
Proof.
  induction items as [|item items IH];
    intros HV rem st fills c rem' st' fills' HI Hm.
  - cbn in Hm. inversion Hm; subst. exact HI.
  - cbn [matchLevels] in Hm.
    destruct (traversePriceLevel rt item p rem st fills)
      as [[[[cont c1] rem1] st1] fills1] eqn:Ht.
    pose proof (traversePriceLevel_rule _ (HV item (or_introl eq_refl))
                  _ _ _ _ _ _ _ _ HI Ht) as H1.
    destruct cont.
    + pose proof (traversePriceLevel_continue _ _ _ _ _ _ _ _ _ Ht eq_refl); subst c1.
      eapply IH; [|exact H1|exact Hm].
      intros item' Hin. apply HV. right. exact Hin.
    + inversion Hm; subst. exact H1.
Qed.

Lemma matching_rule c :
  forall st done rem' st' fills',
    (forall item,
        In item (oppositeLevels c (Order.Side (orders st p)) (ob st)) ->
        V (PriceLevelItem.Level item)) ->
    I [] (Order.Remaining (orders st p)) st ->
    matching rt c p st = (done, rem', st', fills') ->
    if done then J fills' rem' st' else I fills' rem' st'.
Proof.
  intros st done rem' st' fills' HV HI Hm.
  unfold matching in Hm. eapply matchLevels_rule; [exact HV|exact HI|exact Hm].
Qed.
End Rule.

(** ** What matching leaves alone *)

Lemma frame_refl st : frame st st.
Proof. repeat split; auto. Qed.

Lemma frame_trans st0 st1 st2 : frame st0 st1 -> frame st1 st2 -> frame st0 st2.
Proof.
  intros (A1 & B1 & C1 & D1 & E1) (A2 & B2 & C2 & D2 & E2).
  repeat split.
  - intros q. rewrite A2. apply A1.
  - intros lp. rewrite B2. apply B1.
  - intros k Hk. apply C2, C1, Hk.
  - intros lp x Hx. apply D1, D2, Hx.
  - intros q Hq. pose proof (E2 q Hq) as H2. rewrite H2 in Hq |- *. apply E1, Hq.
Qed.

Lemma matchOne_frame rt lv p r rem st : frame st (snd (matchOne rt lv p r rem st)).
Proof.
  repeat split.
  - intros q. rewrite matchOne_orders.
    match goal with |- ident (upd _ _ ?o _) = _ =>
      destruct (upd_cases (orders st) r q o) as [[-> ->]|[_ ->]] end; reflexivity.
  - intros lp. rewrite matchOne_levels.
    match goal with |- PriceLevel.Price (upd _ _ ?l _) = _ =>
      destruct (upd_cases (levels st) lv lp l) as [[-> ->]|[_ ->]] end; reflexivity.
  - intros k Hk. rewrite matchOne_ob. exact Hk.
  - intros lp x. rewrite matchOne_fifo. auto.
  - intros q. rewrite matchOne_orders.
    match goal with |- Order.Status (upd _ _ ?o _) = _ -> _ =>
      destruct (upd_cases (orders st) r q o) as [[-> ->]|[_ ->]] end; [|auto].
    cbn. destruct (Sign _ =? 0); discriminate.
Qed.

Lemma fillNewOrder_frame p rem t st : frame st (fillNewOrder p rem t st).
Proof.
  unfold fillNewOrder, setOrder.
  repeat split; cbn [orders levels ob]; auto.
  - intros q.
    match goal with |- ident (upd _ _ ?o _) = _ =>
      destruct (upd_cases (orders st) p q o) as [[-> ->]|[_ ->]] end; reflexivity.
  - intros q.
    match goal with |- Order.Status (upd _ _ ?o _) = _ -> _ =>
      destruct (upd_cases (orders st) p q o) as [[-> ->]|[_ ->]] end; [|auto].
    cbn. discriminate.
Qed.

Lemma fillNewOrder_status p rem t st :
  Order.Status (orders (fillNewOrder p rem t st) p) = StatusFilled.
Proof. unfold fillNewOrder, setOrder. cbn [orders]. rewrite upd_eq. reflexivity. Qed.

Lemma processCompletedOrders_frame rt lv st :
  frame st (processCompletedOrders rt lv st).
Proof.
  repeat split.
  - intros q. rewrite processCompletedOrders_orders. reflexivity.
  - apply processCompletedOrders_price.
  - intros k Hk. rewrite processCompletedOrders_orderMap.
    apply reap_orderMap_none, Hk.
  - apply processCompletedOrders_fifo.
  - intros q _. rewrite processCompletedOrders_orders. reflexivity.
Qed.

Lemma matching_frame rt c p st done rem st1 fills :
  matching rt c p st = (done, rem, st1, fills) ->
  frame st st1
  /\ (done = true -> Order.Status (orders st1 p) = StatusFilled /\ Sign rem = 0).
Proof.
  intros Hm.
  assert (R : if done
              then frame st st1 /\ Order.Status (orders st1 p) = StatusFilled
                   /\ Sign rem = 0
              else frame st st1).
  { apply (matching_rule rt p (fun _ => True)
             (fun _ _ s => frame st s)
             (fun _ rem s =>
                frame st s /\ Order.Status (orders s p) = StatusFilled
                /\ Sign rem = 0) ) with (c := c) (st := st) (fills' := fills).
    - intros lv r rem0 s fills0 f rem' s' _ HI _ _ E.
      assert (Hs : s' = snd (matchOne rt lv p r rem0 s)) by (rewrite E; reflexivity).
      clear E. subst s'.
      destruct (Sign rem' =? 0) eqn:Hz.
      + split; [|split].
        * eapply frame_trans; [exact HI|].
          eapply frame_trans; [apply matchOne_frame|apply fillNewOrder_frame].
        * apply fillNewOrder_status.
        * apply Z.eqb_eq. exact Hz.
      + eapply frame_trans; [exact HI|apply matchOne_frame].
    - intros lv fills0 rem0 s _ HI.
      eapply frame_trans; [exact HI|apply processCompletedOrders_frame].
    - intros lv fills0 rem0 s _ (HI & Hst & Hz).
      split; [|split].
      + eapply frame_trans; [exact HI|apply processCompletedOrders_frame].
      + rewrite processCompletedOrders_orders. exact Hst.
      + exact Hz.
    - trivial.
    - apply frame_refl.
    - exact Hm. }
  destruct done.
  - destruct R as (H1 & H2 & H3). split; [exact H1|]. intros _. split; assumption.
  - split; [exact R|]. discriminate.
Qed.

(** ** [AddOrder] *)

Lemma ReplaceOrInsert_In tr it : In it (btree.ReplaceOrInsert tr it).
Proof.
  induction tr as [|x tr IH]; cbn; [auto|].
  destruct (PriceLevelItem.Less it x); [left; reflexivity|].
  destruct (PriceLevelItem.Less x it); [right; exact IH|left; reflexivity].
Qed.

Lemma AddOrder_exists rt p st :
  OrderBook.OrderMap (ob st) !! Order.OrderID (orders st p) <> None ->
  AddOrder rt p st = (Some (ErrOrderExists (Order.OrderID (orders st p))), st).
Proof.
  intros H. unfold AddOrder.
  destruct (OrderBook.OrderMap (ob st) !! Order.OrderID (orders st p));
    [reflexivity|contradiction].
Qed.

Lemma AddOrder_new rt p st :
  OrderBook.OrderMap (ob st) !! Order.OrderID (orders st p) = None ->
  fst (AddOrder rt p st) = None
  /\ orders (snd (AddOrder rt p st)) = orders st
  /\ restsAtTail rt p (snd (AddOrder rt p st))
  /\ (OrderBook.PriceLevels (ob st) !! FloatString rt (Order.Price (orders st p)) = None ->
      In (PriceLevelItem.mk (Order.Price (orders st p)) (nextLevel st))
         (treeOf (Order.Side (orders st p)) (ob (snd (AddOrder rt p st))))).
Proof.
  intros H. unfold AddOrder, restsAtTail. rewrite H.
  destruct (OrderBook.PriceLevels (ob st) !! FloatString rt (Order.Price (orders st p)))
    as [lp|] eqn:E; cbn [fst snd orders ob levels nextLevel nextElem].
  - repeat split.
    + cbn. apply lookup_insert_eq.
    + exists lp, (fifo st lp). split; [exact E|].
      unfold fifo. cbn [levels]. rewrite upd_eq. cbn [PriceLevel.Orders].
      rewrite map_app. reflexivity.
    + discriminate.
  - repeat split.
    + cbn. destruct (Order.Side (orders st p)); cbn; apply lookup_insert_eq.
    + exists (nextLevel st), []. split.
      * destruct (Order.Side (orders st p)); cbn; apply lookup_insert_eq.
      * unfold fifo. cbn [levels]. rewrite !upd_eq. reflexivity.
    + intros _. destruct (Order.Side (orders st p)); cbn; apply ReplaceOrInsert_In.
Qed.

(** ** The remainder, match.go:117-128 *)

Lemma finish_done rt p rem st :
  orders (finish rt p true rem st) = orders st
  /\ levels (finish rt p true rem st) = levels st
  /\ OrderBook.OrderMap (ob (finish rt p true rem st)) = OrderBook.OrderMap (ob st)
  /\ OrderBook.PriceLevels (ob (finish rt p true rem st)) = OrderBook.PriceLevels (ob st)
  /\ OrderBook.Bids (ob (finish rt p true rem st)) = OrderBook.Bids (ob st)
  /\ OrderBook.Asks (ob (finish rt p true rem st)) = OrderBook.Asks (ob st).
Proof. repeat split. Qed.

Lemma finish_no_residual rt p done rem st :
  Sign rem <= 0 ->
  orders (finish rt p done rem st) = orders st
  /\ levels (finish rt p done rem st) = levels st
  /\ OrderBook.OrderMap (ob (finish rt p done rem st)) = OrderBook.OrderMap (ob st)
  /\ OrderBook.PriceLevels (ob (finish rt p done rem st)) = OrderBook.PriceLevels (ob st)
  /\ OrderBook.Bids (ob (finish rt p done rem st)) = OrderBook.Bids (ob st)
  /\ OrderBook.Asks (ob (finish rt p done rem st)) = OrderBook.Asks (ob st).
Proof.
  intros H. unfold finish.
  assert (E : (Sign rem >? 0) = false) by (rewrite Z.gtb_ltb; apply Z.ltb_ge; lia).
  rewrite E, andb_false_r. repeat split.
Qed.

Lemma finish_residual rt p rem st :
  Sign rem > 0 ->
  let st' := snd (AddOrder rt p (residualState rt p rem st)) in
  orders (finish rt p false rem st) = orders st'
  /\ levels (finish rt p false rem st) = levels st'
  /\ OrderBook.OrderMap (ob (finish rt p false rem st)) = OrderBook.OrderMap (ob st')
  /\ OrderBook.PriceLevels (ob (finish rt p false rem st)) = OrderBook.PriceLevels (ob st')
  /\ OrderBook.Bids (ob (finish rt p false rem st)) = OrderBook.Bids (ob st')
  /\ OrderBook.Asks (ob (finish rt p false rem st)) = OrderBook.Asks (ob st').
Proof.
  intros H. unfold finish.
  assert (E : (Sign rem >? 0) = true) by (rewrite Z.gtb_ltb; apply Z.ltb_lt; lia).
  rewrite E.
  cbn [negb andb]. repeat split.
Qed.

Lemma restsAtTail_ext rt p st st' :
  orders st' = orders st ->
  levels st' = levels st ->
  OrderBook.OrderMap (ob st') = OrderBook.OrderMap (ob st) ->
  OrderBook.PriceLevels (ob st') = OrderBook.PriceLevels (ob st) ->
  restsAtTail rt p st -> restsAtTail rt p st'.
Proof.
  unfold restsAtTail, fifo. intros -> -> -> ->. auto.
Qed.

(** ** Market orders (C1) *)

Lemma residual_rests rt c p st done rem st1 fills :
  matching rt c p st = (done, rem, st1, fills) ->
  OrderBook.OrderMap (ob st) !! Order.OrderID (orders st p) = None ->
  (done = true ->
   Order.Status (orders (snd (MatchOrder rt c p st)) p) = StatusFilled)
  /\ (Sign rem > 0 ->
      Order.Status (orders (snd (MatchOrder rt c p st)) p) = StatusPartiallyFilled
      /\ restsAtTail rt p (snd (MatchOrder rt c p st))).
Proof.
  intros Hm Hid.
  destruct (matching_frame _ _ _ _ _ _ _ _ Hm) as [(Hident & _ & Hmap & _) Hdone].
  unfold MatchOrder, MatchOrderFills. rewrite Hm. cbn [snd].
  split.
  - intros ->. destruct (finish_done rt p rem st1) as (-> & _).
    apply Hdone. reflexivity.
  - intros Hpos.
    assert (done = false) as ->.
    { destruct done; [|reflexivity]. destruct (Hdone eq_refl) as [_ Hz]. lia. }
    destruct (finish_residual rt p rem st1 Hpos) as (Ho & Hl & Hom & Hpl & _).
    assert (Hnew :
      OrderBook.OrderMap (ob (residualState rt p rem st1))
        !! Order.OrderID (orders (residualState rt p rem st1) p) = None).
    { unfold residualState, setOrder. cbn [orders ob now snd]. rewrite upd_eq.
      cbn [Order.OrderID Order.setUpdateTime Order.setStatus Order.setRemaining].
      apply Hmap.
      pose proof (Hident p) as Hi. unfold ident in Hi.
      assert (Order.OrderID (orders st1 p) = Order.OrderID (orders st p)) as ->
        by congruence.
      exact Hid. }
    destruct (AddOrder_new rt p _ Hnew) as (_ & Ho' & Hrest & _).
    split.
    + rewrite Ho, Ho'. unfold residualState, setOrder. cbn [orders].
      rewrite upd_eq. reflexivity.
    + eapply restsAtTail_ext; [exact Ho|exact Hl|exact Hom|exact Hpl|exact Hrest].
Qed.

(** C1, as the code has it.  A market order whose matching ends with a
    positive remainder is marked partially_filled and handed to [AddOrder]
    like a limit order: when its id is not in the id map it rests, reachable
    from the id map and youngest in the level the price map has for its
    price.  A market order filled by the matching is marked filled. *)
Theorem residual_of_market_order_rests
        rt c p st done rem st1 fills :
  matching rt c p st = (done, rem, st1, fills) ->
  Order.IsMarket (orders st p) = true ->
  OrderBook.OrderMap (ob st) !! Order.OrderID (orders st p) = None ->
  (done = true ->
   Order.Status (orders (snd (MatchOrder rt c p st)) p) = StatusFilled)
  /\ (Sign rem > 0 ->
      Order.Status (orders (snd (MatchOrder rt c p st)) p) = StatusPartiallyFilled
      /\ restsAtTail rt p (snd (MatchOrder rt c p st))).
Proof.
  intros Hm _ Hid. exact (residual_rests rt c p st done rem st1 fills Hm Hid).
Qed.

Lemma residual_of_market_order_rests_witness :
  Order.Status (orders (snd (MatchOrder rt0 ModelCopy 1%nat marketOnEmptyBook)) 1%nat)
  = StatusPartiallyFilled
  /\ restsAtTail rt0 1%nat (snd (MatchOrder rt0 ModelCopy 1%nat marketOnEmptyBook)).
Proof.
  apply (residual_of_market_order_rests rt0 ModelCopy 1%nat marketOnEmptyBook
           false (int 1) (snd (fst (matching rt0 ModelCopy 1%nat marketOnEmptyBook))) []).
  - reflexivity.
  - reflexivity.
  - reflexivity.
  - reflexivity.
Defined.

(** C1 as the specification words it fails: the market buy of 1 sent to the
    empty book is found in the id map afterwards. *)
Lemma market_order_rests_in_book :
  ~ market_residual_discarded rt0 ModelCopy 1%nat marketOnEmptyBook.
Proof.
  intros H.
  destruct (H false (int 1)
              (snd (fst (matching rt0 ModelCopy 1%nat marketOnEmptyBook))) []
              eq_refl eq_refl eq_refl) as (_ & Habs & _).
  vm_compute in Habs. discriminate.
Qed.

(** ** Resting orders that have traded before (C2) *)

(** C2 fails on the code: the sell order s1 has traded 1 of its 2 and rests
    partially_filled, with 1 remaining, at the head of the ask level 100;
    the price of the buy order b1 is acceptable, and yet either copy of
    [MatchOrder] emits no trade: match.go:55 skips every order whose status
    is not pending. *)
Theorem partially_filled_head_is_skipped :
  (exists older, OrderBook.Asks (ob buyAgainstPartiallyFilled)
                 = PriceLevelItem.mk (int 100) 0%nat :: older)
  /\ (exists younger, fifo buyAgainstPartiallyFilled 0%nat = 1%nat :: younger)
  /\ Order.Status (orders buyAgainstPartiallyFilled 1%nat) = StatusPartiallyFilled
  /\ Sign (Order.Remaining (orders buyAgainstPartiallyFilled 1%nat)) = 1
  /\ isMatch (orders buyAgainstPartiallyFilled 3%nat)
             (Order.Price (orders buyAgainstPartiallyFilled 3%nat))
             (PriceLevel.Price (levels buyAgainstPartiallyFilled 0%nat)) = true
  /\ fst (MatchOrder rt0 ModelCopy 3%nat buyAgainstPartiallyFilled) = []
  /\ fst (MatchOrder rt0 MainCopy 3%nat buyAgainstPartiallyFilled) = [].
Proof.
  split; [exists []; vm_compute; reflexivity|].
  split; [exists []; vm_compute; reflexivity|].
  vm_compute. repeat split.
Qed.

(** ** The status of an order that rests (C3) *)

(** C3 fails on the code: the limit order s1 sent to the empty book trades
    nothing, keeps its whole quantity, and rests as partially_filled:
    match.go:120 sets that status whatever was traded. *)
Theorem untouched_limit_order_rests_partially_filled :
  let st := alloc 1%nat (limit "s1" SideSell (int 100) (int 2)) emptyState in
  let out := MatchOrder rt0 ModelCopy 1%nat st in
  fst out = []
  /\ Order.Remaining (orders (snd out) 1%nat) = Order.Quantity (orders (snd out) 1%nat)
  /\ fifo (snd out) 0%nat = [1%nat]
  /\ Order.Status (orders (snd out) 1%nat) = StatusPartiallyFilled.
Proof. vm_compute. repeat split. Qed.

(** ** Best price first (C4) *)

(** C4 fails on the copy of model/match.go: a limit SELL at 100 meets the
    bids 101 and 102 lowest first, so its trades are priced 101 then 102;
    the copy of main/match.go, which calls [Descend], trades at 102 then
    101. *)
Theorem model_copy_sells_to_lowest_bid_first :
  prices (fst (MatchOrder rt0 ModelCopy 3%nat sellAgainstTwoBids))
  = [int 101; int 102]
  /\ ~ nonincreasing (prices (fst (MatchOrder rt0 ModelCopy 3%nat sellAgainstTwoBids)))
  /\ prices (fst (MatchOrder rt0 MainCopy 3%nat sellAgainstTwoBids))
     = [int 102; int 101].
Proof.
  split; [vm_compute; reflexivity|]. split; [|vm_compute; reflexivity].
  vm_compute. intros [H _]. apply H. reflexivity.
Qed.

(** ** Cancellation (C7) *)

Lemma not_live_test (s : status) :
  bool_decide (s <> StatusPending) && bool_decide (s <> StatusPartiallyFilled)
  = negb (live s).
Proof. destruct s; reflexivity. Qed.

(** C7 fails on the code: after a SELL and a BUY at 100 submitted in that
    order, the two orders share the level that the ask tree holds.  Both
    cancellations succeed; the second empties the level and takes it out of
    the price map, but calls [Delete] on the bid tree, the side of the
    order cancelled, and the emptied level stays in the ask tree.  The two
    copies of order.go are the same text and both copies of [MatchOrder]
    lead to that book. *)
Theorem cancel_leaves_emptied_level_in_tree :
  forall c,
    let st := crossedLevel c in
    let st1 := snd (CancelOrder rt0 "s1" st) in
    let st2 := snd (CancelOrder rt0 "b1" st1) in
    fifo st 0%nat = [1%nat; 2%nat]
    /\ OrderBook.Asks (ob st) = [PriceLevelItem.mk (int 100) 0%nat]
    /\ OrderBook.Bids (ob st) = []
    /\ fst (CancelOrder rt0 "s1" st) = None
    /\ fifo st1 0%nat = [2%nat]
    /\ fst (CancelOrder rt0 "b1" st1) = None
    /\ fifo st2 0%nat = []
    /\ OrderBook.PriceLevels (ob st2) !! "100" = None
    /\ OrderBook.OrderMap (ob st2) !! "s1" = None
    /\ OrderBook.OrderMap (ob st2) !! "b1" = None
    /\ OrderBook.Bids (ob st2) = []
    /\ OrderBook.Asks (ob st2) = [PriceLevelItem.mk (int 100) 0%nat].
Proof.
  intros c. destruct c; vm_compute; repeat split.
Qed.

(** ** Fees (C8) *)

Lemma matching_fills_Forall (P : Fill -> Prop) rt c p st done rem st1 fills :
  (forall lv r rem0 s, P (fst (fst (matchOne rt lv p r rem0 s)))) ->
  matching rt c p st = (done, rem, st1, fills) ->
  Forall P fills.
Proof.
  intros HP Hm.
  assert (R : if done then Forall P fills else Forall P fills).
  { apply (matching_rule rt p (fun _ => True)
             (fun fs _ _ => Forall P fs) (fun fs _ _ => Forall P fs))
      with (c := c) (st := st) (rem' := rem) (st' := st1).
    - intros lv r rem0 s fills0 f rem' s' _ HI _ _ E.
      assert (Hf : P f) by (specialize (HP lv r rem0 s); rewrite E in HP; exact HP).
      destruct (Sign rem' =? 0); apply Forall_app; split; auto.
    - auto.
    - auto.
    - trivial.
    - constructor.
    - exact Hm. }
  destruct done; exact R.
Qed.

(** C8, as the code has it.  The fee of every emitted trade is the product
    quantity * price rounded to 53 bits, times the float64 nearest to 0.001
    (1152921504606847 * 2^-60), rounded to 53 bits again; for quantity 2 at
    price 100 that is 7205759403792794 * 2^-55, the float64 nearest to 0.2. *)
Theorem fee_is_rounded_binary rt c p st :
  Forall fee_rounded (fst (MatchOrder rt c p st))
  /\ prec feeRate = 53%positive
  /\ (F2Q feeRate == 1152921504606847 # (2 ^ 60))%Q
  /\ calculateFee (int 2) (int 100) = mkFloat 53 7205759403792794 (-55).
Proof.
  split; [|split; [|split]]; [|vm_compute; reflexivity..].
  unfold MatchOrder, MatchOrderFills.
  destruct (matching rt c p st) as [[[done rem] st1] fills] eqn:Hm. cbn [fst].
  apply Forall_map.
  apply (matching_fills_Forall (fun f => fee_rounded (fill_trade f))
           rt c p st done rem st1 fills); [|exact Hm].
  intros lv r rem0 s. rewrite matchOne_fill. reflexivity.
Qed.

(** C8 as the specification words it fails: in scenario 1 the one trade, of
    quantity 2 at price 100, carries a fee that is neither quantity * price
    / 1000 nor 0.200. *)
Lemma fee_of_2_at_100_is_not_exact :
  ~ (forall t, In t (fst (MatchOrder rt0 ModelCopy 2%nat singleLimitHit)) ->
               fee_exact t /\ (F2Q (Trade.Fee t) == 2 # 10)%Q).
Proof.
  intros H.
  assert (Hin : exists t, In t (fst (MatchOrder rt0 ModelCopy 2%nat singleLimitHit))
                          /\ Trade.Fee t = mkFloat 53 7205759403792794 (-55)).
  { eexists. split; [left; reflexivity|]. vm_compute. reflexivity. }
  destruct Hin as (t & Hin & Hfee).
  destruct (H t Hin) as [_ Hq].
  rewrite Hfee in Hq. vm_compute in Hq. discriminate.
Qed.

(** ** Duplicate ids (C10) *)

Lemma ident_OrderID o o' : ident o' = ident o -> Order.OrderID o' = Order.OrderID o.
Proof. unfold ident. congruence. Qed.

(** Matching takes an id out of the id map only with an order of a level it
    visits. *)
Lemma matching_keeps_id rt c p st done rem st1 fills (k : string) :
  matching rt c p st = (done, rem, st1, fills) ->
  (forall item x,
      In item (oppositeLevels c (Order.Side (orders st p)) (ob st)) ->
      In x (fifo st (PriceLevelItem.Level item)) ->
      Order.OrderID (orders st x) <> k) ->
  OrderBook.OrderMap (ob st1) !! k = OrderBook.OrderMap (ob st) !! k.
Proof.
  intros Hm Hids.
  set (Inv := fun (_ : list Fill) (_ : Float) (s : State) =>
                frame st s
                /\ OrderBook.OrderMap (ob s) !! k = OrderBook.OrderMap (ob st) !! k).
  assert (R : if done then Inv fills rem st1 else Inv fills rem st1).
  { apply (matching_rule rt p
             (fun lv => forall x, In x (fifo st lv) -> Order.OrderID (orders st x) <> k)
             Inv Inv) with (c := c) (st := st).
    - intros lv r rem0 s fills0 f rem' s' _ [HF HK] _ _ E.
      assert (Hs : s' = snd (matchOne rt lv p r rem0 s)) by (rewrite E; reflexivity).
      clear E. subst s'.
      destruct (Sign rem' =? 0); split.
      + eapply frame_trans; [exact HF|].
        eapply frame_trans; [apply matchOne_frame|apply fillNewOrder_frame].
      + exact HK.
      + eapply frame_trans; [exact HF|apply matchOne_frame].
      + exact HK.
    - intros lv fills0 rem0 s HV [HF HK]. split.
      + eapply frame_trans; [exact HF|apply processCompletedOrders_frame].
      + rewrite processCompletedOrders_orderMap, reap_orderMap_keep; [exact HK|].
        intros e He. destruct HF as (Hident & _ & _ & Hfifo & _).
        rewrite (ident_OrderID _ _ (Hident (Element.Value e))).
        apply HV, Hfifo. unfold fifo. apply in_map. exact He.
    - intros lv fills0 rem0 s HV [HF HK]. split.
      + eapply frame_trans; [exact HF|apply processCompletedOrders_frame].
      + rewrite processCompletedOrders_orderMap, reap_orderMap_keep; [exact HK|].
        intros e He. destruct HF as (Hident & _ & _ & Hfifo & _).
        rewrite (ident_OrderID _ _ (Hident (Element.Value e))).
        apply HV, Hfifo. unfold fifo. apply in_map. exact He.
    - intros item Hitem x Hx. exact (Hids item x Hitem Hx).
    - split; [apply frame_refl|reflexivity].
    - exact Hm. }
  destruct done; apply R.
Qed.

(** C10, as the code has it.  An order that is not itself resting,
    submitted under an id the id map has for another order, is matched all
    the same; when a positive remainder is left and no order resting in the
    opposite levels carries that id (so that the matching cannot have
    filled and reaped its holder), [AddOrder] refuses the remainder as a
    duplicate, [MatchOrder] drops that error and returns the trades alone,
    and the remainder is absent from the book: the book holds what it held
    when matching ended, the order is in no FIFO, the id map still leads
    to the other order, and what is left lives only in the order, marked
    partially_filled. *)
Theorem duplicate_id_residual_is_dropped rt c p q st done rem st1 fills :
  matching rt c p st = (done, rem, st1, fills) ->
  OrderBook.OrderMap (ob st) !! Order.OrderID (orders st p) = Some q ->
  q <> p ->
  (forall lp, ~ In p (fifo st lp)) ->
  (forall item x,
      In item (oppositeLevels c (Order.Side (orders st p)) (ob st)) ->
      In x (fifo st (PriceLevelItem.Level item)) ->
      Order.OrderID (orders st x) <> Order.OrderID (orders st p)) ->
  Sign rem > 0 ->
  fst (MatchOrder rt c p st) = map fill_trade fills
  /\ fst (AddOrder rt p (residualState rt p rem st1))
     = Some (ErrOrderExists (Order.OrderID (orders st p)))
  /\ sameBook st1 (snd (MatchOrder rt c p st))
  /\ (forall lp, ~ In p (fifo (snd (MatchOrder rt c p st)) lp))
  /\ OrderBook.OrderMap (ob (snd (MatchOrder rt c p st)))
       !! Order.OrderID (orders st p) = Some q
  /\ Order.Status (orders (snd (MatchOrder rt c p st)) p) = StatusPartiallyFilled.
Proof.
  intros Hm Hheld Hqp Hout Hids Hpos.
  assert (Hdup : OrderBook.OrderMap (ob st) !! Order.OrderID (orders st p) <> None)
    by (rewrite Hheld; discriminate).
  pose proof (matching_keeps_id _ _ _ _ _ _ _ _ _ Hm Hids) as Hkeep.
  destruct (matching_frame _ _ _ _ _ _ _ _ Hm) as [(Hident & _ & _ & Hfifo & _) Hdone].
  assert (done = false) as ->.
  { destruct done; [|reflexivity]. destruct (Hdone eq_refl) as [_ Hz]. lia. }
  assert (Hid1 : Order.OrderID (orders (residualState rt p rem st1) p)
                 = Order.OrderID (orders st p)).
  { unfold residualState, setOrder. cbn [orders]. rewrite upd_eq.
    cbn [Order.OrderID Order.setUpdateTime Order.setStatus Order.setRemaining].
    apply ident_OrderID, Hident. }
  assert (Hex : AddOrder rt p (residualState rt p rem st1)
                = (Some (ErrOrderExists (Order.OrderID (orders st p))),
                   residualState rt p rem st1)).
  { rewrite <- Hid1. apply AddOrder_exists. rewrite Hid1.
    unfold residualState. cbn [ob setOrder now snd]. rewrite Hkeep. exact Hdup. }
  assert (Hfinal : snd (MatchOrder rt c p st) = finish rt p false rem st1)
    by (unfold MatchOrder, MatchOrderFills; rewrite Hm; reflexivity).
  destruct (finish_residual rt p rem st1 Hpos) as (Ho & Hl & Hom & Hpl & Hb & Ha).
  rewrite Hex in Ho, Hl, Hom, Hpl, Hb, Ha. cbn [snd] in Ho, Hl, Hom, Hpl, Hb, Ha.
  split; [|split; [|split; [|split; [|split]]]].
  - unfold MatchOrder, MatchOrderFills. rewrite Hm. reflexivity.
  - rewrite Hex. reflexivity.
  - rewrite Hfinal. unfold sameBook. rewrite Hl, Hom, Hpl, Hb, Ha. repeat split.
  - intros lp Hin. rewrite Hfinal in Hin. unfold fifo in Hin. rewrite Hl in Hin.
    exact (Hout lp (Hfifo lp p Hin)).
  - rewrite Hfinal, Hom. unfold residualState. cbn [ob setOrder now snd].
    rewrite Hkeep. exact Hheld.
  - rewrite Hfinal, Ho. unfold residualState, setOrder. cbn [orders].
    rewrite upd_eq. reflexivity.
Qed.

Lemma duplicate_id_residual_is_dropped_witness :
  (exists t, fst (MatchOrder rt0 ModelCopy 3%nat duplicateBuy) = [t])
  /\ fst (AddOrder rt0 3%nat
            (residualState rt0 3%nat (int 1)
               (snd (fst (matching rt0 ModelCopy 3%nat duplicateBuy)))))
     = Some (ErrOrderExists "a")
  /\ (forall lp, ~ In 3%nat (fifo (snd (MatchOrder rt0 ModelCopy 3%nat duplicateBuy)) lp))
  /\ OrderBook.OrderMap (ob (snd (MatchOrder rt0 ModelCopy 3%nat duplicateBuy))) !! "a"
     = Some 1%nat.
Proof.
  destruct (duplicate_id_residual_is_dropped rt0 ModelCopy 3%nat 1%nat duplicateBuy
              false (int 1)
              (snd (fst (matching rt0 ModelCopy 3%nat duplicateBuy)))
              (snd (matching rt0 ModelCopy 3%nat duplicateBuy)))
    as (Ht & Herr & _ & Hout & Hmap & _).
  - vm_compute. reflexivity.
  - vm_compute. reflexivity.
  - discriminate.
  - intros lp H. destruct lp as [|[|lp]]; vm_compute in H;
      [destruct H as [H|[]]; discriminate H..|contradiction].
  - intros item x Hitem Hx. vm_compute in Hitem.
    destruct Hitem as [<-|[]]. vm_compute in Hx.
    destruct Hx as [<-|[]]. vm_compute. discriminate.
  - vm_compute. reflexivity.
  - split; [|split; [exact Herr|split; [exact Hout|exact Hmap]]].
    eexists. rewrite Ht. vm_compute. reflexivity.
Defined.

(** The order must not be the resting one: when the buy order a that rests
    at 100 for 3 is itself submitted again and buys 1 from s, its
    remainder of 2 is refused by [AddOrder] as before, but the order is
    still in the FIFO of its level, now with 2 left against an aggregate
    of 3. *)
Lemma resubmitted_order_stays_in_book :
  fst (AddOrder rt0 1%nat
         (residualState rt0 1%nat (int 2)
            (snd (fst (matching rt0 ModelCopy 1%nat restingBuyAndSell)))))
  = Some (ErrOrderExists "a")
  /\ In 1%nat (fifo (snd (MatchOrder rt0 ModelCopy 1%nat restingBuyAndSell)) 0%nat)
  /\ Order.Remaining (orders (snd (MatchOrder rt0 ModelCopy 1%nat restingBuyAndSell)) 1%nat)
     = int 2
  /\ PriceLevel.TotalQty (levels (snd (MatchOrder rt0 ModelCopy 1%nat restingBuyAndSell)) 0%nat)
     = int 3.
Proof.
  split; [vm_compute; reflexivity|].
  split; [vm_compute; left; reflexivity|].
  split; vm_compute; reflexivity.
Qed.

(** C10 as the claim words it fails when the order that holds the id is the
    maker: the buy order a fills the sell order a, which is reaped with its
    id, and the remainder of the buy order is accepted into the book. *)
Lemma duplicate_of_filled_maker_rests :
  ~ duplicate_residual_dropped rt0 ModelCopy 2%nat duplicateOfMaker.
Proof.
  intros H.
  destruct (H false (int 1)
              (snd (fst (matching rt0 ModelCopy 2%nat duplicateOfMaker)))
              (snd (matching rt0 ModelCopy 2%nat duplicateOfMaker)))
    as (_ & Herr & _).
  - vm_compute. reflexivity.
  - vm_compute. discriminate.
  - vm_compute. reflexivity.
  - vm_compute in Herr. discriminate.
Qed.

(** ** Trades (C6) *)

Lemma Cmp_antisym (x y : Float) : Cmp y x = - Cmp x y.
Proof.
  unfold Cmp. rewrite (Z.min_comm (expo y) (expo x)).
  rewrite (Z.compare_antisym
             (mant x * 2 ^ (expo x - Z.min (expo x) (expo y)))
             (mant y * 2 ^ (expo y - Z.min (expo x) (expo y)))).
  destruct (_ ?= _); reflexivity.
Qed.

Lemma takerTrace_app rem fs f :
  takerTrace rem fs ->
  fill_takerBefore f = remainingAfter rem fs ->
  takerTrace rem (fs ++ [f]).
Proof.
  revert rem. induction fs as [|g fs IH]; intros rem Ht Hf; cbn in *.
  - split; [exact Hf|exact I].
  - destruct Ht as [Hg Ht]. split; [exact Hg|]. apply IH; assumption.
Qed.

Lemma remainingAfter_app rem fs f :
  remainingAfter rem (fs ++ [f])
  = Sub (remainingAfter rem fs) (remainingAfter rem fs) (Trade.Quantity (fill_trade f)).
Proof. unfold remainingAfter. rewrite fold_left_app. reflexivity. Qed.

Section Fills.
Variable rt : Runtime.
Variables (c : copy) (p : ptr) (st : State).

Hypothesis taker_positive : Sign (Order.Remaining (orders st p)) = 1.
Hypothesis makers_positive :
  forall item q,
    In item (oppositeLevels c (Order.Side (orders st p)) (ob st)) ->
    In q (fifo st (PriceLevelItem.Level item)) ->
    Order.Status (orders st q) = StatusPending ->
    Sign (Order.Remaining (orders st q)) = 1.

Let V (lv : lptr) : Prop :=
  In lv (map PriceLevelItem.Level
             (oppositeLevels c (Order.Side (orders st p)) (ob st))).

Let Done (fills : list Fill) (rem : Float) (s : State) : Prop :=
  frame st s
  /\ Forall (fill_ok c p st) fills
  /\ takerTrace (Order.Remaining (orders st p)) fills
  /\ rem = remainingAfter (Order.Remaining (orders st p)) fills.

Let Running (fills : list Fill) (rem : Float) (s : State) : Prop :=
  Done fills rem s /\ Sign rem = 1.

Lemma matchOne_fill_ok lv r rem s fills :
  V lv ->
  Running fills rem s ->
  In r (fifo s lv) ->
  Order.Status (orders s r) = StatusPending ->
  let q := if Cmp rem (Order.Remaining (orders s r)) >? 0
           then Order.Remaining (orders s r) else rem in
  fill_ok c p st (fst (fst (matchOne rt lv p r rem s)))
  /\ Trade.Quantity (fill_trade (fst (fst (matchOne rt lv p r rem s)))) = q
  /\ fill_takerBefore (fst (fst (matchOne rt lv p r rem s))) = rem
  /\ (Sign (Sub rem rem q) = 0 \/ Sign (Sub rem rem q) = 1).
Proof.
  intros HV [(HF & _) Hrem] Hr Hp q.
  destruct HF as (Hident & Hprice & _ & Hfifo & Hpend).
  pose proof (Hpend r Hp) as Hsame.
  assert (Hp0 : Order.Status (orders st r) = StatusPending) by (rewrite <- Hsame; exact Hp).
  assert (Hmk : Sign (Order.Remaining (orders st r)) = 1).
  { apply in_map_iff in HV. destruct HV as (item & <- & Hitem).
    exact (makers_positive item r Hitem (Hfifo _ _ Hr) Hp0). }
  rewrite <- Hsame in Hmk.
  rewrite matchOne_fill. cbn [fill_trade fill_takerBefore Trade.Quantity]. fold q.
  assert (Hq : Sign q = 1
               /\ Cmp q (Order.Remaining (orders s r)) <= 0
               /\ Cmp q rem <= 0
               /\ (q = Order.Remaining (orders s r) \/ q = rem)
               /\ (Sign (Sub rem rem q) = 0 \/ Sign (Sub rem rem q) = 1)).
  { subst q. destruct (Cmp rem (Order.Remaining (orders s r)) >? 0) eqn:E.
    - assert (Hgt : Cmp rem (Order.Remaining (orders s r)) > 0)
        by (rewrite Z.gtb_ltb in E; apply Z.ltb_lt in E; lia).
      repeat split.
      + exact Hmk.
      + rewrite Cmp_refl. lia.
      + rewrite Cmp_antisym. lia.
      + left. reflexivity.
      + right. apply Sub_pos. exact Hgt.
    - assert (Hle : Cmp rem (Order.Remaining (orders s r)) <= 0)
        by (rewrite Z.gtb_ltb in E; apply Z.ltb_ge in E; lia).
      repeat split.
      + exact Hrem.
      + exact Hle.
      + rewrite Cmp_refl. lia.
      + right. reflexivity.
      + left. apply Sub_self. }
  destruct Hq as (Hq1 & Hq2 & Hq3 & Hq4 & Hq5).
  split; [|split; [reflexivity|split; [reflexivity|exact Hq5]]].
  unfold fill_ok.
  cbn [fill_trade fill_level fill_maker fill_makerBefore fill_takerBefore
       Trade.Price Trade.Quantity Trade.MakerOrderID Trade.TakerOrderID].
  rewrite Hsame in *.
  repeat split; try assumption.
  - apply Hfifo. exact Hr.
  - apply ident_OrderID, Hident.
  - apply Hprice.
Qed.

Lemma matching_fills_ok done rem st1 fills :
  matching rt c p st = (done, rem, st1, fills) ->
  Forall (fill_ok c p st) fills
  /\ takerTrace (Order.Remaining (orders st p)) fills.
Proof.
  intros Hm.
  assert (R : if done then Done fills rem st1 else Running fills rem st1).
  { apply (matching_rule rt p V Running Done) with (c := c) (st := st).
    - intros lv r rem0 s fills0 f rem' s' HV HI Hr Hp E.
      destruct (matchOne_fill_ok lv r rem0 s fills0 HV HI Hr Hp)
        as (Hok & Hq & Htb & Hsign).
      pose proof (matchOne_remaining rt lv p r rem0 s) as Hrem'.
      rewrite E in Hok, Hq, Htb, Hrem'. cbn [fst snd] in Hok, Hq, Htb, Hrem'.
      assert (Hs : s' = snd (matchOne rt lv p r rem0 s)) by (rewrite E; reflexivity).
      clear E. cbv zeta in Hrem'.
      destruct HI as [(HF & Hall & Htr & Heq) Hpos].
      assert (HD : forall s2, frame s' s2 -> Done (fills0 ++ [f]) rem' s2).
      { intros s2 H2. split; [|split; [|split]].
        - eapply frame_trans; [exact HF|].
          eapply frame_trans; [|exact H2]. subst s'. apply matchOne_frame.
        - apply Forall_app. split; [exact Hall|]. constructor; [exact Hok|constructor].
        - apply takerTrace_app; [exact Htr|]. rewrite Htb. exact Heq.
        - rewrite remainingAfter_app, <- Heq, Hq. exact Hrem'. }
      destruct (Sign rem' =? 0) eqn:Ez.
      + apply HD, fillNewOrder_frame.
      + split; [apply HD, frame_refl|].
        apply Z.eqb_neq in Ez. rewrite Hrem' in Ez |- *.
        destruct Hsign as [Hz|Hz]; [contradiction|exact Hz].
    - intros lv fills0 rem0 s _ [(HF & Hrest) Hpos]. split; [split|exact Hpos].
      + eapply frame_trans; [exact HF|apply processCompletedOrders_frame].
      + exact Hrest.
    - intros lv fills0 rem0 s _ (HF & Hrest). split.
      + eapply frame_trans; [exact HF|apply processCompletedOrders_frame].
      + exact Hrest.
    - intros item Hitem. apply in_map. exact Hitem.
    - split; [|exact taker_positive].
      split; [apply frame_refl|]. split; [constructor|]. split; [exact I|reflexivity].
    - exact Hm. }
  destruct done; [|destruct R as [R _]]; destruct R as (_ & H1 & H2 & _); auto.
Qed.
End Fills.

(** C6, as the code has it.  When the new order has a positive remaining
    quantity, and so has every pending order resting in a level of the
    opposite tree, each trade that [MatchOrder] of model/match.go emits is
    made against an order resting, pending, in a level of the opposite
    tree; its price is the price of that level; its quantity is positive
    and is the smaller of what the maker had left (its remaining quantity
    on entry, a maker being matched once) and what the taker had left after
    the trades before. *)
Theorem trade_price_and_quantity rt p st :
  Sign (Order.Remaining (orders st p)) = 1 ->
  (forall item q,
      In item (oppositeLevels ModelCopy (Order.Side (orders st p)) (ob st)) ->
      In q (fifo st (PriceLevelItem.Level item)) ->
      Order.Status (orders st q) = StatusPending ->
      Sign (Order.Remaining (orders st q)) = 1) ->
  fst (MatchOrder rt ModelCopy p st)
  = map fill_trade (fst (MatchOrderFills rt ModelCopy p st))
  /\ Forall (fill_ok ModelCopy p st) (fst (MatchOrderFills rt ModelCopy p st))
  /\ takerTrace (Order.Remaining (orders st p))
                (fst (MatchOrderFills rt ModelCopy p st)).
Proof.
  intros Htaker Hmakers.
  split.
  - unfold MatchOrder. destruct (MatchOrderFills rt ModelCopy p st). reflexivity.
  - unfold MatchOrderFills.
    destruct (matching rt ModelCopy p st) as [[[done rem] st1] fills] eqn:Hm.
    cbn [fst].
    exact (matching_fills_ok rt ModelCopy p st Htaker Hmakers done rem st1 fills Hm).
Qed.

Lemma trade_price_and_quantity_witness :
  (exists t, fst (MatchOrder rt0 ModelCopy 2%nat singleLimitHit) = [t]
             /\ Trade.Price t = int 100 /\ Trade.Quantity t = int 2)
  /\ Forall (fill_ok ModelCopy 2%nat singleLimitHit)
            (fst (MatchOrderFills rt0 ModelCopy 2%nat singleLimitHit)).
Proof.
  destruct (trade_price_and_quantity rt0 2%nat singleLimitHit)
    as (Ht & Hok & _).
  - reflexivity.
  - intros item q Hitem Hq _. vm_compute in Hitem.
    destruct Hitem as [<-|[]]. vm_compute in Hq.
    destruct Hq as [<-|[]]. reflexivity.
  - split; [|exact Hok].
    eexists. split; [vm_compute; reflexivity|]. split; reflexivity.
Defined.

(** C6 as the claim words it fails for an order that has nothing left to
    trade: a BUY of quantity zero at 100 meets the pending sell order s1
    and a trade of quantity zero is emitted. *)
Lemma zero_quantity_trade_is_emitted :
  ~ Forall (fill_ok ModelCopy 2%nat zeroQuantityBuy)
           (fst (MatchOrderFills rt0 ModelCopy 2%nat zeroQuantityBuy)).
Proof.
  intros H.
  assert (Hq : Forall (fun f => Sign (Trade.Quantity (fill_trade f)) = 1)
                      (fst (MatchOrderFills rt0 ModelCopy 2%nat zeroQuantityBuy))).
  { apply (List.Forall_impl _ (P := fill_ok ModelCopy 2%nat zeroQuantityBuy));
      [|exact H].
    intros f (_ & _ & _ & _ & _ & _ & _ & Hs & _). exact Hs. }
  vm_compute in Hq. inversion Hq as [|f fs Hf _]. discriminate Hf.
Qed.

(** Nor may a pending resting order have nothing left: a BUY of 1 at 100
    that meets a pending sell order of quantity zero trades zero with it. *)
Lemma zero_quantity_maker_trades_zero :
  ~ Forall (fill_ok ModelCopy 2%nat buyAgainstEmptyAsk)
           (fst (MatchOrderFills rt0 ModelCopy 2%nat buyAgainstEmptyAsk)).
Proof.
  intros H.
  assert (Hq : Forall (fun f => Sign (Trade.Quantity (fill_trade f)) = 1)
                      (fst (MatchOrderFills rt0 ModelCopy 2%nat buyAgainstEmptyAsk))).
  { apply (List.Forall_impl _ (P := fill_ok ModelCopy 2%nat buyAgainstEmptyAsk));
      [|exact H].
    intros f (_ & _ & _ & _ & _ & _ & _ & Hs & _). exact Hs. }
  vm_compute in Hq. inversion Hq as [|f fs Hf _]. discriminate Hf.
Qed.

(** ** Conservation (C5) *)

Lemma F2Q_zero (x : Float) : mant x = 0 -> (F2Q x == 0)%Q.
Proof. intros H. unfold F2Q. rewrite H. apply Qmult_0_l. Qed.

Lemma Sign_zero (x : Float) : Sign x = 0 -> mant x = 0.
Proof. unfold Sign. intros H. destruct (mant x); cbn in H; congruence. Qed.

Lemma FSet_zero (z x : Float) : mant x = 0 -> mant (FSet z x) = 0.
Proof.
  intros Hx. unfold FSet, exact. rewrite Hx.
  rewrite round_small by (change (bitlen 0) with 0; lia). reflexivity.
Qed.

Lemma AddOrder_orders rt p st : orders (snd (AddOrder rt p st)) = orders st.
Proof.
  unfold AddOrder.
  destruct (OrderBook.OrderMap (ob st) !! Order.OrderID (orders st p)); [reflexivity|].
  destruct (OrderBook.PriceLevels (ob st) !! _); reflexivity.
Qed.

Lemma bitlen_spec (m : Z) : Z.abs m < 2 ^ bitlen m.
Proof.
  unfold bitlen. destruct (Z.abs m =? 0) eqn:E.
  - apply Z.eqb_eq in E. rewrite E. cbn. lia.
  - apply Z.eqb_neq in E. apply Z.log2_spec. lia.
Qed.

(** The mantissa of a rounded number has at most [p] bits, or is [2^p]. *)
Lemma round_bound (p : positive) (m e : Z) :
  Z.abs (mant (round p (m, e))) <= 2 ^ Z.pos p.
Proof.
  unfold round. destruct (bitlen m <=? Z.pos p) eqn:E; cbn [mant].
  - apply Z.leb_le in E. pose proof (bitlen_spec m) as H.
    assert (2 ^ bitlen m <= 2 ^ Z.pos p) by (apply Z.pow_le_mono_r; lia). lia.
  - apply Z.leb_gt in E.
    set (s := bitlen m - Z.pos p) in *.
    assert (Hs : 0 < s) by (unfold s; lia).
    assert (Hq : 0 <= Z.shiftr (Z.abs m) s < 2 ^ Z.pos p).
    { rewrite Z.shiftr_div_pow2 by lia. split.
      - apply Z.div_pos; [lia|apply Z.pow_pos_nonneg; lia].
      - apply Z.div_lt_upper_bound; [apply Z.pow_pos_nonneg; lia|].
        rewrite <- Z.pow_add_r by lia.
        replace (s + Z.pos p) with (bitlen m) by (unfold s; lia).
        apply bitlen_spec. }
    rewrite Z.abs_mul.
    assert (Z.abs (Z.sgn m) <= 1) by (destruct m; cbn; lia).
    destruct (if 2 * (Z.abs m mod 2 ^ s) <? 2 ^ s then false
              else if 2 * (Z.abs m mod 2 ^ s) =? 2 ^ s
                   then Z.odd (Z.shiftr (Z.abs m) s) else true); nia.
Qed.

Lemma Qpow2_succ (e : Z) : (2 ^ (e + 1) == 2 ^ e * 2)%Q.
Proof. rewrite Qpower_plus by discriminate. reflexivity. Qed.

(** Rounding to [p] bits a number of at most [p] bits, or [2^p], keeps its
    value. *)
Lemma round_held (p : positive) (m e : Z) :
  Z.abs m <= 2 ^ Z.pos p ->
  (F2Q (round p (m, e)) == inject_Z m * 2 ^ e)%Q.
Proof.
  intros Hb.
  destruct (Z.eq_dec (Z.abs m) (2 ^ Z.pos p)) as [Heq|Hne].
  - assert (Hpow : 0 < 2 ^ Z.pos p) by (apply Z.pow_pos_nonneg; lia).
    assert (Hlen : bitlen m = Z.pos p + 1).
    { unfold bitlen. rewrite Heq.
      destruct (2 ^ Z.pos p =? 0) eqn:E0; [apply Z.eqb_eq in E0; lia|].
      rewrite Z.log2_pow2 by lia. reflexivity. }
    unfold round. rewrite Hlen.
    destruct (Z.pos p + 1 <=? Z.pos p) eqn:E; [apply Z.leb_le in E; lia|].
    replace (Z.pos p + 1 - Z.pos p) with 1 by lia.
    rewrite Heq.
    assert (Hhalf : 2 ^ Z.pos p = 2 * 2 ^ (Z.pos p - 1)).
    { rewrite <- Z.pow_succ_r by lia. f_equal. lia. }
    assert (Hmod : 2 ^ Z.pos p mod 2 ^ 1 = 0).
    { rewrite Hhalf. change (2 ^ 1) with 2. rewrite Z.mul_comm. apply Z.mod_mul. lia. }
    rewrite Hmod. change (2 * 0 <? 2 ^ 1) with true. cbv iota.
    rewrite Z.shiftr_div_pow2 by lia. change (2 ^ 1) with 2.
    assert (Hdiv : 2 ^ Z.pos p / 2 = 2 ^ (Z.pos p - 1)).
    { rewrite Hhalf at 1. rewrite Z.mul_comm. apply Z.div_mul. lia. }
    rewrite Hdiv. unfold F2Q. cbn [mant expo].
    rewrite Qpow2_succ.
    assert (Hm : (inject_Z m
                  == inject_Z (Z.sgn m * 2 ^ (Z.pos p - 1)) * 2)%Q).
    { change 2%Q with (inject_Z 2). rewrite <- inject_Z_mult.
      rewrite <- Z.mul_assoc, (Z.mul_comm _ 2), <- Hhalf, <- Heq.
      rewrite Z.mul_comm, Z.abs_sgn. reflexivity. }
    rewrite Hm. ring.
  - rewrite round_small; [reflexivity|].
    apply bitlen_lt_pow2; lia.
Qed.

Lemma round_round (p : positive) (x : dyadic) :
  (F2Q (round p (exact (round p x))) == F2Q (round p x))%Q.
Proof.
  destruct x as [m e]. unfold exact.
  rewrite round_held by apply round_bound. reflexivity.
Qed.

(** Every number the arithmetic of the program produces is a number of its
    own precision. *)
Lemma round_representable (p : positive) (x : dyadic) : representable (round p x).
Proof.
  unfold representable, FSet. rewrite prec_round. apply round_round.
Qed.

(** The quantities of fills that each subtract what they trade from what
    the fill before left, unrounded, add up to what has gone. *)
Lemma unrounded_sum (fs : list Fill) :
  forall rem,
    takerTrace rem fs -> unrounded fs ->
    (tradedQty (map fill_trade fs) == F2Q rem - F2Q (remainingAfter rem fs))%Q.
Proof.
  unfold tradedQty. rewrite map_map.
  induction fs as [|f fs IH]; intros rem Ht Hu.
  - unfold remainingAfter. cbn. ring.
  - destruct Ht as [Hf Ht]. unfold unrounded in Hu.
    apply List.Forall_cons_iff in Hu. destruct Hu as [Hx Hrest].
    rewrite Hf in Hx. unfold exactSub in Hx.
    change (remainingAfter rem (f :: fs))
      with (remainingAfter (Sub rem rem (Trade.Quantity (fill_trade f))) fs).
    cbn [map]. unfold sumQ in *. cbn [fold_right].
    rewrite (IH _ Ht Hrest), Hx. ring.
Qed.

Lemma Sub_sign_cases (rem resting : Float) :
  let q := if Cmp rem resting >? 0 then resting else rem in
  Sign (Sub rem rem q) = 0 \/ Sign (Sub rem rem q) = 1.
Proof.
  cbv zeta. destruct (Cmp rem resting >? 0) eqn:E.
  - right. apply Sub_pos. rewrite Z.gtb_ltb in E. apply Z.ltb_lt in E. lia.
  - left. apply Sub_self.
Qed.

Section Conservation.
Variable rt : Runtime.
Variables (c : copy) (p : ptr) (st : State).

Hypothesis taker_representable : representable (Order.Remaining (orders st p)).

Let R0 : Float := Order.Remaining (orders st p).

Let Trace (fills : list Fill) (rem : Float) : Prop :=
  takerTrace R0 fills /\ rem = remainingAfter R0 fills.

Let Running (fills : list Fill) (rem : Float) (s : State) : Prop :=
  Trace fills rem
  /\ prec rem = prec R0
  /\ prec (Order.Remaining (orders s p)) = prec R0
  /\ (F2Q (round (prec R0) (exact rem)) == F2Q rem)%Q
  /\ ((fills = [] /\ Order.Remaining (orders s p) = R0) \/ Sign rem = 1).

Let Done (fills : list Fill) (rem : Float) (s : State) : Prop :=
  Trace fills rem
  /\ mant rem = 0
  /\ mant (Order.Remaining (orders s p)) = 0.

Lemma conservation_step lv r rem s fills f rem' s' :
  Running fills rem s ->
  matchOne rt lv p r rem s = (f, rem', s') ->
  if Sign rem' =? 0
  then Done (fills ++ [f]) rem'
            (fillNewOrder p rem' (Trade.TradeTime (fill_trade f)) s')
  else Running (fills ++ [f]) rem' s'.
Proof.
  intros ([Htr Heq] & Hprec & Hpp & _ & _) E.
  pose proof (matchOne_remaining rt lv p r rem s) as Hrem'.
  pose proof (matchOne_fill rt lv p r rem s) as Hf.
  pose proof (matchOne_orders rt lv p r rem s) as Ho.
  pose proof (Sub_sign_cases rem (Order.Remaining (orders s r))) as Hsign.
  rewrite E in Hrem', Hf, Ho. cbn [fst snd] in Hrem', Hf, Ho.
  cbv zeta in Hrem', Hf, Ho, Hsign. clear E.
  rewrite <- Hrem' in Hsign.
  assert (HT : Trace (fills ++ [f]) rem').
  { split.
    - apply takerTrace_app; [exact Htr|]. rewrite Hf. cbn [fill_takerBefore]. exact Heq.
    - rewrite remainingAfter_app, <- Heq, Hf. cbn [fill_trade Trade.Quantity].
      exact Hrem'. }
  destruct (Sign rem' =? 0) eqn:Ez.
  - apply Z.eqb_eq in Ez. split; [exact HT|]. split; [apply Sign_zero, Ez|].
    unfold fillNewOrder, setOrder. cbn [orders]. rewrite upd_eq.
    cbn [Order.Remaining Order.setUpdateTime Order.setStatus Order.setRemaining].
    apply FSet_zero, Sign_zero, Ez.
  - apply Z.eqb_neq in Ez. split; [exact HT|].
    assert (Hp' : prec rem' = prec R0)
      by (rewrite Hrem'; unfold Sub; rewrite prec_round; exact Hprec).
    split; [exact Hp'|]. split; [|split].
    + rewrite Ho.
      match goal with |- context [upd (orders s) r ?o p] =>
        destruct (upd_cases (orders s) r p o) as [[-> ->]|[_ ->]] end; [|exact Hpp].
      cbn [Order.Remaining Order.setUpdateTime Order.setStatus Order.setRemaining].
      unfold Sub. rewrite prec_round. exact Hpp.
    + rewrite Hrem'. unfold Sub. rewrite Hprec. apply round_round.
    + right. destruct Hsign as [Hz|Hz]; [contradiction|exact Hz].
Qed.

Lemma matching_conserves done rem st1 fills :
  matching rt c p st = (done, rem, st1, fills) ->
  if done then Done fills rem st1 else Running fills rem st1.
Proof.
  intros Hm.
  apply (matching_rule rt p (fun _ => True) Running Done) with (c := c) (st := st).
  - intros lv r rem0 s fills0 f rem' s' _ HI _ _. apply conservation_step. exact HI.
  - intros lv fills0 rem0 s _ H. unfold Running in *.
    rewrite processCompletedOrders_orders. exact H.
  - intros lv fills0 rem0 s _ H. unfold Done in *.
    rewrite processCompletedOrders_orders. exact H.
  - trivial.
  - split; [split; [exact I|reflexivity]|].
    split; [reflexivity|]. split; [reflexivity|].
    split; [exact taker_representable|]. left. split; reflexivity.
  - exact Hm.
Qed.

Lemma matching_conserved :
  unrounded (fst (MatchOrderFills rt c p st)) -> conserved rt c p st.
Proof.
  unfold conserved, MatchOrder, MatchOrderFills.
  destruct (matching rt c p st) as [[[done rem] st1] fills] eqn:Hm.
  pose proof (matching_conserves _ _ _ _ Hm) as R.
  cbn [fst snd]. intros Hu. fold R0.
  destruct done.
  - destruct R as ([Htr Heq] & Hz & Hfinal).
    destruct (finish_done rt p rem st1) as (-> & _).
    rewrite (unrounded_sum _ _ Htr Hu), <- Heq.
    rewrite (F2Q_zero _ Hz), (F2Q_zero _ Hfinal). reflexivity.
  - destruct R as ([Htr Heq] & Hprec & Hpp & Hheld & Hor).
    rewrite (unrounded_sum _ _ Htr Hu), <- Heq.
    destruct (Z_gt_le_dec (Sign rem) 0) as [Hgt|Hle].
    + destruct (finish_residual rt p rem st1 Hgt) as (-> & _).
      rewrite AddOrder_orders. unfold residualState, setOrder. cbn [orders].
      rewrite upd_eq.
      cbn [Order.Remaining Order.setUpdateTime Order.setStatus Order.setRemaining].
      unfold FSet. rewrite Hpp, Hheld. reflexivity.
    + destruct (finish_no_residual rt p false rem st1 Hle) as (-> & _).
      destruct Hor as [[-> Hsame]|Hs]; [|lia].
      rewrite Hsame. cbn in Heq. rewrite Heq. reflexivity.
Qed.
End Conservation.

(** C5, as the code has it.  In a call of model/match.go in which no
    [remaining.Sub(remaining, matchQty)] is rounded, the remaining quantity
    of the new order being a number of its own precision, the quantities of
    the trades add up to the remaining quantity of the new order before the
    call minus its remaining quantity after it - whether the order is
    filled, rests with what is left, or is refused by [AddOrder]. *)
Theorem matched_quantity_is_conserved rt p st :
  representable (Order.Remaining (orders st p)) ->
  unrounded (fst (MatchOrderFills rt ModelCopy p st)) ->
  conserved rt ModelCopy p st.
Proof.
  intros Hrep Hu.
  exact (matching_conserved rt ModelCopy p st Hrep Hu).
Qed.

Lemma matched_quantity_is_conserved_witness :
  conserved rt0 ModelCopy 3%nat buyOneAndAHalf
  /\ (tradedQty (fst (MatchOrder rt0 ModelCopy 3%nat buyOneAndAHalf)) == 3 # 2)%Q.
Proof.
  split.
  - apply matched_quantity_is_conserved.
    + vm_compute. reflexivity.
    + apply List.Forall_forall. intros f Hf. vm_compute in Hf.
      destruct Hf as [<-|[<-|[]]]; vm_compute; reflexivity.
  - vm_compute. reflexivity.
Defined.

(** C5 as the specification words it fails: with the quantities of
    TestMarketOrderMatching2 the one trade is of 0.2, while the market buy
    of 0.8 is left with 0.8 - 0.2 rounded to 53 bits, which is not 0.6. *)
Lemma rounding_breaks_conservation :
  ~ conserved rt0 ModelCopy 2%nat marketBuyOfEightTenths.
Proof.
  unfold conserved. intros H. vm_compute in H. discriminate H.
Qed.

(** ** The aggregate of a level (C9) *)

Lemma sumQ_app (l1 l2 : list Q) : (sumQ (l1 ++ l2) == sumQ l1 + sumQ l2)%Q.
Proof.
  unfold sumQ. induction l1 as [|x l1 IH]; cbn [app fold_right].
  - ring.
  - rewrite IH. ring.
Qed.

Lemma sumQ_ext {A} (g h : A -> Q) (l : list A) :
  (forall x, In x l -> (g x == h x)%Q) ->
  (sumQ (map g l) == sumQ (map h l))%Q.
Proof.
  unfold sumQ. induction l as [|x l IH]; intros H; [reflexivity|].
  cbn [map fold_right].
  rewrite (H x (or_introl eq_refl)).
  rewrite IH; [reflexivity|].
  intros y Hy. apply H. right. exact Hy.
Qed.

(** Changing the summand of [r] by [d] changes the sum by [d] for each
    place [r] has in the list. *)
Lemma sumQ_upd (g g' : ptr -> Q) (r : ptr) (d : Q) (l : list ptr) :
  (g' r == g r - d)%Q ->
  (forall x, x <> r -> (g' x == g x)%Q) ->
  (sumQ (map g' l) == sumQ (map g l) - inject_Z (Z.of_nat (count_occ Nat.eq_dec l r)) * d)%Q.
Proof.
  intros Hr Hx. unfold sumQ.
  induction l as [|x l IH]; cbn [map fold_right count_occ].
  - cbn. ring.
  - rewrite IH.
    destruct (Nat.eq_dec x r) as [->|Hne].
    + rewrite Hr, Nat2Z.inj_succ. unfold Z.succ. rewrite inject_Z_plus. ring.
    + rewrite (Hx x Hne). ring.
Qed.

Lemma aggregate_ok_ext st st' lp :
  PriceLevel.TotalQty (levels st' lp) = PriceLevel.TotalQty (levels st lp) ->
  PriceLevel.Orders (levels st' lp) = PriceLevel.Orders (levels st lp) ->
  (forall x, Order.Remaining (orders st' x) = Order.Remaining (orders st x)) ->
  aggregate_ok st lp -> aggregate_ok st' lp.
Proof.
  unfold aggregate_ok, sumRemaining, fifo. intros -> -> Hrem H.
  rewrite H. apply sumQ_ext. intros x _. rewrite Hrem. reflexivity.
Qed.

Lemma F2Q_NewFloat_zero : (F2Q (NewFloat 0 0) == 0)%Q.
Proof. reflexivity. Qed.

(** [AddOrder] keeps the aggregate when the sum is not rounded. *)
Lemma AddOrder_aggregate rt p st lp :
  exactAdd (aggregateFor rt p st) (aggregateFor rt p st)
           (Order.Remaining (orders st p)) ->
  aggregate_ok st lp -> aggregate_ok (snd (AddOrder rt p st)) lp.
Proof.
  intros Hex Hagg.
  unfold exactAdd, aggregateFor in Hex. unfold AddOrder.
  destruct (OrderBook.OrderMap (ob st) !! Order.OrderID (orders st p));
    [exact Hagg|].
  destruct (OrderBook.PriceLevels (ob st) !! FloatString rt (Order.Price (orders st p)))
    as [lv|]; cbn [snd].
  - unfold aggregate_ok, sumRemaining, fifo in *. cbn [levels orders].
    match goal with |- context [upd (levels st) lv ?l lp] =>
      destruct (upd_cases (levels st) lv lp l) as [[-> ->]|[_ ->]] end;
      [|exact Hagg].
    cbn [PriceLevel.TotalQty PriceLevel.Orders].
    rewrite !map_app, sumQ_app. cbn [map Element.Value].
    rewrite Hex, Hagg.
    unfold sumQ at 3. cbn [fold_right]. ring.
  - unfold aggregate_ok, sumRemaining, fifo in *. cbn [levels orders nextLevel].
    match goal with |- context [upd ?h (nextLevel st) ?l lp] =>
      destruct (upd_cases h (nextLevel st) lp l) as [[-> ->]|[Hne ->]] end.
    + rewrite upd_eq. cbn [PriceLevel.TotalQty PriceLevel.Orders app map Element.Value].
      rewrite Hex.
      unfold sumQ. cbn [fold_right]. rewrite F2Q_NewFloat_zero. ring.
    + rewrite upd_neq by exact Hne. exact Hagg.
Qed.

Lemma CancelOrder_ok rt id st p lv elem :
  OrderBook.OrderMap (ob st) !! id = Some p ->
  live (Order.Status (orders st p)) = true ->
  OrderBook.PriceLevels (ob st) !! FloatString rt (Order.Price (orders st p)) = Some lv ->
  PriceLevel.OrderMap (levels st lv) !! id = Some elem ->
  orders (snd (CancelOrder rt id st))
  = upd (orders st) p
      (Order.setUpdateTime (UnixNano rt (clock st))
         (Order.setStatus StatusCancelled (orders st p)))
  /\ levels (snd (CancelOrder rt id st))
     = upd (levels st) lv
         (PriceLevel.mk (PriceLevel.Price (levels st lv))
            (Sub (PriceLevel.TotalQty (levels st lv))
                 (PriceLevel.TotalQty (levels st lv))
                 (Order.Remaining (orders st p)))
            (Remove (PriceLevel.Orders (levels st lv)) elem)
            (delete id (PriceLevel.OrderMap (levels st lv)))).
Proof.
  intros H Hl Hlp He. unfold CancelOrder.
  rewrite H, not_live_test, Hl, Hlp, He. cbn [negb].
  destruct (length _ =? 0)%nat; split; reflexivity.
Qed.

Lemma Remove_notin (l : list Element.t) (a : eptr) :
  ~ In a (map Element.addr l) -> Remove l a = l.
Proof.
  induction l as [|e l IH]; intros Hn; [reflexivity|].
  unfold Remove in *. cbn [List.filter].
  destruct (Nat.eqb_spec (Element.addr e) a) as [Heq|Hne]; cbn [negb].
  - exfalso. apply Hn. left. exact Heq.
  - rewrite IH; [reflexivity|]. intros Hin. apply Hn. right. exact Hin.
Qed.

(** Taking the one element of address [a] out of a list takes its summand
    out of the sum. *)
Lemma sumQ_Remove (g : ptr -> Q) (l : list Element.t) (a : eptr) (v : ptr) :
  List.NoDup (map Element.addr l) ->
  In (Element.mk a v) l ->
  (sumQ (map g (map Element.Value l))
   == g v + sumQ (map g (map Element.Value (Remove l a))))%Q.
Proof.
  induction l as [|e l IH]; intros Hnd Hin; [contradiction|].
  cbn [map] in Hnd. apply List.NoDup_cons_iff in Hnd. destruct Hnd as [Hfresh Hnd].
  destruct Hin as [->|Hin].
  - unfold Remove. cbn [List.filter Element.addr]. rewrite Nat.eqb_refl. cbn [negb].
    fold (Remove l a). rewrite (Remove_notin l a Hfresh). reflexivity.
  - assert (Hne : Element.addr e <> a).
    { intros Heq. apply Hfresh. rewrite Heq.
      change a with (Element.addr (Element.mk a v)). apply in_map. exact Hin. }
    unfold Remove. cbn [List.filter].
    apply Nat.eqb_neq in Hne. rewrite Hne. cbn [negb map]. fold (Remove l a).
    unfold sumQ in *. cbn [fold_right]. rewrite (IH Hnd Hin). ring.
Qed.

(** [CancelOrder] keeps the aggregate when the difference is not rounded
    and the level's index leads to the one element that holds the order. *)
Lemma CancelOrder_aggregate rt id st p lv elem lp :
  OrderBook.OrderMap (ob st) !! id = Some p ->
  live (Order.Status (orders st p)) = true ->
  OrderBook.PriceLevels (ob st) !! FloatString rt (Order.Price (orders st p)) = Some lv ->
  PriceLevel.OrderMap (levels st lv) !! id = Some elem ->
  In (Element.mk elem p) (PriceLevel.Orders (levels st lv)) ->
  List.NoDup (map Element.addr (PriceLevel.Orders (levels st lv))) ->
  exactSub (PriceLevel.TotalQty (levels st lv)) (PriceLevel.TotalQty (levels st lv))
           (Order.Remaining (orders st p)) ->
  aggregate_ok st lp -> aggregate_ok (snd (CancelOrder rt id st)) lp.
Proof.
  intros H Hl Hlp He Hin Hnd Hex Hagg.
  destruct (CancelOrder_ok rt id st p lv elem H Hl Hlp He) as [Ho Hlv].
  assert (Hrem : forall x, Order.Remaining (orders (snd (CancelOrder rt id st)) x)
                           = Order.Remaining (orders st x)).
  { intros x. rewrite Ho.
    match goal with |- context [upd (orders st) p ?o x] =>
      destruct (upd_cases (orders st) p x o) as [[-> ->]|[_ ->]] end; reflexivity. }
  unfold aggregate_ok, sumRemaining, fifo, exactSub in *. rewrite Hlv.
  match goal with |- context [upd (levels st) lv ?l lp] =>
    destruct (upd_cases (levels st) lv lp l) as [[-> ->]|[_ ->]] end.
  - cbn [PriceLevel.TotalQty PriceLevel.Orders].
    rewrite Hex, Hagg.
    rewrite (sumQ_Remove (fun q => F2Q (Order.Remaining (orders st q)))
                         _ elem p Hnd Hin).
    rewrite (sumQ_ext
               (fun q => F2Q (Order.Remaining (orders (snd (CancelOrder rt id st)) q)))
               (fun q => F2Q (Order.Remaining (orders st q))))
      by (intros x _; rewrite Hrem; reflexivity).
    ring.
  - rewrite Hagg. apply sumQ_ext. intros x _. rewrite Hrem. reflexivity.
Qed.

(** The subtractions of one match keep the aggregate when they are not
    rounded and the resting order has one place, in its own level. *)
Lemma matchOne_aggregate rt lv p r rem st lp :
  exactSub (Order.Remaining (orders st r)) (Order.Remaining (orders st r))
           (matchQty rem (Order.Remaining (orders st r))) ->
  exactSub (PriceLevel.TotalQty (levels st lv)) (PriceLevel.TotalQty (levels st lv))
           (matchQty rem (Order.Remaining (orders st r))) ->
  count_occ Nat.eq_dec (fifo st lp) r = (if Nat.eqb lp lv then 1 else 0)%nat ->
  aggregate_ok st lp -> aggregate_ok (snd (matchOne rt lv p r rem st)) lp.
Proof.
  intros Hr Ht Hcount Hagg.
  pose proof (matchOne_orders rt lv p r rem st) as Ho.
  pose proof (matchOne_levels rt lv p r rem st) as Hl.
  cbv zeta in Ho, Hl.
  fold (matchQty rem (Order.Remaining (orders st r))) in Ho, Hl.
  set (q := matchQty rem (Order.Remaining (orders st r))) in *.
  unfold exactSub in Hr, Ht.
  assert (Hsum :
    (sumQ (map (fun x => F2Q (Order.Remaining
                                (orders (snd (matchOne rt lv p r rem st)) x)))
               (fifo st lp))
     == sumQ (map (fun x => F2Q (Order.Remaining (orders st x))) (fifo st lp))
        - inject_Z (Z.of_nat (count_occ Nat.eq_dec (fifo st lp) r)) * F2Q q)%Q).
  { apply sumQ_upd.
    - rewrite Ho, upd_eq.
      cbn [Order.Remaining Order.setUpdateTime Order.setStatus Order.setRemaining].
      exact Hr.
    - intros x Hx. rewrite Ho, upd_neq by exact Hx. reflexivity. }
  unfold aggregate_ok, sumRemaining in *. rewrite matchOne_fifo, Hsum, Hcount, Hl.
  destruct (Nat.eqb_spec lp lv) as [->|Hne].
  - rewrite upd_eq. cbn [PriceLevel.TotalQty].
    rewrite Ht, Hagg. cbn. ring.
  - rewrite upd_neq by exact Hne. rewrite Hagg. cbn. ring.
Qed.

(** C9, as the code has it.  For a level [lp] whose aggregate is the sum of
    the remaining quantities of its orders, that equality still holds after
    [AddOrder], after a successful [CancelOrder] and after the subtractions
    of one match, whenever the [Add] or the [Sub]s of that step are not
    rounded and the book is consistent (the level's index leads to the one
    element holding the cancelled order; the matched order has one place,
    in its own level). *)
Theorem aggregate_is_kept rt st lp :
  (forall p,
      exactAdd (aggregateFor rt p st) (aggregateFor rt p st)
               (Order.Remaining (orders st p)) ->
      aggregate_ok st lp -> aggregate_ok (snd (AddOrder rt p st)) lp)
  /\ (forall id p lv elem,
        OrderBook.OrderMap (ob st) !! id = Some p ->
        live (Order.Status (orders st p)) = true ->
        OrderBook.PriceLevels (ob st) !! FloatString rt (Order.Price (orders st p))
        = Some lv ->
        PriceLevel.OrderMap (levels st lv) !! id = Some elem ->
        In (Element.mk elem p) (PriceLevel.Orders (levels st lv)) ->
        List.NoDup (map Element.addr (PriceLevel.Orders (levels st lv))) ->
        exactSub (PriceLevel.TotalQty (levels st lv))
                 (PriceLevel.TotalQty (levels st lv))
                 (Order.Remaining (orders st p)) ->
        aggregate_ok st lp -> aggregate_ok (snd (CancelOrder rt id st)) lp)
  /\ (forall lv p r rem,
        exactSub (Order.Remaining (orders st r)) (Order.Remaining (orders st r))
                 (matchQty rem (Order.Remaining (orders st r))) ->
        exactSub (PriceLevel.TotalQty (levels st lv))
                 (PriceLevel.TotalQty (levels st lv))
                 (matchQty rem (Order.Remaining (orders st r))) ->
        count_occ Nat.eq_dec (fifo st lp) r = (if Nat.eqb lp lv then 1 else 0)%nat ->
        aggregate_ok st lp -> aggregate_ok (snd (matchOne rt lv p r rem st)) lp).
Proof.
  split; [|split].
  - intros p. apply AddOrder_aggregate.
  - intros id p lv elem. apply CancelOrder_aggregate.
  - intros lv p r rem. apply matchOne_aggregate.
Qed.

Lemma aggregate_is_kept_witness :
  aggregate_ok (snd (AddOrder rt0 3%nat fractionalAsks)) 0%nat
  /\ aggregate_ok (snd (CancelOrder rt0 "s1" fractionalAsks)) 0%nat
  /\ aggregate_ok
       (snd (matchOne rt0 0%nat 3%nat 1%nat (NewFloat 1 (-2)) fractionalAsks)) 0%nat.
Proof.
  destruct (aggregate_is_kept rt0 fractionalAsks 0%nat) as (HA & HB & HC).
  assert (Hagg : aggregate_ok fractionalAsks 0%nat) by (vm_compute; reflexivity).
  split; [|split].
  - apply HA; [vm_compute; reflexivity|exact Hagg].
  - apply (HB "s1" 1%nat 0%nat 0%nat); try exact Hagg;
      try (vm_compute; reflexivity).
    + vm_compute. left. reflexivity.
    + vm_compute.
      apply List.NoDup_cons; [intros [H|[]]; discriminate H|].
      apply List.NoDup_cons; [intros []|apply List.NoDup_nil].
  - apply (HC 0%nat 3%nat 1%nat (NewFloat 1 (-2))); try exact Hagg;
      vm_compute; reflexivity.
Defined.

(** C9 as the specification words it fails on [AddOrder]: a second ask of
    0.2 joins an ask of 0.1 at 100, and the aggregate, the sum rounded to 53
    bits, is no longer the sum of the two. *)
Lemma rounding_breaks_aggregate :
  ~ AddOrder_keeps_aggregate rt0 2%nat secondAskAtSamePrice.
Proof.
  intros H.
  assert (Hagg : aggregate_ok secondAskAtSamePrice 0%nat) by (vm_compute; reflexivity).
  specialize (H 0%nat Hagg). vm_compute in H. discriminate H.
Qed.

(** * Further properties of the code *)

(** ** Orders that rest through [MatchOrder] are out of reach *)

Lemma AddOrder_fifo_in rt p st lp x :
  In x (fifo (snd (AddOrder rt p st)) lp) -> In x (fifo st lp) \/ x = p.
Proof.
  unfold AddOrder.
  destruct (OrderBook.OrderMap (ob st) !! Order.OrderID (orders st p)); [auto|].
  destruct (OrderBook.PriceLevels (ob st) !! _) as [lv|]; cbn [snd];
    unfold fifo; cbn [levels nextLevel].
  - match goal with |- context [upd (levels st) lv ?l lp] =>
      destruct (upd_cases (levels st) lv lp l) as [[-> ->]|[_ ->]] end; [|auto].
    cbn [PriceLevel.Orders]. rewrite map_app, in_app_iff. cbn.
    intros [H|[H|[]]]; auto.
  - match goal with |- context [upd ?h (nextLevel st) ?l lp] =>
      destruct (upd_cases h (nextLevel st) lp l) as [[-> ->]|[Hne ->]] end.
    + rewrite upd_eq. cbn. intros [H|[]]; auto.
    + rewrite upd_neq by exact Hne. auto.
Qed.

Lemma matching_idle rt c p st done rem st1 fills :
  noPendingResting st ->
  matching rt c p st = (done, rem, st1, fills) ->
  done = false /\ fills = [] /\ rem = Order.Remaining (orders st p)
  /\ orders st1 = orders st /\ noPendingResting st1.
Proof.
  intros Hidle Hm.
  set (Inv := fun (fs : list Fill) (r : Float) (s : State) =>
                fs = [] /\ r = Order.Remaining (orders st p)
                /\ orders s = orders st /\ noPendingResting s).
  assert (R : if done then False else Inv fills rem st1).
  { apply (matching_rule rt p (fun _ => True) Inv (fun _ _ _ => False))
      with (c := c) (st := st).
    - intros lv r rem0 s fills0 f rem' s' _ (_ & _ & _ & Hs) Hr Hp _.
      exfalso. exact (Hs lv r Hr Hp).
    - intros lv fills0 rem0 s _ (H1 & H2 & H3 & H4).
      split; [exact H1|]. split; [exact H2|].
      split; [rewrite processCompletedOrders_orders; exact H3|].
      intros lp x Hx. rewrite processCompletedOrders_orders.
      apply (H4 lp x). eapply processCompletedOrders_fifo. exact Hx.
    - intros lv fills0 rem0 s _ [].
    - trivial.
    - repeat split. exact Hidle.
    - exact Hm. }
  destruct done; [contradiction|].
  destruct R as (H1 & H2 & H3 & H4). auto.
Qed.

Lemma MatchOrder_passes_over rt c p st :
  noPendingResting st ->
  fst (MatchOrder rt c p st) = []
  /\ noPendingResting (snd (MatchOrder rt c p st)).
Proof.
  intros Hidle. unfold MatchOrder, MatchOrderFills.
  destruct (matching rt c p st) as [[[done rem] st1] fills] eqn:Hm.
  destruct (matching_idle rt c p st done rem st1 fills Hidle Hm)
    as (-> & -> & _ & _ & Hidle1).
  split; [reflexivity|]. cbn [snd].
  destruct (Z_gt_le_dec (Sign rem) 0) as [Hgt|Hle].
  - destruct (finish_residual rt p rem st1 Hgt) as (Ho & Hl & _).
    intros lp x Hx. unfold fifo in Hx. rewrite Hl in Hx. rewrite Ho.
    rewrite AddOrder_orders.
    apply AddOrder_fifo_in in Hx.
    unfold residualState, setOrder in *. cbn [orders levels now snd fifo] in *.
    match goal with |- context [upd (orders st1) p ?o x] =>
      destruct (upd_cases (orders st1) p x o) as [[-> ->]|[Hne ->]] end.
    + discriminate.
    + destruct Hx as [Hx| ->]; [|contradiction]. exact (Hidle1 lp x Hx).
  - destruct (finish_no_residual rt p false rem st1 Hle) as (Ho & Hl & _).
    intros lp x Hx. unfold fifo in Hx. rewrite Hl in Hx. rewrite Ho.
    exact (Hidle1 lp x Hx).
Qed.

(** X1.  While no resting order is pending, [MatchOrder] trades nothing, and the
    order it may rest is not pending either: match.go:55 lets only pending
    orders trade and match.go:120 rests every order as partially_filled. *)
Theorem MatchOrder_idle rt c p st :
  noPendingResting st ->
  fst (MatchOrder rt c p st) = []
  /\ noPendingResting (snd (MatchOrder rt c p st)).
Proof.
  exact (MatchOrder_passes_over rt c p st).
Qed.

Lemma MatchOrder_idle_witness :
  fst (MatchOrder rt0 ModelCopy 2%nat buyAgainstSell) = []
  /\ noPendingResting (snd (MatchOrder rt0 ModelCopy 2%nat buyAgainstSell)).
Proof.
  apply MatchOrder_idle.
  intros lp x Hx.
  destruct lp as [|lp]; vm_compute in Hx; [|contradiction].
  destruct Hx as [<-|[]]. vm_compute. discriminate.
Defined.

Lemma processOrder_idle rt order me :
  noPendingResting (store me) ->
  fst (processOrder rt order me) = None
  /\ noPendingResting (store (snd (processOrder rt order me))).
Proof.
  intros Hidle. unfold processOrder.
  destruct (OrderBooks me !! Order.Symbol (orders (store me) order)) as [b|].
  - destruct (MatchOrder_passes_over rt ModelCopy order (setBook b (store me)) Hidle)
      as [Ht Hs].
    destruct (MatchOrder rt ModelCopy order (setBook b (store me))) as [trades st'].
    cbn [fst snd] in *. subst trades. split; [reflexivity|exact Hs].
  - cbn [now].
    match goal with |- context [MatchOrder rt ModelCopy order ?s] =>
      destruct (MatchOrder_passes_over rt ModelCopy order s Hidle) as [Ht Hs];
      destruct (MatchOrder rt ModelCopy order s) as [trades st'] end.
    cbn [fst snd] in *. subst trades. split; [reflexivity|exact Hs].
Qed.

(** X2.  An engine in whose store no resting order is pending - a new engine in
    particular - never sends a batch of trades, whatever orders it receives
    and in whatever order: each order it is sent comes to rest
    partially_filled (match.go:120) and is then passed over by the matching
    of the orders after it (match.go:55). *)
Theorem orderProcessor_never_sends rt received me :
  noPendingResting (store me) ->
  fst (orderProcessor rt received me) = []
  /\ noPendingResting (store (snd (orderProcessor rt received me))).
Proof.
  revert me. induction received as [|order rest IH]; intros me Hidle.
  - split; [reflexivity|exact Hidle].
  - cbn [orderProcessor].
    destruct (processOrder_idle rt order me Hidle) as [Hsent Hidle1].
    destruct (processOrder rt order me) as [sent me1]. cbn [fst snd] in *.
    destruct (IH me1 Hidle1) as [Hb Hidle2].
    destruct (orderProcessor rt rest me1) as [batches me2]. cbn [fst snd] in *.
    subst sent batches. split; [reflexivity|exact Hidle2].
Qed.

Lemma orderProcessor_never_sends_witness :
  fst (orderProcessor rt0 [2%nat; 3%nat; 1%nat] testLimitOrderMatching1) = []
  /\ noPendingResting
       (store (snd (orderProcessor rt0 [2%nat; 3%nat; 1%nat] testLimitOrderMatching1))).
Proof.
  apply orderProcessor_never_sends.
  intros lp x Hx. vm_compute in Hx. contradiction.
Defined.

(** ** The makers of one call *)

Lemma Sign_round (p : positive) (m e : Z) : Sign (round p (m, e)) = Z.sgn m.
Proof.
  unfold Sign. destruct (Z.lt_trichotomy m 0) as [Hn|[->|Hp]].
  - unfold round. destruct (bitlen m <=? Z.pos p) eqn:E; [reflexivity|].
    cbn [mant]. apply Z.leb_gt in E.
    pose proof (round_pos p (- m) e ltac:(lia)) as H.
    unfold round in H.
    replace (bitlen (- m)) with (bitlen m) in H
      by (unfold bitlen; rewrite Z.abs_opp; reflexivity).
    destruct (bitlen m <=? Z.pos p) eqn:E'; [apply Z.leb_le in E'; lia|].
    cbn [mant] in H. rewrite Z.abs_opp in H.
    rewrite (Z.sgn_pos (- m)) in H by lia.
    rewrite (Z.sgn_neg m) by lia.
    rewrite Z.sgn_neg; [reflexivity|].
    destruct (if 2 * (Z.abs m mod 2 ^ (bitlen m - Z.pos p)) <? 2 ^ (bitlen m - Z.pos p)
              then false
              else if 2 * (Z.abs m mod 2 ^ (bitlen m - Z.pos p))
                      =? 2 ^ (bitlen m - Z.pos p)
                   then Z.odd (Z.shiftr (Z.abs m) (bitlen m - Z.pos p)) else true);
      lia.
  - rewrite round_small by (change (bitlen 0) with 0; lia). reflexivity.
  - rewrite (Z.sgn_pos m) by lia. apply Z.sgn_pos, round_pos, Hp.
Qed.

Lemma Sign_FSet (z x : Float) : Sign (FSet z x) = Sign x.
Proof. unfold FSet, exact. apply Sign_round. Qed.

Lemma NoDup_snoc (l : list ptr) (x : ptr) :
  List.NoDup l -> ~ In x l -> List.NoDup (l ++ [x]).
Proof.
  intros Hl Hx. apply List.NoDup_app; [exact Hl| |].
  - apply List.NoDup_cons; [intros []|apply List.NoDup_nil].
  - intros a Ha [<-|[]]. exact (Hx Ha).
Qed.

Lemma matchOne_settled rt lv p r rem st :
  settled (snd (matchOne rt lv p r rem st)) r.
Proof.
  unfold settled. rewrite matchOne_orders, upd_eq.
  cbn [Order.Status Order.Remaining Order.setUpdateTime Order.setStatus
       Order.setRemaining].
  destruct (Sign _ =? 0) eqn:E.
  - left. split; [reflexivity|apply Z.eqb_eq, E].
  - right. split; [reflexivity|apply Z.eqb_neq, E].
Qed.

Section Makers.
Variable rt : Runtime.
Variables (c : copy) (p : ptr) (st : State).

Let Inv (fills : list Fill) (rem : Float) (s : State) : Prop :=
  frame st s
  /\ List.NoDup (map fill_maker fills)
  /\ Forall (fun f => Order.Status (orders st (fill_maker f)) = StatusPending
                      /\ settled s (fill_maker f)) fills.

Lemma settled_not_pending s q : settled s q -> Order.Status (orders s q) <> StatusPending.
Proof. intros [[H _]|[H _]]; rewrite H; discriminate. Qed.

Lemma makers_step lv r rem s fills f rem' s' :
  Inv fills rem s ->
  Order.Status (orders s r) = StatusPending ->
  matchOne rt lv p r rem s = (f, rem', s') ->
  if Sign rem' =? 0
  then Inv (fills ++ [f]) rem'
           (fillNewOrder p rem' (Trade.TradeTime (fill_trade f)) s')
  else Inv (fills ++ [f]) rem' s'.
Proof.
  intros (HF & Hnd & Hall) Hp E.
  pose proof (matchOne_fill rt lv p r rem s) as Hf.
  pose proof (matchOne_orders rt lv p r rem s) as Ho.
  pose proof (matchOne_frame rt lv p r rem s) as HF1.
  pose proof (matchOne_settled rt lv p r rem s) as Hset.
  rewrite E in Hf, Ho, HF1, Hset. cbn [fst snd] in Hf, Ho, HF1, Hset.
  cbv zeta in Hf, Ho. clear E.
  assert (Hmk : fill_maker f = r) by (rewrite Hf; reflexivity).
  assert (Hnew : ~ In r (map fill_maker fills)).
  { intros Hin. apply in_map_iff in Hin. destruct Hin as (g & Hg & Hin).
    rewrite List.Forall_forall in Hall. destruct (Hall g Hin) as [_ Hs].
    rewrite Hg in Hs. exact (settled_not_pending s r Hs Hp). }
  assert (Hentry : Order.Status (orders st r) = StatusPending).
  { destruct HF as (_ & _ & _ & _ & Hsame). rewrite <- (Hsame r Hp). exact Hp. }
  assert (Hkeep : forall q, In q (map fill_maker fills) -> settled s q -> settled s' q).
  { intros q Hq Hs. unfold settled. rewrite Ho, upd_neq; [exact Hs|].
    intros ->. exact (Hnew Hq). }
  assert (H1 : Inv (fills ++ [f]) rem' s').
  { split; [eapply frame_trans; [exact HF|exact HF1]|].
    split; [rewrite map_app; cbn [map]; rewrite Hmk; apply NoDup_snoc; assumption|].
    apply Forall_app. split.
    - rewrite List.Forall_forall in *. intros g Hg. destruct (Hall g Hg) as [Ha Hb].
      split; [exact Ha|]. apply Hkeep; [apply in_map; exact Hg|exact Hb].
    - constructor; [|constructor]. rewrite Hmk. split; [exact Hentry|exact Hset]. }
  destruct (Sign rem' =? 0) eqn:Ez; [|exact H1].
  apply Z.eqb_eq in Ez.
  destruct H1 as (HFa & Hnda & Halla).
  split; [eapply frame_trans; [exact HFa|apply fillNewOrder_frame]|].
  split; [exact Hnda|].
  rewrite List.Forall_forall in *. intros g Hg. destruct (Halla g Hg) as [Ha Hb].
  split; [exact Ha|].
  unfold settled, fillNewOrder, setOrder. cbn [orders].
  match goal with |- context [upd (orders s') p ?o (fill_maker g)] =>
    destruct (upd_cases (orders s') p (fill_maker g) o) as [[-> ->]|[_ ->]] end;
    [|exact Hb].
  left. split; [reflexivity|].
  cbn [Order.Remaining Order.setUpdateTime Order.setStatus Order.setRemaining].
  rewrite Sign_FSet. exact Ez.
Qed.

Lemma matching_makers done rem st1 fills :
  matching rt c p st = (done, rem, st1, fills) ->
  Inv fills rem st1.
Proof.
  intros Hm.
  assert (R : if done then Inv fills rem st1 else Inv fills rem st1).
  { apply (matching_rule rt p (fun _ => True) Inv Inv) with (c := c) (st := st).
    - intros lv r rem0 s fills0 f rem' s' _ HI _ Hp E.
      exact (makers_step lv r rem0 s fills0 f rem' s' HI Hp E).
    - intros lv fills0 rem0 s _ (HF & Hnd & Hall).
      split; [eapply frame_trans; [exact HF|apply processCompletedOrders_frame]|].
      split; [exact Hnd|].
      unfold settled in *. rewrite processCompletedOrders_orders. exact Hall.
    - intros lv fills0 rem0 s _ (HF & Hnd & Hall).
      split; [eapply frame_trans; [exact HF|apply processCompletedOrders_frame]|].
      split; [exact Hnd|].
      unfold settled in *. rewrite processCompletedOrders_orders. exact Hall.
    - trivial.
    - split; [apply frame_refl|]. split; [apply List.NoDup_nil|constructor].
    - exact Hm. }
  destruct done; exact R.
Qed.
End Makers.

(** X3.  No resting order trades twice in one call of [MatchOrder]: the makers of
    its trades are distinct orders, each pending on entry; and when the call
    returns each of them is filled if it has nothing left and
    partially_filled otherwise (match.go:55 and 89-97). *)
Theorem makers_trade_once rt c p st :
  List.NoDup (map fill_maker (fst (MatchOrderFills rt c p st)))
  /\ Forall (fun f =>
               Order.Status (orders st (fill_maker f)) = StatusPending
               /\ settled (snd (MatchOrderFills rt c p st)) (fill_maker f))
            (fst (MatchOrderFills rt c p st)).
Proof.
  unfold MatchOrderFills.
  destruct (matching rt c p st) as [[[done rem] st1] fills] eqn:Hm.
  destruct (matching_makers rt c p st done rem st1 fills Hm) as (_ & Hnd & Hall).
  cbn [fst snd]. split; [exact Hnd|].
  rewrite List.Forall_forall in *. intros f Hf. destruct (Hall f Hf) as [Ha Hb].
  split; [exact Ha|].
  destruct (matching_frame _ _ _ _ _ _ _ _ Hm) as [_ Hdone].
  destruct (Z_gt_le_dec (Sign rem) 0) as [Hgt|Hle].
  - assert (done = false) as ->.
    { destruct done; [|reflexivity]. destruct (Hdone eq_refl) as [_ Hz]. lia. }
    destruct (finish_residual rt p rem st1 Hgt) as (Ho & _).
    unfold settled. rewrite Ho, AddOrder_orders.
    unfold residualState, setOrder. cbn [orders now snd].
    match goal with |- context [upd (orders st1) p ?o (fill_maker f)] =>
      destruct (upd_cases (orders st1) p (fill_maker f) o) as [[-> ->]|[_ ->]] end;
      [|exact Hb].
    right. split; [reflexivity|].
    cbn [Order.Remaining Order.setUpdateTime Order.setStatus Order.setRemaining].
    rewrite Sign_FSet. lia.
  - destruct (finish_no_residual rt p done rem st1 Hle) as (Ho & _).
    unfold settled. rewrite Ho. exact Hb.
Qed.

(** ** Price-time priority *)

Lemma fillNewOrder_fifo p rem t st lp : fifo (fillNewOrder p rem t st) lp = fifo st lp.
Proof. reflexivity. Qed.

Lemma walkOrders_run rt lv p es :
  forall rem s fills c rem' s' fills',
    walkOrders rt lv p es rem s fills = (c, rem', s', fills') ->
    (forall lp, fifo s' lp = fifo s lp)
    /\ exists here,
        fills' = fills ++ here
        /\ Forall (fun f => fill_level f = lv) here
        /\ sublist (map fill_maker here) (map Element.Value es).
Proof.
  induction es as [|e es IH]; intros rem s fills c rem' s' fills' Hw.
  - cbn in Hw. inversion Hw; subst. split; [reflexivity|].
    exists []. rewrite app_nil_r. repeat split; constructor.
  - cbn [walkOrders] in Hw.
    destruct (bool_decide _) in Hw.
    + destruct (IH _ _ _ _ _ _ _ Hw) as (Hfifo & here & -> & Hlv & Hsub).
      split; [exact Hfifo|]. exists here. repeat split; [exact Hlv|].
      cbn [map]. apply sublist_cons. exact Hsub.
    + pose proof (matchOne_fill rt lv p (Element.Value e) rem s) as Hf.
      pose proof (matchOne_fifo rt lv p (Element.Value e) rem s) as Hff.
      destruct (matchOne rt lv p (Element.Value e) rem s) as [[f rem1] s1].
      cbn [fst snd] in Hf, Hff. cbv zeta in Hf.
      assert (Hlevel : fill_level f = lv) by (rewrite Hf; reflexivity).
      assert (Hmaker : fill_maker f = Element.Value e) by (rewrite Hf; reflexivity).
      clear Hf.
      destruct (Sign rem1 =? 0).
      * injection Hw as Hc Hr Hs Hfs. subst c rem' s' fills'.
        split; [intros lp; rewrite fillNewOrder_fifo; apply Hff|].
        exists [f]. repeat split.
        -- constructor; [exact Hlevel|constructor].
        -- cbn [map]. rewrite Hmaker. apply sublist_skip, sublist_nil_l.
      * destruct (IH _ _ _ _ _ _ _ Hw) as (Hfifo & here & -> & Hlv & Hsub).
        split; [intros lp; rewrite Hfifo; apply Hff|].
        exists (f :: here). rewrite <- app_assoc. repeat split.
        -- constructor; assumption.
        -- cbn [map]. rewrite Hmaker. apply sublist_skip. exact Hsub.
Qed.

Lemma filter_sublist (g : Element.t -> bool) (l : list Element.t) :
  sublist (map Element.Value (List.filter g l)) (map Element.Value l).
Proof.
  induction l as [|e l IH]; cbn [List.filter map]; [constructor|].
  destruct (g e); cbn [map]; [apply sublist_skip|apply sublist_cons]; exact IH.
Qed.

Lemma processCompletedOrders_shrunk rt lv st : shrunk st (processCompletedOrders rt lv st).
Proof.
  intros lp. unfold fifo. rewrite processCompletedOrders_levels.
  match goal with |- context [upd (levels st) lv ?l lp] =>
    destruct (upd_cases (levels st) lv lp l) as [[-> ->]|[_ ->]] end;
    [|reflexivity].
  cbn [PriceLevel.Orders]. apply filter_sublist.
Qed.

Lemma priceTime_nil st items : priceTime st items [].
Proof.
  induction items as [|item rest IH]; cbn; [reflexivity|].
  exists [], []. split; [reflexivity|]. split; [constructor|].
  split; [apply sublist_nil_l|exact IH].
Qed.

Lemma matchLevels_priceTime rt p st items :
  forall rem s fills c rem' s' fills',
    shrunk st s ->
    matchLevels rt items p rem s fills = (c, rem', s', fills') ->
    shrunk st s'
    /\ exists runs, fills' = fills ++ runs /\ priceTime st items runs.
Proof.
  induction items as [|item rest IH]; intros rem s fills c rem' s' fills' Hsh Hm.
  - cbn in Hm. inversion Hm; subst. split; [exact Hsh|].
    exists []. rewrite app_nil_r. split; reflexivity.
  - cbn [matchLevels] in Hm. unfold traversePriceLevel in Hm.
    destruct (negb (isMatch _ _ _)).
    + inversion Hm; subst. split; [exact Hsh|].
      exists []. rewrite app_nil_r. split; [reflexivity|apply priceTime_nil].
    + destruct (walkOrders _ _ _ _ _ _ _) as [[[c1 rem1] s1] fills1] eqn:Hw.
      destruct (walkOrders_run _ _ _ _ _ _ _ _ _ _ _ Hw)
        as (Hfifo & here & -> & Hlv & Hsub).
      fold (fifo s (PriceLevelItem.Level item)) in Hsub.
      assert (Hsh1 : shrunk st (processCompletedOrders rt (PriceLevelItem.Level item) s1)).
      { intros lp. transitivity (fifo s1 lp);
          [apply processCompletedOrders_shrunk|]. rewrite Hfifo. apply Hsh. }
      assert (Hhere : sublist (map fill_maker here) (fifo st (PriceLevelItem.Level item)))
        by (transitivity (fifo s (PriceLevelItem.Level item)); [exact Hsub|apply Hsh]).
      destruct c1; cbn [negb] in Hm.
      * inversion Hm; subst. split; [exact Hsh1|].
        exists here. split; [reflexivity|].
        cbn. exists here, []. rewrite app_nil_r.
        repeat split; [exact Hlv|exact Hhere|apply priceTime_nil].
      * destruct (IH _ _ _ _ _ _ _ Hsh1 Hm) as (Hsh2 & later & -> & Hlater).
        split; [exact Hsh2|].
        exists (here ++ later). rewrite app_assoc. split; [reflexivity|].
        cbn. exists here, later. repeat split; assumption.
Qed.

Lemma matching_priceTime rt c p st :
  priceTime st
    (oppositeLevels c (Order.Side (orders st p)) (ob st))
    (fst (MatchOrderFills rt c p st)).
Proof.
  unfold MatchOrderFills, matching.
  destruct (matchLevels _ _ _ _ _ _) as [[[done rem] st1] fills] eqn:Hm.
  cbn [fst].
  destruct (matchLevels_priceTime rt p st _ _ _ _ _ _ _ _
              (fun lp => reflexivity (fifo st lp)) Hm) as (_ & runs & -> & Hruns).
  exact Hruns.
Qed.

(** X4.  The fills of [MatchOrder] keep price-time priority over the opposite
    levels as the tree hands them over: one run of fills per level, the
    levels in traversal order, and within a level the makers in the order
    of its FIFO (match.go:39-50). *)
Theorem fills_keep_price_time_priority rt c p st :
  priceTime st
    (oppositeLevels c (Order.Side (orders st p)) (ob st))
    (fst (MatchOrderFills rt c p st)).
Proof.
  exact (matching_priceTime rt c p st).
Qed.

(** ** Best price first *)

Lemma SS_app {A} (R : A -> A -> Prop) (l1 l2 : list A) :
  StronglySorted R l1 -> StronglySorted R l2 ->
  (forall x y, In x l1 -> In y l2 -> R x y) ->
  StronglySorted R (l1 ++ l2).
Proof.
  induction l1 as [|a l1 IH]; intros H1 H2 Hc; [exact H2|].
  cbn [app]. inversion H1 as [|? ? Hs Hf]; subst. constructor.
  - apply IH; [exact Hs|exact H2|]. intros x y Hx Hy. apply Hc; [right; exact Hx|exact Hy].
  - apply Forall_app. split; [exact Hf|].
    apply List.Forall_forall. intros y Hy. apply Hc; [left; reflexivity|exact Hy].
Qed.

Lemma SS_rev {A} (R : A -> A -> Prop) (l : list A) :
  StronglySorted R l -> StronglySorted (fun a b => R b a) (rev l).
Proof.
  induction 1 as [|a l Hs IH Hf]; cbn [rev]; [constructor|].
  apply SS_app; [exact IH|constructor; constructor|].
  intros x y Hx [<-|[]]. apply in_rev in Hx.
  rewrite List.Forall_forall in Hf. apply Hf, Hx.
Qed.

Lemma SS_impl_in {A} (R R' : A -> A -> Prop) (l : list A) :
  StronglySorted R l ->
  (forall a b, In a l -> In b l -> R a b -> R' a b) ->
  StronglySorted R' l.
Proof.
  induction 1 as [|a l Hs IH Hf]; intros Himp; constructor.
  - apply IH. intros x y Hx Hy. apply Himp; right; assumption.
  - rewrite List.Forall_forall in *. intros y Hy.
    apply Himp; [left; reflexivity|right; exact Hy|apply Hf, Hy].
Qed.

Lemma SS_chain {A} (R : A -> A -> Prop) (l : list A) :
  StronglySorted R l -> chain R l.
Proof.
  induction 1 as [|a l Hs IH Hf]; cbn [chain]; [exact I|].
  destruct l as [|b l]; [exact I|].
  split; [|exact IH]. inversion Hf; assumption.
Qed.

Lemma SS_const {A} (R : A -> A -> Prop) (x : A) (l : list A) :
  R x x -> Forall (fun y => y = x) l -> StronglySorted R l.
Proof.
  intros Hx Hall. induction l as [|y l IH]; constructor.
  - apply IH. inversion Hall; assumption.
  - inversion Hall as [|? ? Hy Hl]; subst.
    apply List.Forall_forall. intros z Hz.
    rewrite List.Forall_forall in Hl. rewrite (Hl z Hz). exact Hx.
Qed.

Lemma priceTime_levels st items :
  forall fs f, priceTime st items fs -> In f fs ->
               exists item, In item items /\ fill_level f = PriceLevelItem.Level item.
Proof.
  induction items as [|item rest IH]; intros fs f Hpt Hin; cbn in Hpt.
  - subst fs. contradiction.
  - destruct Hpt as (here & later & -> & Hlv & _ & Hlater).
    apply in_app_iff in Hin. destruct Hin as [Hin|Hin].
    + exists item. split; [left; reflexivity|].
      rewrite List.Forall_forall in Hlv. apply Hlv, Hin.
    + destruct (IH later f Hlater Hin) as (it & Hit & Hf).
      exists it. split; [right; exact Hit|exact Hf].
Qed.

(** Fills with price-time priority over levels sorted by [R] have level
    prices sorted by [R]. *)
Lemma priceTime_sorted st (R : Float -> Float -> Prop) items :
  (forall x, R x x) ->
  StronglySorted (fun a b => R (levelPrice st a) (levelPrice st b)) items ->
  forall fs, priceTime st items fs ->
    StronglySorted R (map (fun f => PriceLevel.Price (levels st (fill_level f))) fs).
Proof.
  intros Hrefl. induction 1 as [|item rest Hs IH Hf]; intros fs Hpt; cbn in Hpt.
  - subst fs. constructor.
  - destruct Hpt as (here & later & -> & Hlv & _ & Hlater).
    rewrite map_app. apply SS_app.
    + apply (SS_const R (levelPrice st item)); [apply Hrefl|].
      apply List.Forall_forall. intros y Hy. apply in_map_iff in Hy.
      destruct Hy as (f & <- & Hin).
      rewrite List.Forall_forall in Hlv. rewrite (Hlv f Hin). reflexivity.
    + apply IH, Hlater.
    + intros x y Hx Hy. apply in_map_iff in Hx, Hy.
      destruct Hx as (f & <- & Hfin). destruct Hy as (g & <- & Hgin).
      rewrite List.Forall_forall in Hlv, Hf. rewrite (Hlv f Hfin).
      destruct (priceTime_levels st rest later g Hlater Hgin) as (it & Hit & ->).
      exact (Hf it Hit).
Qed.

Lemma matching_fill_price rt c p st done rem st1 fills :
  matching rt c p st = (done, rem, st1, fills) ->
  Forall (fun f => Trade.Price (fill_trade f)
                   = PriceLevel.Price (levels st (fill_level f))) fills.
Proof.
  intros Hm.
  set (Inv := fun (fs : list Fill) (_ : Float) (s : State) =>
                frame st s
                /\ Forall (fun f => Trade.Price (fill_trade f)
                                    = PriceLevel.Price (levels st (fill_level f))) fs).
  assert (R : if done then Inv fills rem st1 else Inv fills rem st1).
  { apply (matching_rule rt p (fun _ => True) Inv Inv) with (c := c) (st := st).
    - intros lv r rem0 s fills0 f rem' s' _ [HF Hall] _ _ E.
      pose proof (matchOne_fill rt lv p r rem0 s) as Hf.
      pose proof (matchOne_frame rt lv p r rem0 s) as HF1.
      rewrite E in Hf, HF1. cbn [fst snd] in Hf, HF1. cbv zeta in Hf. clear E.
      assert (Hp : Trade.Price (fill_trade f)
                   = PriceLevel.Price (levels st (fill_level f))).
      { rewrite Hf. cbn [fill_trade fill_level Trade.Price].
        destruct HF as (_ & Hprice & _). apply Hprice. }
      assert (Hall' : Forall (fun f0 => Trade.Price (fill_trade f0)
                                = PriceLevel.Price (levels st (fill_level f0)))
                             (fills0 ++ [f]))
        by (apply Forall_app; split; [exact Hall|constructor; [exact Hp|constructor]]).
      destruct (Sign rem' =? 0); (split; [|exact Hall']).
      + eapply frame_trans; [exact HF|].
        eapply frame_trans; [exact HF1|apply fillNewOrder_frame].
      + eapply frame_trans; [exact HF|exact HF1].
    - intros lv fills0 rem0 s _ [HF Hall]. split; [|exact Hall].
      eapply frame_trans; [exact HF|apply processCompletedOrders_frame].
    - intros lv fills0 rem0 s _ [HF Hall]. split; [|exact Hall].
      eapply frame_trans; [exact HF|apply processCompletedOrders_frame].
    - trivial.
    - split; [apply frame_refl|constructor].
    - exact Hm. }
  destruct done; apply R.
Qed.

Lemma fills_level_prices_sorted rt c p st (R : Float -> Float -> Prop) :
  (forall x, R x x) ->
  StronglySorted (fun a b => R (levelPrice st a) (levelPrice st b))
                 (oppositeLevels c (Order.Side (orders st p)) (ob st)) ->
  chain R (levelPrices st (fst (MatchOrderFills rt c p st))).
Proof.
  intros Hrefl Hsorted.
  apply SS_chain.
  exact (priceTime_sorted st R _ Hrefl Hsorted _ (matching_priceTime rt c p st)).
Qed.

Lemma prices_levelPrices rt c p st :
  prices (fst (MatchOrder rt c p st)) = levelPrices st (fst (MatchOrderFills rt c p st)).
Proof.
  unfold MatchOrder, MatchOrderFills.
  destruct (matching rt c p st) as [[[done rem] st1] fills] eqn:Hm.
  cbn [fst].
  pose proof (matching_fill_price _ _ _ _ _ _ _ _ Hm) as Hprice.
  unfold prices, levelPrices. rewrite map_map.
  apply map_ext_in. rewrite List.Forall_forall in Hprice. exact Hprice.
Qed.

Lemma Less_lt a b : PriceLevelItem.Less a b = true ->
                    Cmp (PriceLevelItem.Price a) (PriceLevelItem.Price b) < 0.
Proof. unfold PriceLevelItem.Less. intros H. apply Z.ltb_lt in H. exact H. Qed.

(** X5.  With both trees in ascending price order, the fills of a BUY go
    through levels of prices that never decrease (lowest ask first) in
    either copy; those of a SELL go through levels of prices that never
    increase (highest bid first) in the copy of main/match.go, which calls
    [Descend], and of prices that never decrease (lowest bid first) in the
    copy of model/match.go, which starts from [Min].  In model/match.go the
    price of each trade is the price of its level. *)
Theorem trade_prices_follow_the_traversal rt p st :
  treeInOrder st (OrderBook.Asks (ob st)) ->
  treeInOrder st (OrderBook.Bids (ob st)) ->
  (forall c,
      match Order.Side (orders st p), c with
      | SideSell, MainCopy =>
          nonincreasing (levelPrices st (fst (MatchOrderFills rt c p st)))
      | _, _ =>
          nondecreasing (levelPrices st (fst (MatchOrderFills rt c p st)))
      end)
  /\ prices (fst (MatchOrder rt ModelCopy p st))
     = levelPrices st (fst (MatchOrderFills rt ModelCopy p st)).
Proof.
  intros [Hasks Hap] [Hbids Hbp].
  assert (Hup : forall tree,
             StronglySorted (fun a b => PriceLevelItem.Less a b = true) tree ->
             (forall item, In item tree -> levelPrice st item = PriceLevelItem.Price item) ->
             StronglySorted
               (fun a b => Cmp (levelPrice st a) (levelPrice st b) <= 0) tree).
  { intros tree Hs Hp. apply (SS_impl_in _ _ _ Hs).
    intros a b Ha Hb Hl. rewrite (Hp a Ha), (Hp b Hb).
    apply Less_lt in Hl. lia. }
  split; [|apply prices_levelPrices].
  intros c. destruct (Order.Side (orders st p)) eqn:Hside.
  - apply fills_level_prices_sorted.
    + intros x. rewrite Cmp_refl. lia.
    + rewrite Hside. destruct c; apply Hup; assumption.
  - destruct c.
    + apply fills_level_prices_sorted.
      * intros x. rewrite Cmp_refl. lia.
      * rewrite Hside. apply Hup; assumption.
    + apply fills_level_prices_sorted.
      * intros x. rewrite Cmp_refl. lia.
      * rewrite Hside. cbn [oppositeLevels]. unfold btree.Descend.
        apply (SS_impl_in (fun a b => Cmp (levelPrice st b) (levelPrice st a) <= 0)).
        -- apply (SS_rev (fun a b => Cmp (levelPrice st a) (levelPrice st b) <= 0)).
           apply Hup; assumption.
        -- intros a b _ _ H. rewrite Cmp_antisym. lia.
Qed.

Lemma trade_prices_follow_the_traversal_witness :
  nonincreasing (levelPrices sellAgainstTwoBids
                   (fst (MatchOrderFills rt0 MainCopy 3%nat sellAgainstTwoBids)))
  /\ nondecreasing (prices (fst (MatchOrder rt0 ModelCopy 3%nat sellAgainstTwoBids))).
Proof.
  destruct (trade_prices_follow_the_traversal rt0 3%nat sellAgainstTwoBids)
    as [Hall Heq].
  - split; [vm_compute; constructor|]. intros item Hin. vm_compute in Hin. contradiction.
  - split.
    + vm_compute. repeat constructor.
    + intros item Hin. vm_compute in Hin.
      destruct Hin as [<-|[<-|[]]]; vm_compute; reflexivity.
  - split; [exact (Hall MainCopy)|]. rewrite Heq. exact (Hall ModelCopy).
Defined.

(** ** The limit price *)

Section Accepted.
Variable rt : Runtime.
Variable p : ptr.
Variable V : lptr -> Prop.
Variables I J : list Fill -> Float -> State -> Prop.

Hypothesis Hstep :
  forall lv r rem st fills f rem' st',
    V lv ->
    I fills rem st ->
    In r (fifo st lv) ->
    Order.Status (orders st r) = StatusPending ->
    matchOne rt lv p r rem st = (f, rem', st') ->
    if Sign rem' =? 0
    then J (fills ++ [f]) rem'
           (fillNewOrder p rem' (Trade.TradeTime (fill_trade f)) st')
    else I (fills ++ [f]) rem' st'.

Hypothesis HreapI :
  forall lv fills rem st,
    I fills rem st -> I fills rem (processCompletedOrders rt lv st).

Hypothesis HreapJ :
  forall lv fills rem st,
    J fills rem st -> J fills rem (processCompletedOrders rt lv st).

(** A level whose price passed the test of match.go:44 is in [V]. *)
Hypothesis Haccept :
  forall lv fills rem st,
    I fills rem st ->
    isMatch (orders st p) (Order.Price (orders st p))
            (PriceLevel.Price (levels st lv)) = true ->
    V lv.

Lemma matchLevels_accepted items :
  forall rem st fills c rem' st' fills',
    I fills rem st ->
    matchLevels rt items p rem st fills = (c, rem', st', fills') ->
    if c then J fills' rem' st' else I fills' rem' st'.
Proof.
  induction items as [|item items IH]; intros rem st fills c rem' st' fills' HI Hm.
  - cbn in Hm. inversion Hm; subst. exact HI.
  - cbn [matchLevels] in Hm. unfold traversePriceLevel in Hm.
    destruct (isMatch _ _ _) eqn:Hacc in Hm; cbn [negb] in Hm.
    + pose proof (Haccept _ _ _ _ HI Hacc) as HV.
      destruct (walkOrders _ _ _ _ _ _ _) as [[[c1 rem1] st1] fills1] eqn:Hw.
      pose proof (walkOrders_rule rt p V I J Hstep _ _ HV _ _ _ _ _ _ _ HI
                    (fun e He => in_map _ _ _ He) Hw) as H1.
      destruct c1; cbn [negb] in Hm.
      * inversion Hm; subst. apply HreapJ. exact H1.
      * eapply IH; [|exact Hm]. apply HreapI. exact H1.
    + inversion Hm; subst. exact HI.
Qed.
End Accepted.

Lemma isMatch_ident n n' a b : ident n' = ident n -> isMatch n' a b = isMatch n a b.
Proof.
  unfold ident, isMatch. intros H.
  assert (Hs : Order.Side n' = Order.Side n) by congruence.
  assert (Hm : Order.IsMarket n' = Order.IsMarket n) by congruence.
  rewrite Hs, Hm. reflexivity.
Qed.

Lemma ident_Price o o' : ident o' = ident o -> Order.Price o' = Order.Price o.
Proof. unfold ident. congruence. Qed.

Lemma matching_accepted rt c p st done rem st1 fills :
  matching rt c p st = (done, rem, st1, fills) ->
  Forall (fun f => isMatch (orders st p) (Order.Price (orders st p))
                           (PriceLevel.Price (levels st (fill_level f))) = true) fills.
Proof.
  intros Hm.
  set (Inv := fun (fs : list Fill) (_ : Float) (s : State) =>
                frame st s
                /\ Forall (fun f => isMatch (orders st p) (Order.Price (orders st p))
                                            (PriceLevel.Price (levels st (fill_level f)))
                                    = true) fs).
  assert (R : if done then Inv fills rem st1 else Inv fills rem st1).
  { unfold matching in Hm.
    apply (fun A B C D E =>
             matchLevels_accepted rt p
               (fun lv => isMatch (orders st p) (Order.Price (orders st p))
                                  (PriceLevel.Price (levels st lv)) = true)
               Inv Inv A B C D _ _ _ _ _ _ _ _ E Hm).
    - intros lv r rem0 s fills0 f rem' s' HV [HF Hall] _ _ E.
      pose proof (matchOne_fill rt lv p r rem0 s) as Hf.
      pose proof (matchOne_frame rt lv p r rem0 s) as HF1.
      rewrite E in Hf, HF1. cbn [fst snd] in Hf, HF1. cbv zeta in Hf. clear E.
      assert (Hp : isMatch (orders st p) (Order.Price (orders st p))
                           (PriceLevel.Price (levels st (fill_level f))) = true).
      { rewrite Hf. cbn [fill_level]. exact HV. }
      assert (Hall' : Forall (fun f0 => isMatch (orders st p) (Order.Price (orders st p))
                                           (PriceLevel.Price (levels st (fill_level f0)))
                                         = true)
                             (fills0 ++ [f]))
        by (apply Forall_app; split; [exact Hall|constructor; [exact Hp|constructor]]).
      destruct (Sign rem' =? 0); (split; [|exact Hall']).
      + eapply frame_trans; [exact HF|].
        eapply frame_trans; [exact HF1|apply fillNewOrder_frame].
      + eapply frame_trans; [exact HF|exact HF1].
    - intros lv fills0 rem0 s [HF Hall]. split; [|exact Hall].
      eapply frame_trans; [exact HF|apply processCompletedOrders_frame].
    - intros lv fills0 rem0 s [HF Hall]. split; [|exact Hall].
      eapply frame_trans; [exact HF|apply processCompletedOrders_frame].
    - intros lv fills0 rem0 s [(Hident & Hprice & _) _] Hacc.
      rewrite (isMatch_ident _ _ _ _ (Hident p)) in Hacc.
      rewrite (ident_Price _ _ (Hident p)), Hprice in Hacc. exact Hacc.
    - split; [apply frame_refl|constructor]. }
  destruct done; apply R.
Qed.

(** X6.  A limit order never trades beyond its limit: in either copy every
    fill of a limit BUY is made in a level priced at or below the price of
    the order, every fill of a limit SELL in a level priced at or above it
    (match.go:19-33 and 44-46); in model/match.go, where the trade carries
    the price of its level, so is every trade priced. *)
Theorem limit_price_is_respected rt c p st :
  Order.IsMarket (orders st p) = false ->
  Forall (withinLimit (orders st p))
         (levelPrices st (fst (MatchOrderFills rt c p st)))
  /\ (c = ModelCopy ->
      Forall (withinLimit (orders st p)) (prices (fst (MatchOrder rt c p st)))).
Proof.
  intros Hlimit.
  assert (H : Forall (withinLimit (orders st p))
                     (levelPrices st (fst (MatchOrderFills rt c p st)))).
  { unfold MatchOrderFills.
    destruct (matching rt c p st) as [[[done rem] st1] fills] eqn:Hm. cbn [fst].
    pose proof (matching_accepted _ _ _ _ _ _ _ _ Hm) as Hacc.
    unfold levelPrices. apply Forall_map.
    rewrite List.Forall_forall in *. intros f Hf.
    specialize (Hacc f Hf). unfold isMatch in Hacc. rewrite Hlimit in Hacc.
    unfold withinLimit.
    destruct (Order.Side (orders st p)); cbn [orb] in Hacc.
    - apply Z.geb_le in Hacc. lia.
    - apply Z.leb_le in Hacc. exact Hacc. }
  split; [exact H|]. intros _. rewrite prices_levelPrices. exact H.
Qed.

Lemma limit_price_is_respected_witness :
  Forall (withinLimit (orders priceImprovement 3%nat))
         (prices (fst (MatchOrder rt0 ModelCopy 3%nat priceImprovement)))
  /\ prices (fst (MatchOrder rt0 ModelCopy 3%nat priceImprovement)) = [int 99; int 100].
Proof.
  split; [|vm_compute; reflexivity].
  exact (proj2 (limit_price_is_respected rt0 ModelCopy 3%nat priceImprovement eq_refl)
               eq_refl).
Defined.

(** ** What a call leaves alone *)

(** X7.  [MatchOrder] writes to no order but the new one and the orders resting
    in the levels of the opposite tree: any other order - one resting on the
    side of the new order, say - is after the call what it was before. *)
Theorem other_orders_are_untouched rt c p st q :
  q <> p ->
  (forall item,
      In item (oppositeLevels c (Order.Side (orders st p)) (ob st)) ->
      ~ In q (fifo st (PriceLevelItem.Level item))) ->
  orders (snd (MatchOrder rt c p st)) q = orders st q.
Proof.
  intros Hqp Hout. unfold MatchOrder, MatchOrderFills.
  destruct (matching rt c p st) as [[[done rem] st1] fills] eqn:Hm. cbn [snd].
  set (Inv := fun (_ : list Fill) (_ : Float) (s : State) =>
                frame st s /\ orders s q = orders st q).
  assert (R : if done then Inv fills rem st1 else Inv fills rem st1).
  { apply (matching_rule rt p (fun lv => ~ In q (fifo st lv)) Inv Inv)
      with (c := c) (st := st).
    - intros lv r rem0 s fills0 f rem' s' HV [HF Hq] Hr _ E.
      pose proof (matchOne_orders rt lv p r rem0 s) as Ho.
      pose proof (matchOne_frame rt lv p r rem0 s) as HF1.
      rewrite E in Ho, HF1. cbn [fst snd] in Ho, HF1. cbv zeta in Ho. clear E.
      assert (Hrq : q <> r).
      { intros ->. apply HV. destruct HF as (_ & _ & _ & Hfifo & _). apply Hfifo, Hr. }
      assert (Hq' : orders s' q = orders st q)
        by (rewrite Ho, upd_neq by exact Hrq; exact Hq).
      destruct (Sign rem' =? 0); split.
      + eapply frame_trans; [exact HF|].
        eapply frame_trans; [exact HF1|apply fillNewOrder_frame].
      + unfold fillNewOrder, setOrder. cbn [orders].
        rewrite upd_neq by exact Hqp. exact Hq'.
      + eapply frame_trans; [exact HF|exact HF1].
      + exact Hq'.
    - intros lv fills0 rem0 s _ [HF Hq]. split.
      + eapply frame_trans; [exact HF|apply processCompletedOrders_frame].
      + rewrite processCompletedOrders_orders. exact Hq.
    - intros lv fills0 rem0 s _ [HF Hq]. split.
      + eapply frame_trans; [exact HF|apply processCompletedOrders_frame].
      + rewrite processCompletedOrders_orders. exact Hq.
    - exact Hout.
    - split; [apply frame_refl|reflexivity].
    - exact Hm. }
  assert (Hq1 : orders st1 q = orders st q) by (destruct done; apply R).
  destruct (Z_gt_le_dec (Sign rem) 0) as [Hgt|Hle].
  - destruct (matching_frame _ _ _ _ _ _ _ _ Hm) as [_ Hdone].
    assert (done = false) as ->.
    { destruct done; [|reflexivity]. destruct (Hdone eq_refl) as [_ Hz]. lia. }
    destruct (finish_residual rt p rem st1 Hgt) as (Ho & _).
    rewrite Ho, AddOrder_orders. unfold residualState, setOrder. cbn [orders now snd].
    rewrite upd_neq by exact Hqp. exact Hq1.
  - destruct (finish_no_residual rt p done rem st1 Hle) as (Ho & _).
    rewrite Ho. exact Hq1.
Qed.

Lemma other_orders_are_untouched_witness :
  orders (snd (MatchOrder rt0 ModelCopy 3%nat duplicateBuy)) 1%nat
  = orders duplicateBuy 1%nat.
Proof.
  apply other_orders_are_untouched.
  - discriminate.
  - intros item Hin. vm_compute in Hin. destruct Hin as [<-|[]].
    vm_compute. intros [H|[]]. discriminate H.
Defined.

(** ** More on [AddOrder] *)

Lemma AddOrder_orderMap rt p st :
  OrderBook.OrderMap (ob st) !! Order.OrderID (orders st p) = None ->
  OrderBook.OrderMap (ob (snd (AddOrder rt p st)))
  = <[Order.OrderID (orders st p) := p]> (OrderBook.OrderMap (ob st)).
Proof.
  intros H. unfold AddOrder. rewrite H.
  destruct (OrderBook.PriceLevels (ob st) !! _); cbn [snd ob]; [reflexivity|].
  destruct (Order.Side (orders st p)); reflexivity.
Qed.

Lemma AddOrder_orderMap_ne rt p st (k : string) :
  k <> Order.OrderID (orders st p) ->
  OrderBook.OrderMap (ob (snd (AddOrder rt p st))) !! k
  = OrderBook.OrderMap (ob st) !! k.
Proof.
  intros Hk.
  destruct (OrderBook.OrderMap (ob st) !! Order.OrderID (orders st p)) eqn:E.
  - rewrite AddOrder_exists by (rewrite E; discriminate). reflexivity.
  - rewrite (AddOrder_orderMap rt p st E). apply lookup_insert_ne. congruence.
Qed.

Lemma AddOrder_existing rt p st lv :
  OrderBook.OrderMap (ob st) !! Order.OrderID (orders st p) = None ->
  OrderBook.PriceLevels (ob st) !! FloatString rt (Order.Price (orders st p)) = Some lv ->
  fifo (snd (AddOrder rt p st)) lv = fifo st lv ++ [p]
  /\ (forall lp, lp <> lv -> levels (snd (AddOrder rt p st)) lp = levels st lp)
  /\ OrderBook.PriceLevels (ob (snd (AddOrder rt p st))) = OrderBook.PriceLevels (ob st)
  /\ OrderBook.Bids (ob (snd (AddOrder rt p st))) = OrderBook.Bids (ob st)
  /\ OrderBook.Asks (ob (snd (AddOrder rt p st))) = OrderBook.Asks (ob st).
Proof.
  intros H Hlv. unfold AddOrder. rewrite H, Hlv. cbn [snd].
  repeat split.
  - unfold fifo. cbn [levels]. rewrite upd_eq. cbn [PriceLevel.Orders].
    rewrite map_app. reflexivity.
  - intros lp Hne. cbn [levels]. apply upd_neq. exact Hne.
Qed.

(** X8.  Time priority at one price: of two orders put into the book one after
    the other at prices the price map takes for the same, the first is
    ahead of the second in the FIFO of their level, behind the orders that
    were there. *)
Theorem AddOrder_queues_in_arrival_order rt p1 p2 st :
  OrderBook.OrderMap (ob st) !! Order.OrderID (orders st p1) = None ->
  OrderBook.OrderMap (ob st) !! Order.OrderID (orders st p2) = None ->
  Order.OrderID (orders st p1) <> Order.OrderID (orders st p2) ->
  FloatString rt (Order.Price (orders st p1))
  = FloatString rt (Order.Price (orders st p2)) ->
  exists lv older,
    OrderBook.PriceLevels (ob (snd (AddOrder rt p2 (snd (AddOrder rt p1 st)))))
      !! FloatString rt (Order.Price (orders st p1)) = Some lv
    /\ fifo (snd (AddOrder rt p2 (snd (AddOrder rt p1 st)))) lv
       = older ++ [p1; p2].
Proof.
  intros H1 H2 Hne Hstr.
  destruct (AddOrder_new rt p1 st H1) as (_ & Ho & (_ & lv & older & Hlv & Hfifo) & _).
  pose proof (AddOrder_orderMap rt p1 st H1) as Hom.
  set (st1 := snd (AddOrder rt p1 st)) in *.
  rewrite Ho in Hlv.
  assert (H2' : OrderBook.OrderMap (ob st1) !! Order.OrderID (orders st1 p2) = None).
  { rewrite Ho, Hom, lookup_insert_ne by exact Hne. exact H2. }
  assert (Hlv2 : OrderBook.PriceLevels (ob st1)
                   !! FloatString rt (Order.Price (orders st1 p2)) = Some lv).
  { rewrite Ho, <- Hstr. exact Hlv. }
  destruct (AddOrder_existing rt p2 st1 lv H2' Hlv2) as (Hf2 & _ & Hpl & _).
  exists lv, older. split.
  - rewrite Hpl. exact Hlv.
  - rewrite Hf2, Hfifo, <- app_assoc. reflexivity.
Qed.

Lemma AddOrder_queues_in_arrival_order_witness :
  let st := snd (CancelOrder rt0 "s2" twoAsksAtSamePrice) in
  exists lv older,
    OrderBook.PriceLevels (ob (snd (AddOrder rt0 3%nat (snd (AddOrder rt0 2%nat st)))))
      !! FloatString rt0 (Order.Price (orders st 2%nat)) = Some lv
    /\ fifo (snd (AddOrder rt0 3%nat (snd (AddOrder rt0 2%nat st)))) lv
       = older ++ [2%nat; 3%nat].
Proof.
  exact (AddOrder_queues_in_arrival_order rt0 2%nat 3%nat
           (snd (CancelOrder rt0 "s2" twoAsksAtSamePrice))
           ltac:(vm_compute; reflexivity) ltac:(vm_compute; reflexivity)
           ltac:(vm_compute; discriminate) ltac:(vm_compute; reflexivity)).
Defined.

(** X9.  The price map is keyed by price alone: an order whose price already has
    a level joins the FIFO of that level and neither tree changes, whichever
    tree holds the level - a buy order put in at a price where sell orders
    rest queues among them and gets no bid level (order.go:36-49). *)
Theorem level_is_shared_by_both_sides rt p st lv :
  OrderBook.OrderMap (ob st) !! Order.OrderID (orders st p) = None ->
  OrderBook.PriceLevels (ob st) !! FloatString rt (Order.Price (orders st p)) = Some lv ->
  fifo (snd (AddOrder rt p st)) lv = fifo st lv ++ [p]
  /\ OrderBook.Bids (ob (snd (AddOrder rt p st))) = OrderBook.Bids (ob st)
  /\ OrderBook.Asks (ob (snd (AddOrder rt p st))) = OrderBook.Asks (ob st).
Proof.
  intros H Hlv.
  destruct (AddOrder_existing rt p st lv H Hlv) as (Hf & _ & _ & Hb & Ha).
  auto.
Qed.

Lemma level_is_shared_by_both_sides_witness :
  Order.Side (orders twoAsksAtSamePrice 3%nat) = SideBuy
  /\ fifo (snd (AddOrder rt0 3%nat twoAsksAtSamePrice)) 0%nat = [1%nat; 2%nat; 3%nat]
  /\ OrderBook.Bids (ob (snd (AddOrder rt0 3%nat twoAsksAtSamePrice))) = [].
Proof.
  destruct (level_is_shared_by_both_sides rt0 3%nat twoAsksAtSamePrice 0%nat)
    as (Hf & Hb & _).
  - vm_compute. reflexivity.
  - vm_compute. reflexivity.
  - split; [reflexivity|]. split; [rewrite Hf|rewrite Hb]; vm_compute; reflexivity.
Defined.

(** ** The id map *)

Lemma reap_orderMap_sub h es lm om last (k : string) :
  snd (fst (reap h es lm om last)) !! k = None
  \/ snd (fst (reap h es lm om last)) !! k = om !! k.
Proof.
  revert lm om last. induction es as [|e es IH]; intros lm om last; [right; reflexivity|].
  cbn [reap]. fold (completed h e).
  destruct (completed h e).
  - destruct (IH (delete (Order.OrderID (h (Element.Value e))) lm)
                 (delete (Order.OrderID (h (Element.Value e))) om)
                 (Some (Element.Value e))) as [H|H]; [left; exact H|].
    rewrite H.
    destruct (decide (Order.OrderID (h (Element.Value e)) = k)) as [->|Hne].
    + left. apply lookup_delete_eq.
    + right. apply lookup_delete_ne. exact Hne.
  - specialize (IH lm om (Some (Element.Value e))).
    destruct (reap h es lm om (Some (Element.Value e))) as [[[kept lm'] om'] last'].
    exact IH.
Qed.

(** X10.  [MatchOrder] puts no id into the id map but that of the new order, and
    leads no other id to another order: any other id is afterwards either
    gone or where it was. *)
Theorem MatchOrder_adds_no_other_id rt c p st (k : string) :
  k <> Order.OrderID (orders st p) ->
  OrderBook.OrderMap (ob (snd (MatchOrder rt c p st))) !! k = None
  \/ OrderBook.OrderMap (ob (snd (MatchOrder rt c p st))) !! k
     = OrderBook.OrderMap (ob st) !! k.
Proof.
  intros Hk. unfold MatchOrder, MatchOrderFills.
  destruct (matching rt c p st) as [[[done rem] st1] fills] eqn:Hm. cbn [snd].
  set (Inv := fun (_ : list Fill) (_ : Float) (s : State) =>
                OrderBook.OrderMap (ob s) !! k = None
                \/ OrderBook.OrderMap (ob s) !! k = OrderBook.OrderMap (ob st) !! k).
  assert (R : if done then Inv fills rem st1 else Inv fills rem st1).
  { apply (matching_rule rt p (fun _ => True) Inv Inv) with (c := c) (st := st).
    - intros lv r rem0 s fills0 f rem' s' _ HI _ _ E.
      assert (Hs : ob s' = ob s)
        by (rewrite <- (matchOne_ob rt lv p r rem0 s), E; reflexivity).
      unfold Inv, fillNewOrder, setOrder. cbn [ob]. rewrite Hs.
      destruct (Sign rem' =? 0); exact HI.
    - intros lv fills0 rem0 s _ HI. unfold Inv.
      rewrite processCompletedOrders_orderMap.
      destruct (reap_orderMap_sub (orders s) (PriceLevel.Orders (levels s lv))
                  (PriceLevel.OrderMap (levels s lv)) (OrderBook.OrderMap (ob s))
                  None k) as [H|H]; [left; exact H|rewrite H; exact HI].
    - intros lv fills0 rem0 s _ HI. unfold Inv.
      rewrite processCompletedOrders_orderMap.
      destruct (reap_orderMap_sub (orders s) (PriceLevel.Orders (levels s lv))
                  (PriceLevel.OrderMap (levels s lv)) (OrderBook.OrderMap (ob s))
                  None k) as [H|H]; [left; exact H|rewrite H; exact HI].
    - trivial.
    - right. reflexivity.
    - exact Hm. }
  assert (H1 : Inv fills rem st1) by (destruct done; exact R).
  destruct (matching_frame _ _ _ _ _ _ _ _ Hm) as [(Hident & _) Hdone].
  destruct (Z_gt_le_dec (Sign rem) 0) as [Hgt|Hle].
  - assert (done = false) as ->.
    { destruct done; [|reflexivity]. destruct (Hdone eq_refl) as [_ Hz]. lia. }
    destruct (finish_residual rt p rem st1 Hgt) as (_ & _ & Hom & _).
    rewrite Hom, AddOrder_orderMap_ne; [exact H1|].
    unfold residualState, setOrder. cbn [orders]. rewrite upd_eq.
    cbn [Order.OrderID Order.setUpdateTime Order.setStatus Order.setRemaining].
    rewrite (ident_OrderID _ _ (Hident p)). exact Hk.
  - destruct (finish_no_residual rt p done rem st1 Hle) as (_ & _ & Hom & _).
    rewrite Hom. exact H1.
Qed.

Lemma MatchOrder_adds_no_other_id_witness :
  OrderBook.OrderMap (ob (snd (MatchOrder rt0 ModelCopy 2%nat singleLimitHit))) !! "s1"
  = None.
Proof.
  destruct (MatchOrder_adds_no_other_id rt0 ModelCopy 2%nat singleLimitHit "s1")
    as [H|H].
  - vm_compute. discriminate.
  - exact H.
  - vm_compute in H. discriminate H.
Defined.

(** ** Fees and the order of prices *)

Lemma Sign_Mul (z x y : Float) : Sign (Mul z x y) = Sign x * Sign y.
Proof.
  unfold Mul, dmul, exact. cbn [fst snd].
  rewrite Sign_round, Z.sgn_mul. reflexivity.
Qed.

(** X11.  The fee is held with 53 bits and has the sign of quantity times price:
    a trade of a positive quantity at a positive price never has a fee of
    zero, however small the amount. *)
Theorem fee_keeps_the_sign (quantity price : Float) :
  prec (calculateFee quantity price) = 53%positive
  /\ Sign (calculateFee quantity price) = Sign quantity * Sign price.
Proof.
  unfold calculateFee. split.
  - unfold Mul at 1. rewrite prec_round. reflexivity.
  - rewrite !Sign_Mul.
    change (Sign feeRate) with 1. lia.
Qed.

(** [Cmp] at any exponent below the two. *)
Lemma Cmp_at (e0 : Z) (x y : Float) :
  e0 <= expo x -> e0 <= expo y ->
  Cmp x y = match mant x * 2 ^ (expo x - e0) ?= mant y * 2 ^ (expo y - e0) with
            | Lt => -1 | Eq => 0 | Gt => 1
            end.
Proof.
  intros Hx Hy. unfold Cmp.
  set (e := Z.min (expo x) (expo y)).
  assert (He : e0 <= e) by (unfold e; lia).
  assert (Ex : e <= expo x) by (unfold e; lia).
  assert (Ey : e <= expo y) by (unfold e; lia).
  replace (expo x - e0) with ((expo x - e) + (e - e0)) by lia.
  replace (expo y - e0) with ((expo y - e) + (e - e0)) by lia.
  rewrite !Z.pow_add_r by lia.
  rewrite !Z.mul_assoc.
  rewrite <- Zmult_compare_compat_r
    by (apply Z.lt_gt, Z.pow_pos_nonneg; lia).
  reflexivity.
Qed.

Lemma Cmp_lt_at (e0 : Z) (x y : Float) :
  e0 <= expo x -> e0 <= expo y ->
  Cmp x y < 0 <-> mant x * 2 ^ (expo x - e0) < mant y * 2 ^ (expo y - e0).
Proof.
  intros Hx Hy. rewrite (Cmp_at e0 x y Hx Hy).
  destruct (Z.compare_spec (mant x * 2 ^ (expo x - e0)) (mant y * 2 ^ (expo y - e0)));
    lia.
Qed.

(** X12.  [Less] of model.go is a strict weak order on the items, as [btree]
    asks of it: nothing is less than itself, the relation is transitive, and
    so is being neither less nor greater. *)
Theorem Less_is_a_strict_weak_order (a b c : PriceLevelItem.t) :
  PriceLevelItem.Less a a = false
  /\ (PriceLevelItem.Less a b = true -> PriceLevelItem.Less b c = true ->
      PriceLevelItem.Less a c = true)
  /\ (PriceLevelItem.Less a b = false -> PriceLevelItem.Less b c = false ->
      PriceLevelItem.Less a c = false).
Proof.
  unfold PriceLevelItem.Less.
  set (x := PriceLevelItem.Price a). set (y := PriceLevelItem.Price b).
  set (z := PriceLevelItem.Price c).
  set (e0 := Z.min (expo x) (Z.min (expo y) (expo z))).
  assert (Hx : e0 <= expo x) by (unfold e0; lia).
  assert (Hy : e0 <= expo y) by (unfold e0; lia).
  assert (Hz : e0 <= expo z) by (unfold e0; lia).
  pose proof (Cmp_lt_at e0 x y Hx Hy) as Hxy.
  pose proof (Cmp_lt_at e0 y z Hy Hz) as Hyz.
  pose proof (Cmp_lt_at e0 x z Hx Hz) as Hxz.
  split; [rewrite Cmp_refl; reflexivity|].
  split; intros H1 H2.
  - apply Z.ltb_lt in H1, H2. apply Z.ltb_lt. lia.
  - apply Z.ltb_ge in H1, H2. apply Z.ltb_ge. lia.
Qed.

Lemma Less_is_a_strict_weak_order_witness :
  PriceLevelItem.Less (PriceLevelItem.mk (int 99) 0%nat)
                      (PriceLevelItem.mk (int 101) 2%nat) = true.
Proof.
  apply (proj1 (proj2 (Less_is_a_strict_weak_order
                         (PriceLevelItem.mk (int 99) 0%nat)
                         (PriceLevelItem.mk (int 100) 1%nat)
                         (PriceLevelItem.mk (int 101) 2%nat))));
    vm_compute; reflexivity.
Defined.

(** X13.  In the demo two items are each less than the other exactly when one of
    them has [IsBid] set, the other has not, and the one with the flag has
    the higher price: [Less] orders a tree only if all its items carry the
    same flag. *)
Theorem demo_Less_holds_both_ways (a b : Demo.PriceLevelItem) :
  Demo.Less a b = true /\ Demo.Less b a = true
  <-> Demo.IsBid a <> Demo.IsBid b
      /\ (if Demo.IsBid a then Cmp (Demo.Price a) (Demo.Price b) > 0
          else Cmp (Demo.Price a) (Demo.Price b) < 0).
Proof.
  unfold Demo.Less.
  rewrite (Cmp_antisym (Demo.Price a) (Demo.Price b)).
  destruct (Demo.IsBid a), (Demo.IsBid b);
    rewrite ?Z.gtb_ltb, ?Z.ltb_lt; split.
  - intros [H1 H2]. lia.
  - intros [H _]. congruence.
  - intros [H1 H2]. split; [discriminate|lia].
  - intros [_ H]. lia.
  - intros [H1 H2]. split; [discriminate|lia].
  - intros [_ H]. lia.
  - intros [H1 H2]. lia.
  - intros [H _]. congruence.
Qed.

Lemma demo_Less_holds_both_ways_witness :
  Demo.Less Demo.itemBid10150 Demo.itemBid9950 = true
  /\ Demo.Less Demo.itemBid9950 Demo.itemBid10150 = true.
Proof.
  apply (proj2 (demo_Less_holds_both_ways Demo.itemBid10150 Demo.itemBid9950)).
  split; [discriminate|vm_compute; reflexivity].
Defined.

(** ** Where the loop over the levels ends *)

(** X14.  When the first level the tree hands over has a price the order does not
    accept, the call trades nothing: no level after it is looked at
    (match.go:44-46). *)
Theorem refusal_of_first_level_ends_the_matching rt c p st item others :
  oppositeLevels c (Order.Side (orders st p)) (ob st) = item :: others ->
  isMatch (orders st p) (Order.Price (orders st p)) (levelPrice st item) = false ->
  fst (MatchOrder rt c p st) = []
  /\ matching rt c p st = (false, Order.Remaining (orders st p), st, []).
Proof.
  intros Hl Hm. unfold levelPrice in Hm.
  assert (E : matching rt c p st = (false, Order.Remaining (orders st p), st, [])).
  { unfold matching. rewrite Hl. cbn [matchLevels]. unfold traversePriceLevel.
    rewrite Hm. reflexivity. }
  split; [|exact E].
  unfold MatchOrder, MatchOrderFills. rewrite E. reflexivity.
Qed.

Lemma refusal_of_first_level_ends_the_matching_witness :
  fst (MatchOrder rt0 ModelCopy 3%nat sellBetweenTwoBids) = []
  /\ isMatch (orders sellBetweenTwoBids 3%nat)
             (Order.Price (orders sellBetweenTwoBids 3%nat)) (int 101) = true.
Proof.
  split; [|vm_compute; reflexivity].
  apply (refusal_of_first_level_ends_the_matching rt0 ModelCopy 3%nat
           sellBetweenTwoBids (PriceLevelItem.mk (int 99) 0%nat)
           [PriceLevelItem.mk (int 101) 1%nat]);
    vm_compute; reflexivity.
Defined.

(** ** An order of quantity zero *)

Lemma Cmp_zero_pos (x y : Float) : Sign x = 0 -> Sign y = 1 -> Cmp x y = -1.
Proof.
  unfold Sign, Cmp. intros Hx Hy.
  assert (Ex : mant x = 0) by (destruct (mant x); cbn in Hx; lia).
  assert (Ey : 0 < mant y) by (destruct (mant y); cbn in Hy; lia).
  rewrite Ex.
  assert (0 < 2 ^ (expo y - Z.min (expo x) (expo y)))
    by (apply Z.pow_pos_nonneg; lia).
  destruct (Z.compare_spec (0 * 2 ^ (expo x - Z.min (expo x) (expo y)))
                           (mant y * 2 ^ (expo y - Z.min (expo x) (expo y))));
    [nia|reflexivity|nia].
Qed.

(** X15.  An order with nothing remaining that meets a pending order at a
    price it accepts is matched with it all the same, in either copy: one
    fill comes out, its trade in model/match.go of quantity zero, the new
    order is filled, and the resting order, which has lost nothing, is now
    partially_filled (match.go:62-97). *)
Theorem zero_quantity_order_trades_zero rt c p st item others e es :
  oppositeLevels c (Order.Side (orders st p)) (ob st) = item :: others ->
  isMatch (orders st p) (Order.Price (orders st p)) (levelPrice st item) = true ->
  PriceLevel.Orders (levels st (PriceLevelItem.Level item)) = e :: es ->
  Order.Status (orders st (Element.Value e)) = StatusPending ->
  Sign (Order.Remaining (orders st (Element.Value e))) = 1 ->
  Sign (Order.Remaining (orders st p)) = 0 ->
  Element.Value e <> p ->
  exists f,
    fst (MatchOrderFills rt c p st) = [f]
    /\ fill_maker f = Element.Value e
    /\ (c = ModelCopy -> Sign (Trade.Quantity (fill_trade f)) = 0)
    /\ Order.Status (orders (snd (MatchOrder rt c p st)) (Element.Value e))
       = StatusPartiallyFilled
    /\ Sign (Order.Remaining (orders (snd (MatchOrder rt c p st)) (Element.Value e)))
       = 1
    /\ Order.Status (orders (snd (MatchOrder rt c p st)) p) = StatusFilled.
Proof.
  intros Hl Hm He Hs Hr Hz Hne. unfold levelPrice in Hm.
  set (lv := PriceLevelItem.Level item) in *.
  set (r := Element.Value e) in *.
  set (rem := Order.Remaining (orders st p)) in *.
  assert (Hc : Cmp rem (Order.Remaining (orders st r)) = -1)
    by (apply Cmp_zero_pos; assumption).
  assert (Hq : (if Cmp rem (Order.Remaining (orders st r)) >? 0
                then Order.Remaining (orders st r) else rem) = rem)
    by (rewrite Hc; reflexivity).
  pose proof (matchOne_remaining rt lv p r rem st) as Erem.
  pose proof (matchOne_fill rt lv p r rem st) as Efill.
  pose proof (matchOne_orders rt lv p r rem st) as Eord.
  cbv zeta in Erem, Efill, Eord. rewrite Hq in Erem, Efill, Eord.
  assert (Hback : Cmp (Order.Remaining (orders st r)) rem > 0)
    by (rewrite Cmp_antisym, Hc; lia).
  pose proof (Sub_pos (Order.Remaining (orders st r))
                (Order.Remaining (orders st r)) rem Hback) as Hleft.
  rewrite Hleft in Eord. change (1 =? 0) with false in Eord. cbv iota in Eord.
  destruct (matchOne rt lv p r rem st) as [[f rem'] s1] eqn:E.
  cbn [fst snd] in Erem, Efill, Eord.
  assert (Hdone : (Sign rem' =? 0) = true)
    by (rewrite Erem, Sub_self; reflexivity).
  assert (Em : matching rt c p st
               = (true, rem',
                  processCompletedOrders rt lv
                    (fillNewOrder p rem' (Trade.TradeTime (fill_trade f)) s1),
                  [f])).
  { unfold matching. rewrite Hl. cbn [matchLevels]. unfold traversePriceLevel.
    fold lv. rewrite Hm. cbn [negb]. rewrite He. cbn [walkOrders]. fold r.
    rewrite bool_decide_eq_false_2
      by (rewrite Hs; intros X; apply X; reflexivity).
    unfold Copy. fold rem. rewrite E, Hdone. reflexivity. }
  assert (Eo : orders (snd (MatchOrder rt c p st))
               = orders (fillNewOrder p rem' (Trade.TradeTime (fill_trade f)) s1)).
  { unfold MatchOrder, MatchOrderFills. rewrite Em. cbn [snd].
    destruct (finish_done rt p rem'
                (processCompletedOrders rt lv
                   (fillNewOrder p rem' (Trade.TradeTime (fill_trade f)) s1)))
      as (Ho & _).
    rewrite Ho, processCompletedOrders_orders. reflexivity. }
  exists f. split; [|split; [|split; [|split; [|split]]]].
  - unfold MatchOrderFills. rewrite Em. reflexivity.
  - rewrite Efill. reflexivity.
  - intros _. rewrite Efill. cbn [fill_trade Trade.Quantity]. exact Hz.
  - rewrite Eo. unfold fillNewOrder, setOrder. cbn [orders].
    rewrite upd_neq by exact Hne. rewrite Eord, upd_eq. reflexivity.
  - rewrite Eo. unfold fillNewOrder, setOrder. cbn [orders].
    rewrite upd_neq by exact Hne. rewrite Eord, upd_eq.
    cbn [Order.Remaining Order.setUpdateTime Order.setStatus Order.setRemaining].
    exact Hleft.
  - rewrite Eo. apply fillNewOrder_status.
Qed.

Lemma zero_quantity_order_trades_zero_witness :
  exists f,
    fst (MatchOrderFills rt0 ModelCopy 2%nat zeroQuantityBuy) = [f]
    /\ fill_maker f = 1%nat
    /\ (ModelCopy = ModelCopy -> Sign (Trade.Quantity (fill_trade f)) = 0)
    /\ Order.Status (orders (snd (MatchOrder rt0 ModelCopy 2%nat zeroQuantityBuy)) 1%nat)
       = StatusPartiallyFilled
    /\ Sign (Order.Remaining
               (orders (snd (MatchOrder rt0 ModelCopy 2%nat zeroQuantityBuy)) 1%nat))
       = 1
    /\ Order.Status (orders (snd (MatchOrder rt0 ModelCopy 2%nat zeroQuantityBuy)) 2%nat)
       = StatusFilled.
Proof.
  apply (zero_quantity_order_trades_zero rt0 ModelCopy 2%nat zeroQuantityBuy
           (PriceLevelItem.mk (int 100) 0%nat) [] (Element.mk 0%nat 1%nat) []);
    [vm_compute; reflexivity..|intros X; discriminate X].
Defined.

(** ** A call that fails *)

(** X16.  [CancelOrder] that returns an error, whichever of the four, has
    changed nothing: book, levels and orders are as they were. *)
Theorem CancelOrder_error_changes_nothing rt (orderID : string) st :
  fst (CancelOrder rt orderID st) <> None ->
  snd (CancelOrder rt orderID st) = st.
Proof.
  unfold CancelOrder.
  destruct (OrderBook.OrderMap (ob st) !! orderID) as [order|]; [|reflexivity].
  destruct (bool_decide (Order.Status (orders st order) <> StatusPending)
            && bool_decide (Order.Status (orders st order) <> StatusPartiallyFilled));
    [reflexivity|].
  destruct (OrderBook.PriceLevels (ob st)
              !! FloatString rt (Order.Price (orders st order))) as [level|];
    [|reflexivity].
  destruct (PriceLevel.OrderMap (levels st level) !! orderID) as [elem|];
    [|reflexivity].
  intros H. exfalso. apply H. reflexivity.
Qed.

Lemma CancelOrder_error_changes_nothing_witness :
  snd (CancelOrder rt0 "b1" twoAsksAtSamePrice) = twoAsksAtSamePrice.
Proof.
  apply (CancelOrder_error_changes_nothing rt0 "b1" twoAsksAtSamePrice).
  vm_compute. discriminate.
Defined.

(** ** [AddOrder] undone by [CancelOrder] *)

Lemma Delete_ReplaceOrInsert tr it :
  noLevelAt (PriceLevelItem.Price it) tr ->
  btree.Delete (btree.ReplaceOrInsert tr it) it = tr.
Proof.
  induction tr as [|x tr IH]; intros Hn.
  - cbn. unfold PriceLevelItem.Less. rewrite Cmp_refl. reflexivity.
  - apply Forall_cons in Hn. destruct Hn as [Hx Hn].
    cbn [btree.ReplaceOrInsert].
    unfold PriceLevelItem.Less in *.
    pose proof (Cmp_antisym (PriceLevelItem.Price it) (PriceLevelItem.Price x)) as Ha.
    destruct (Z.ltb_spec (Cmp (PriceLevelItem.Price it) (PriceLevelItem.Price x)) 0) as [L|L].
    + cbn [btree.Delete]. unfold PriceLevelItem.Less. rewrite Cmp_refl. reflexivity.
    + destruct (Z.ltb_spec (Cmp (PriceLevelItem.Price x) (PriceLevelItem.Price it)) 0) as [L'|L'].
      * cbn [btree.Delete]. unfold PriceLevelItem.Less.
        destruct (Z.ltb_spec (Cmp (PriceLevelItem.Price it) (PriceLevelItem.Price x)) 0); [lia|].
        destruct (Z.ltb_spec (Cmp (PriceLevelItem.Price x) (PriceLevelItem.Price it)) 0); [|lia].
        rewrite IH by exact Hn. reflexivity.
      * lia.
Qed.

Lemma AddOrder_new_level rt p st :
  OrderBook.OrderMap (ob st) !! Order.OrderID (orders st p) = None ->
  OrderBook.PriceLevels (ob st) !! FloatString rt (Order.Price (orders st p)) = None ->
  levels (snd (AddOrder rt p st)) (nextLevel st)
  = PriceLevel.mk (Order.Price (orders st p))
      (Add (NewFloat 0 0) (NewFloat 0 0) (Order.Remaining (orders st p)))
      [Element.mk (nextElem st) p]
      (<[Order.OrderID (orders st p) := nextElem st]> ∅)
  /\ ob (snd (AddOrder rt p st))
     = withOrderMap (insert (Order.OrderID (orders st p)) p)
         (withTree (Order.Side (orders st p))
            (fun tree =>
               btree.ReplaceOrInsert tree
                 (PriceLevelItem.mk (Order.Price (orders st p)) (nextLevel st)))
            (withPriceLevels
               (insert (FloatString rt (Order.Price (orders st p))) (nextLevel st))
               (ob st))).
Proof.
  intros Hid Hpl. unfold AddOrder. rewrite Hid, Hpl.
  cbn -[upd Add NewFloat]. rewrite !upd_eq. split; reflexivity.
Qed.

Lemma CancelOrder_ob rt (id : string) st p lv elem :
  OrderBook.OrderMap (ob st) !! id = Some p ->
  live (Order.Status (orders st p)) = true ->
  OrderBook.PriceLevels (ob st) !! FloatString rt (Order.Price (orders st p)) = Some lv ->
  PriceLevel.OrderMap (levels st lv) !! id = Some elem ->
  fst (CancelOrder rt id st) = None
  /\ ob (snd (CancelOrder rt id st))
     = withOrderMap (delete id)
         (if (length (Remove (PriceLevel.Orders (levels st lv)) elem) =? 0)%nat
          then withTree (Order.Side (orders st p))
                 (fun tree =>
                    btree.Delete tree (PriceLevelItem.mk (Order.Price (orders st p)) lv))
                 (withPriceLevels (delete (FloatString rt (Order.Price (orders st p))))
                    (ob st))
          else ob st).
Proof.
  intros H Hl Hlp He. unfold CancelOrder.
  rewrite H, not_live_test, Hl, Hlp, He. cbn [negb].
  cbn -[upd Remove Sub].
  destruct (length _ =? 0)%nat; split; reflexivity.
Qed.

(** X17.  An order put into the book at a price that has no level and taken out
    again by [CancelOrder] leaves the book as it was: trees, price map and
    id map; the order is cancelled. *)
Theorem AddOrder_then_CancelOrder_restores_the_book rt p st :
  OrderBook.OrderMap (ob st) !! Order.OrderID (orders st p) = None ->
  OrderBook.PriceLevels (ob st) !! FloatString rt (Order.Price (orders st p)) = None ->
  live (Order.Status (orders st p)) = true ->
  noLevelAt (Order.Price (orders st p)) (treeOf (Order.Side (orders st p)) (ob st)) ->
  fst (CancelOrder rt (Order.OrderID (orders st p)) (snd (AddOrder rt p st))) = None
  /\ ob (snd (CancelOrder rt (Order.OrderID (orders st p)) (snd (AddOrder rt p st)))) = ob st.
Proof.
  intros Hid Hpl Hlive Hno.
  destruct (AddOrder_new_level rt p st Hid Hpl) as [Hlv Hob].
  pose proof (AddOrder_orders rt p st) as Ho.
  set (st1 := snd (AddOrder rt p st)) in *.
  destruct (CancelOrder_ob rt (Order.OrderID (orders st p)) st1 p (nextLevel st)
              (nextElem st)) as [Hf Hb].
  - rewrite Hob. destruct (Order.Side (orders st p)); cbn; apply lookup_insert_eq.
  - rewrite Ho. exact Hlive.
  - rewrite Ho, Hob. destruct (Order.Side (orders st p)); cbn; apply lookup_insert_eq.
  - rewrite Hlv. cbn. apply lookup_insert_eq.
  - split; [exact Hf|]. rewrite Hb, Hlv, Ho, Hob.
    cbn [PriceLevel.Orders Remove List.filter Element.addr length].
    rewrite Nat.eqb_refl. cbn [negb length Nat.eqb].
    unfold noLevelAt in Hno.
    destruct (ob st) as [sym bids asks pl om t].
    cbn [OrderBook.OrderMap OrderBook.PriceLevels] in Hid, Hpl.
    destruct (Order.Side (orders st p)); cbn [treeOf OrderBook.Bids OrderBook.Asks] in Hno;
      unfold withOrderMap, withTree, withPriceLevels; cbn;
      [rewrite (Delete_ReplaceOrInsert bids
                  (PriceLevelItem.mk (Order.Price (orders st p)) (nextLevel st)) Hno)
      |rewrite (Delete_ReplaceOrInsert asks
                  (PriceLevelItem.mk (Order.Price (orders st p)) (nextLevel st)) Hno)];
      rewrite !delete_insert_id by assumption; reflexivity.
Qed.

Lemma AddOrder_then_CancelOrder_restores_the_book_witness :
  ob (snd (CancelOrder rt0 "b3" (snd (AddOrder rt0 3%nat bidBetweenTwoBids))))
  = ob bidBetweenTwoBids.
Proof.
  apply (AddOrder_then_CancelOrder_restores_the_book rt0 3%nat bidBetweenTwoBids).
  - vm_compute. reflexivity.
  - vm_compute. reflexivity.
  - vm_compute. reflexivity.
  - repeat constructor; vm_compute; discriminate.
Defined.

(** ** Filled orders leave the book *)

Section Swept.
Variable rt : Runtime.
Variable p : ptr.

Let K0 (s : State) (f : Fill) : Prop :=
  fill_maker f <> p /\ Order.Status (orders s (fill_maker f)) <> StatusPending.

Lemma fifo_fillNewOrder rem t s lp : fifo (fillNewOrder p rem t s) lp = fifo s lp.
Proof. reflexivity. Qed.

Lemma walkOrders_swept lv es :
  forall rem s fills c rem' s' fills',
    ~ In p (map Element.Value es) ->
    Forall (fun f => K0 s f /\ (fill_level f <> lv -> sweptOut s f)) fills ->
    walkOrders rt lv p es rem s fills = (c, rem', s', fills') ->
    Forall (fun f => K0 s' f /\ (fill_level f <> lv -> sweptOut s' f)) fills'
    /\ (forall lp, fifo s' lp = fifo s lp).
Proof.
  induction es as [|e es IH]; intros rem s fills c rem' s' fills' Hp HI Hw.
  - cbn in Hw. inversion Hw; subst. auto.
  - cbn [walkOrders] in Hw. cbn [map] in Hp.
    assert (Hp' : ~ In p (map Element.Value es)) by (intros X; apply Hp; right; exact X).
    assert (Hne : Element.Value e <> p) by (intros X; apply Hp; left; exact X).
    destruct (bool_decide _) eqn:Hs in Hw; [eapply IH; eassumption|].
    apply bool_decide_eq_false in Hs.
    destruct (decide (Order.Status (orders s (Element.Value e)) = StatusPending))
      as [Hpend|Hn]; [|exfalso; exact (Hs Hn)].
    set (r := Element.Value e) in *.
    pose proof (matchOne_fill rt lv p r rem s) as Hf.
    pose proof (matchOne_orders rt lv p r rem s) as Ho.
    pose proof (matchOne_fifo rt lv p r rem s) as Hq.
    destruct (matchOne rt lv p r rem s) as [[f rem1] s1] eqn:E.
    cbn [fst snd] in Hf, Ho, Hq. cbv zeta in Hf, Ho.
    assert (H1 : Forall (fun f => K0 s1 f /\ (fill_level f <> lv -> sweptOut s1 f))
                        (fills ++ [f])).
    { apply Forall_app. split.
      - rewrite List.Forall_forall in *. intros g Hg.
        destruct (HI g Hg) as [[Ha Hb] Hc].
        assert (Hgr : fill_maker g <> r) by (intros X; apply Hb; rewrite X; exact Hpend).
        assert (Hsame : orders s1 (fill_maker g) = orders s (fill_maker g))
          by (rewrite Ho; apply upd_neq; exact Hgr).
        split; [split; [exact Ha|rewrite Hsame; exact Hb]|].
        intros Hl. unfold sweptOut. rewrite Hsame, Hq. exact (Hc Hl).
      - constructor; [|constructor]. rewrite Hf. cbn [fill_maker fill_level].
        split; [|intros X; contradiction].
        split; [exact Hne|]. rewrite Ho, upd_eq.
        cbn [Order.Status Order.setUpdateTime Order.setStatus].
        match goal with |- (if ?b then _ else _) <> _ => destruct b end;
          intros X; discriminate X. }
    destruct (Sign rem1 =? 0).
    + injection Hw as Ec Er Es Ef. subst c rem' s' fills'.
      split; [|intros lp; rewrite fifo_fillNewOrder; apply Hq].
      rewrite List.Forall_forall in *. intros g Hg.
      destruct (H1 g Hg) as [[Ha Hb] Hc].
      assert (Hsame : orders (fillNewOrder p rem1 (Trade.TradeTime (fill_trade f)) s1)
                             (fill_maker g) = orders s1 (fill_maker g))
        by (unfold fillNewOrder, setOrder; cbn [orders]; apply upd_neq; exact Ha).
      split; [split; [exact Ha|rewrite Hsame; exact Hb]|].
      intros Hl. unfold sweptOut. rewrite Hsame, fifo_fillNewOrder. exact (Hc Hl).
    + destruct (IH _ _ _ _ _ _ _ Hp' H1 Hw) as [Ha Hb].
      split; [exact Ha|]. intros lp. rewrite Hb. apply Hq.
Qed.

Lemma reaped_not_filled lv s x :
  In x (fifo (processCompletedOrders rt lv s) lv) ->
  Order.Status (orders s x) <> StatusFilled.
Proof.
  unfold fifo. rewrite processCompletedOrders_levels, upd_eq.
  cbn [PriceLevel.Orders]. intros Hin.
  apply in_map_iff in Hin. destruct Hin as (e & <- & He).
  apply filter_In in He. destruct He as [_ He].
  unfold completed in He. intros Hs. rewrite Hs in He.
  rewrite bool_decide_eq_true_2 in He by reflexivity. discriminate He.
Qed.

Lemma traversePriceLevel_swept item :
  forall rem s fills cont c rem' s' fills',
    ~ In p (fifo s (PriceLevelItem.Level item)) ->
    Forall (fun f => K0 s f /\ sweptOut s f) fills ->
    traversePriceLevel rt item p rem s fills = (cont, c, rem', s', fills') ->
    Forall (fun f => K0 s' f /\ sweptOut s' f) fills'
    /\ (forall lp x, In x (fifo s' lp) -> In x (fifo s lp)).
Proof.
  intros rem s fills cont c rem' s' fills' Hp HI Ht.
  unfold traversePriceLevel in Ht.
  destruct (negb (isMatch _ _ _)).
  - inversion Ht; subst. auto.
  - destruct (walkOrders _ _ _ _ _ _ _) as [[[c1 rem1] s1] fills1] eqn:Hw.
    inversion Ht; subst. clear Ht.
    destruct (walkOrders_swept _ _ _ _ _ _ _ _ _ Hp
                (List.Forall_impl _ (fun f H => conj (proj1 H) (fun _ => proj2 H)) HI) Hw)
      as [H1 Hq].
    split.
    + rewrite List.Forall_forall in *. intros g Hg.
      destruct (H1 g Hg) as [Ha Hc].
      split; [unfold K0 in *; rewrite processCompletedOrders_orders; exact Ha|].
      unfold sweptOut. rewrite processCompletedOrders_orders. intros Hs Hin.
      destruct (Nat.eq_dec (fill_level g) (PriceLevelItem.Level item)) as [El|Nl].
      * rewrite El in Hin. exact (reaped_not_filled _ _ _ Hin Hs).
      * apply (Hc Nl Hs). apply processCompletedOrders_fifo in Hin. exact Hin.
    + intros lp x Hin. apply processCompletedOrders_fifo in Hin.
      rewrite Hq in Hin. exact Hin.
Qed.

Lemma matchLevels_swept items :
  forall rem s fills c rem' s' fills',
    (forall item, In item items -> ~ In p (fifo s (PriceLevelItem.Level item))) ->
    Forall (fun f => K0 s f /\ sweptOut s f) fills ->
    matchLevels rt items p rem s fills = (c, rem', s', fills') ->
    Forall (fun f => K0 s' f /\ sweptOut s' f) fills'.
Proof.
  induction items as [|item items IH];
    intros rem s fills c rem' s' fills' Hp HI Hm.
  - cbn in Hm. inversion Hm; subst. exact HI.
  - cbn [matchLevels] in Hm.
    destruct (traversePriceLevel rt item p rem s fills)
      as [[[[cont c1] rem1] s1] fills1] eqn:Ht.
    destruct (traversePriceLevel_swept _ _ _ _ _ _ _ _ _
                (Hp item (or_introl eq_refl)) HI Ht) as [H1 Hq].
    destruct cont.
    + eapply IH; [|exact H1|exact Hm].
      intros item' Hin X. apply (Hp item' (or_intror Hin)). apply Hq. exact X.
    + inversion Hm; subst. exact H1.
Qed.
End Swept.

(** X18.  A resting order that a call has filled is gone from the FIFO of its
    level when the call returns, whether the new order was filled there or
    went on to further levels. *)
Theorem filled_makers_leave_the_book rt c p st :
  (forall item,
      In item (oppositeLevels c (Order.Side (orders st p)) (ob st)) ->
      ~ In p (fifo st (PriceLevelItem.Level item))) ->
  Forall (sweptOut (snd (MatchOrderFills rt c p st))) (fst (MatchOrderFills rt c p st)).
Proof.
  intros Hp. unfold MatchOrderFills.
  destruct (matching rt c p st) as [[[done rem] st1] fills] eqn:Hm. cbn [fst snd].
  pose proof Hm as Hm'. unfold matching in Hm'.
  pose proof (matchLevels_swept rt p _ _ _ _ _ _ _ _ Hp (List.Forall_nil _) Hm') as H1.
  destruct (matching_frame _ _ _ _ _ _ _ _ Hm) as [_ Hdone].
  rewrite List.Forall_forall in *. intros g Hg. destruct (H1 g Hg) as [[Ha Hb] Hc].
  destruct (Z_gt_le_dec (Sign rem) 0) as [Hgt|Hle].
  - assert (done = false) as ->.
    { destruct done; [|reflexivity]. destruct (Hdone eq_refl) as [_ Hz]. lia. }
    destruct (finish_residual rt p rem st1 Hgt) as (Ho & Hl & _).
    unfold sweptOut, fifo. rewrite Ho, Hl. rewrite AddOrder_orders.
    unfold residualState at 1, setOrder. cbn [orders]. rewrite upd_neq by exact Ha.
    intros Hs Hin. apply AddOrder_fifo_in in Hin. destruct Hin as [Hin|Hin].
    + exact (Hc Hs Hin).
    + exact (Ha Hin).
  - destruct (finish_no_residual rt p done rem st1 Hle) as (Ho & Hl & _).
    unfold sweptOut, fifo. rewrite Ho, Hl. exact Hc.
Qed.

Lemma filled_makers_leave_the_book_witness :
  Forall (sweptOut (snd (MatchOrderFills rt0 ModelCopy 3%nat priceImprovement)))
         (fst (MatchOrderFills rt0 ModelCopy 3%nat priceImprovement)).
Proof.
  apply (filled_makers_leave_the_book rt0 ModelCopy 3%nat priceImprovement).
  intros item Hin. vm_compute in Hin.
  destruct Hin as [<-|[<-|[]]]; vm_compute; intuition discriminate.
Defined.
